(** * Blossom build tools: dependency ordering of files, packages and frameworks

    A shallow embedding of the ordering core of the Blossom build tools
    ([BT.File], [BT.PackageFile], [BT.Package], [BT.Packager], [BT.Target],
    [BT.Project]) together with the properties its specification states.

    JavaScript strings are modelled as [string] (code units below 256);
    arrays as [list]; objects used as maps as association lists in insertion
    order; [console.log] as an explicit log of lines; exceptions as the left
    summand of a result.  The graph class that the orderings sort with is not
    part of the tree: it is modelled from the specification, and the
    orderings named [Package_], [Target_] and [Packager_] take its sort as a
    parameter. *)

From Stdlib Require Import String Ascii List Bool Arith Lia Permutation.
Import ListNotations.
Local Open Scope list_scope.
Local Open Scope string_scope.

(** ** JavaScript string primitives used by the build tools *)

Module JS.

(** [s.split(sep)] for a one-character separator: never returns the empty
    array, and keeps empty pieces. *)
Fixpoint split (sep : ascii) (s : string) : list string :=
  match s with
  | EmptyString => [EmptyString]
  | String c t =>
      if Ascii.eqb c sep then EmptyString :: split sep t
      else match split sep t with
           | [] => [String c EmptyString]
           | h :: r => String c h :: r
           end
  end.

(** [ary.join(sep)]. *)
Fixpoint join (sep : string) (l : list string) : string :=
  match l with
  | [] => EmptyString
  | [x] => x
  | x :: r => x ++ sep ++ join sep r
  end.

(** [s.slice(n)] for [0 <= n]: drops the first [n] code units. *)
Fixpoint slice_from (n : nat) (s : string) : string :=
  match n, s with
  | O, _ => s
  | S _, EmptyString => EmptyString
  | S k, String _ t => slice_from k t
  end.

(** [s.slice(0, n)] for [0 <= n]: keeps the first [n] code units. *)
Fixpoint slice_to (n : nat) (s : string) : string :=
  match n, s with
  | O, _ => EmptyString
  | S _, EmptyString => EmptyString
  | S k, String c t => String c (slice_to k t)
  end.

(** [s.slice(0, -n)]: drops the last [n] code units. *)
Definition drop_last (n : nat) (s : string) : string :=
  slice_to (String.length s - n) s.

(** [s.slice(-1)]: the last code unit when there is one. *)
Fixpoint last_char (s : string) : option ascii :=
  match s with
  | EmptyString => None
  | String c EmptyString => Some c
  | String _ t => last_char t
  end.

Definition nonempty (s : string) : bool :=
  match s with EmptyString => false | _ => true end.

(** Does [s] start with [p]? *)
Fixpoint starts_with (p s : string) : bool :=
  match p, s with
  | EmptyString, _ => true
  | String a p', String b s' => Ascii.eqb a b && starts_with p' s'
  | String _ _, EmptyString => false
  end.

(** Line terminators: the code units the regular-expression dot refuses
    (U+2028 and U+2029 lie outside the modelled range). *)
Definition is_line_terminator (c : ascii) : bool :=
  Ascii.eqb c "010"%char || Ascii.eqb c "013"%char.

Definition is_quote (c : ascii) : bool :=
  Ascii.eqb c "'"%char || Ascii.eqb c "034"%char.

End JS.

(** ** Node's [path] module (POSIX flavour), as far as the build tools use it *)

Module Path.

Definition slash : ascii := "/"%char.

(** One step of [normalizeArray], which walks the parts from the last to
    the first carrying the number [up] of pending parent references. *)
Definition normalize_step (part : string) (st : list string * nat)
  : list string * nat :=
  let '(kept, up) := st in
  if String.eqb part "." then (kept, up)
  else if String.eqb part ".." then (kept, S up)
  else match up with
       | O => (part :: kept, O)
       | S k => (kept, k)
       end.

Definition normalizeArray (parts : list string) (allowAboveRoot : bool)
  : list string :=
  let '(kept, up) := fold_right normalize_step ([], 0) parts in
  if allowAboveRoot then (repeat ".." up ++ kept)%list else kept.

Definition isAbsolute (p : string) : bool :=
  match p with
  | String c _ => Ascii.eqb c slash
  | EmptyString => false
  end.

Definition trailingSlash (p : string) : bool :=
  match JS.last_char p with
  | Some c => Ascii.eqb c slash
  | None => false
  end.

(** [path.normalize]. *)
Definition normalize (p : string) : string :=
  let abs := isAbsolute p in
  let body :=
    JS.join "/" (normalizeArray (filter JS.nonempty (JS.split slash p))
                                (negb abs)) in
  let body := if negb (JS.nonempty body) && negb abs then "." else body in
  let body := if JS.nonempty body && trailingSlash p
              then body ++ "/" else body in
  (if abs then "/" else EmptyString) ++ body.

(** [path.join(a, b)]: the non-empty arguments glued by a slash, then
    normalised. *)
Definition join (a b : string) : string :=
  normalize (JS.join "/" (filter JS.nonempty [a; b])).

(** The last segment of a path (what follows its last slash). *)
Definition last_segment (p : string) : string :=
  last (JS.split slash p) EmptyString.

(** The suffix of [s] from its last dot that is not its first character;
    [acc] is the answer found so far and [first] tells whether the scan is
    still at the first character. *)
Fixpoint ext_scan (first : bool) (acc : string) (s : string) : string :=
  match s with
  | EmptyString => acc
  | String c t =>
      if Ascii.eqb c "."%char && negb first then ext_scan false s t
      else ext_scan false acc t
  end.

(** [path.basename]: what follows the last slash that is not the final
    character, after the root slash of an absolute path. *)
Definition basename (p : string) : string :=
  let rest := if isAbsolute p then JS.slice_from 1 p else p in
  if String.eqb rest "/" then EmptyString
  else match rev (JS.split slash rest) with
       | EmptyString :: x :: _ => x ++ "/"
       | x :: _ => x
       | [] => EmptyString
       end.

(** [path.dirname] of a normalised path with at least one slash: what
    precedes its last segment. *)
Definition dirname (p : string) : string :=
  JS.join "/" (removelast (JS.split slash p)).

(** [path.extname]. *)
Definition extname (p : string) : string :=
  let base := last_segment p in
  if String.eqb base ".." then EmptyString
  else ext_scan true EmptyString base.

End Path.

(** ** The dependency graph *)

(** Exceptions that reach the caller. *)
Inductive exn : Type :=
| CycleError
| TypeError
| IOError
| AssertionError
| OutOfFuel. (* the bound of a bounded definition was reached: not an
               exception of the program *)

Module Graph.

(** Modelled from the spec: the graph class loaded from [./utils/graph],
    whose source is not part of the tree.  Vertices are kept in insertion
    order, edges in the order they are added. *)
Record t : Type := mk {
  vertices : list string;
  edges : list (string * string)
}.

Definition empty : t := mk [] [].

Definition mem (v : string) (l : list string) : bool :=
  existsb (String.eqb v) l.

(** Modelled from the spec: [addVertex(id)] registers a vertex
    idempotently. *)
Definition addVertex (v : string) (g : t) : t :=
  if mem v (vertices g) then g else mk (vertices g ++ [v])%list (edges g).

(** Modelled from the spec: [addEdge(from, to)] registers a directed edge
    and both endpoints when they are absent. *)
Definition addEdge (from to : string) (g : t) : t :=
  let g' := addVertex to (addVertex from g) in
  mk (vertices g') (edges g' ++ [(from, to)])%list.

(** Modelled from the spec: the precedence that [topologicalSort] respects.
    A pending vertex is ready when no edge enters it from a vertex that is
    still pending. *)
Definition ready (es : list (string * string)) (pending : list string)
           (v : string) : bool :=
  negb (existsb (fun e => String.eqb (snd e) v && mem (fst e) pending) es).

Definition remove (v : string) (l : list string) : list string :=
  filter (fun w => negb (String.eqb w v)) l.

(** Modelled from the spec: the loop of [topologicalSort].  It repeatedly
    emits the first ready vertex in insertion order, and gives [None] when
    vertices remain and none is ready.  The fuel bounds the number of
    emitted vertices and is the number of vertices at the call. *)
Fixpoint sort_loop (fuel : nat) (es : list (string * string))
         (pending : list string) : option (list string) :=
  match pending with
  | [] => Some []
  | _ :: _ =>
      match fuel with
      | O => None
      | S k =>
          match find (ready es pending) pending with
          | None => None
          | Some v => option_map (cons v) (sort_loop k es (remove v pending))
          end
      end
  end.

(** Modelled from the spec: [topologicalSort()] returns every vertex once,
    each edge's source before its target, ties broken by insertion order,
    and fails when the graph has a cycle. *)
Definition topologicalSort (g : t) : exn + list string :=
  match sort_loop (length (vertices g)) (edges g) (vertices g) with
  | Some l => inr l
  | None => inl CycleError
  end.

(** A walk of at least one edge. *)
Inductive reach (g : t) : string -> string -> Prop :=
| reach_edge u v : In (u, v) (edges g) -> reach g u v
| reach_step u v w : In (u, v) (edges g) -> reach g v w -> reach g u w.

Definition cyclic (g : t) : Prop := exists v, reach g v v.

(** The position of the first occurrence of [v] in [l]. *)
Fixpoint pos (l : list string) (v : string) : nat :=
  match l with
  | [] => 0
  | w :: r => if String.eqb w v then 0 else S (pos r v)
  end.

(** [u] occurs strictly before [v] in [l]. *)
Definition before (l : list string) (u v : string) : Prop :=
  In u l /\ In v l /\ pos l u < pos l v.

(** [chain es l v]: the vertices of [l], in order, then [v], form a walk. *)
Fixpoint chain (es : list (string * string)) (l : list string) (v : string)
  : Prop :=
  match l with
  | [] => True
  | u :: r => In (u, hd v r) es /\ chain es r v
  end.

(** Every edge joins registered vertices, as in any graph built with
    [addVertex] and [addEdge]. *)
Definition wf (g : t) : Prop :=
  forall u v, In (u, v) (edges g) -> In u (vertices g) /\ In v (vertices g).

End Graph.

(** ** Computations that log and may throw *)

(** A computation over a state [S] either throws or returns; the state
    it leaves is kept in both cases. *)
Definition M (S A : Type) : Type := S -> (exn + A) * S.

Definition ret {S A} (a : A) : M S A := fun s => (inr a, s).

Definition bind {S A B} (m : M S A) (k : A -> M S B) : M S B :=
  fun s =>
    match m s with
    | (inl e, s') => (inl e, s')
    | (inr a, s') => k a s'
    end.

Definition throw {S A} (e : exn) : M S A := fun s => (inl e, s).

Definition lift {S A} (r : exn + A) : M S A :=
  match r with inl e => throw e | inr a => ret a end.

(** States that hold the console. *)
Class Console (S : Type) : Type := write_line : string -> S -> S.

#[export] Instance Console_log : Console (list string) :=
  fun line log => (log ++ [line])%list.

(** [console.log(line)]. *)
Definition console_log {S} `{Console S} (line : string) : M S unit :=
  fun s => (inr tt, write_line line s).

Notation "x <- m ;; k" := (bind m (fun x => k))
  (at level 61, m at next level, right associativity).
Notation "m ;;; k" := (bind m (fun _ => k))
  (at level 61, right associativity).

(** [ary.forEach(body)] for a body that updates an accumulator. *)
Fixpoint forEach {S A T} (l : list A) (body : T -> A -> M S T) (t : T)
  : M S T :=
  match l with
  | [] => ret t
  | a :: r => t' <- body t a ;; forEach r body t'
  end.

(** Objects used as maps from strings: the newest binding of a key wins. *)
Fixpoint lookup {A} (m : list (string * A)) (k : string) : option A :=
  match m with
  | [] => None
  | (k', a) :: r => if String.eqb k' k then Some a else lookup r k
  end.

(** ** Files *)

Module Regex.

(** The pattern is: the text sc_require, an opening parenthesis, a single
    or double quote (group 1), any run of characters other than line
    terminators, taken greedily (group 2), the same quote again, a closing
    parenthesis.  [capture q r] is group 2 once the opening quote [q] has
    been read: the longest such run that is followed by [q] and a closing
    parenthesis. *)
Fixpoint capture (q : ascii) (r : string) : option string :=
  match r with
  | EmptyString => None
  | String c t =>
      match (if JS.is_line_terminator c then None
             else option_map (String c) (capture q t)) with
      | Some p => Some p
      | None =>
          if Ascii.eqb c q && JS.starts_with ")" t
          then Some EmptyString else None
      end
  end.

(** A match that starts at the first character of [s]. *)
Definition match_here (s : string) : option string :=
  if JS.starts_with "sc_require(" s then
    match JS.slice_from 11 s with
    | String q r => if JS.is_quote q then capture q r else None
    | EmptyString => None
    end
  else None.

(** [re.exec(statement)]: the second group of the leftmost match. *)
Fixpoint exec (s : string) : option string :=
  match match_here s with
  | Some p => Some p
  | None => match s with
            | EmptyString => None
            | String _ t => exec t
            end
  end.

End Regex.

(** A [BT.File] or [BT.PackageFile]; [source] is what its [contents] reads
    (for a CoffeeScript file, the compiled script). *)
Record File : Type := mkFile {
  sourcePath : string;
  sourceTree : string;
  parentSourceTree : string;
  source : string
}.

Definition isJavaScript (f : File) : bool :=
  String.eqb (Path.extname (sourcePath f)) ".js".

Definition isCoffeeScript (f : File) : bool :=
  String.eqb (Path.extname (sourcePath f)) ".coffee".

(** [BT.File.contents] of a file that is read, and compiled, without an
    error: its text, and [null] for a file of another kind. *)
Definition contents (f : File) : option string :=
  if isJavaScript f then Some (source f)
  else if isCoffeeScript f then Some (source f)
  else None.

(** The statements of a text: its lines, each split at semicolons. *)
Definition statements (text : string) : list string :=
  flat_map (JS.split ";"%char) (JS.split "010"%char text).

Definition scan (text : string) : list string :=
  flat_map (fun statement =>
              match Regex.exec statement with
              | Some path => [path]
              | None => []
              end) (statements text).

(** [BT.File.scRequireDependencies]. *)
Definition File_scRequireDependencies (f : File) : exn + list string :=
  match contents f with
  | None => inl TypeError
  | Some text => inr (scan text)
  end.

(** [BT.PackageFile.relativePath]. *)
Definition PackageFile_relativePath (f : File) : string :=
  JS.slice_from (String.length (Path.normalize (parentSourceTree f)) + 1)
                (sourcePath f).

(** [BT.PackageFile.requirePath] and [BT.Package.requirePath]. *)
Definition requirePath (sourceTree parentSourceTree : string) : string :=
  JS.slice_from (String.length parentSourceTree + 1) sourceTree.

Definition PackageFile_requirePath (f : File) : string :=
  requirePath (sourceTree f) (parentSourceTree f).

(** [BT.PackageFile.scRequireDependencies]. *)
Definition PackageFile_scRequireDependencies (f : File) : exn + list string :=
  match File_scRequireDependencies f with
  | inl e => inl e
  | inr ary => inr (map (Path.join (PackageFile_requirePath f)) ary)
  end.

(** ** Packages *)

(** What the file system determines of a [BT.Package]: the properties left
    by [init] and the merged [package.json].  [dependencies] is [None] when
    the JSON gives none; [rootNode] is the name of the node found by walking
    up to the enclosing framework or app ([None] when that node has no
    name). *)
Record PackageInfo : Type := mkInfo {
  pkgSourceTree : string;
  pkgParentSourceTree : string;
  basename : string;
  type : string;
  dependencies : option (list string);
  rootNode : option string;
  files : list File
}.

(** A [BT.Package]: the packager stores it under its [uuid], which the first
    traversal also makes its [nodeName]. *)
Record Package : Type := mkPackage {
  uuid : string;
  info : PackageInfo
}.

Definition nodeName (p : Package) : string := uuid p.

(** [package.set('type', t)]. *)
Definition setType (t : string) (p : Package) : Package :=
  let i := info p in
  mkPackage (uuid p)
    (mkInfo (pkgSourceTree i) (pkgParentSourceTree i) (basename i) t
            (dependencies i) (rootNode i) (files i)).

Definition Package_requirePath (p : Package) : string :=
  requirePath (pkgSourceTree (info p)) (pkgParentSourceTree (info p)).

(** The key a file gets in [orderFiles]: its relative path without the
    extension; [undefined] (as a property name) for a file that is neither
    JavaScript nor CoffeeScript. *)
Definition dependencyPath (f : File) : string :=
  if isJavaScript f then JS.drop_last 3 (PackageFile_relativePath f)
  else if isCoffeeScript f then JS.drop_last 7 (PackageFile_relativePath f)
  else "undefined".

(** The first loop of [orderFiles]: one vertex per file, one edge per
    declared dependency, and one edge from the core path. *)
Definition addFile (corePath : string) (st : Graph.t * list (string * File))
           (file : File) : exn + Graph.t * list (string * File) :=
  let '(g, map) := st in
  match PackageFile_scRequireDependencies file with
  | inl e => inl e
  | inr deps =>
      let dependencyPath := dependencyPath file in
      let g := Graph.addVertex dependencyPath g in
      let g := fold_left (fun g name => Graph.addEdge name dependencyPath g)
                         deps g in
      inr (Graph.addEdge corePath dependencyPath g,
           (dependencyPath, file) :: map)
  end.

Definition file_diagnostic (sourceTree vertex : string) : string :=
  "could not find " ++ sourceTree ++ " package dependency: " ++ vertex.

(** The second loop of [orderFiles], for vertices other than the names of
    the members that every object inherits ([Package_collectFile] is the
    loop with them). *)
Definition collectFile (sourceTree corePath : string)
           (map : list (string * File)) (acc : list File) (vertex : string)
  : M (list string) (list File) :=
  match lookup map vertex with
  | Some dep => ret (acc ++ [dep])%list
  | None =>
      if String.eqb vertex corePath then ret acc
      else console_log (file_diagnostic sourceTree vertex) ;;; ret acc
  end.

(** [BT.Package.orderFiles] over the sort modelled from the spec
    ([Package_orderFiles] is the function over any sort). *)
Definition orderFiles (sourceTree parentSourceTree : string)
           (files : list File) : M (list string) (list File) :=
  let requirePath := requirePath sourceTree parentSourceTree in
  let corePath := Path.join requirePath "core" in
  st <- forEach files (fun st file => lift (addFile corePath st file))
                (Graph.empty, []) ;;
  sortedVertices <- lift (Graph.topologicalSort (fst st)) ;;
  forEach sortedVertices (collectFile sourceTree corePath (snd st)) [].

(** A loop whose body only throws or returns, as a fold. *)
Fixpoint foldM {A T} (f : T -> A -> exn + T) (l : list A) (t : T) : exn + T :=
  match l with
  | [] => inr t
  | a :: r => match f t a with
              | inl e => inl e
              | inr t' => foldM f r t'
              end
  end.

(** The graph and the map that the first loop of [orderFiles] builds. *)
Definition fileGraph (corePath : string) (files : list File)
  : exn + Graph.t * list (string * File) :=
  foldM (addFile corePath) files (Graph.empty, []).

(** The files that the second loop of [orderFiles] collects. *)
Definition collected (map : list (string * File)) (sorted : list string)
  : list File :=
  flat_map (fun vertex => match lookup map vertex with
                          | Some dep => [dep]
                          | None => []
                          end) sorted.

(** The lines that the second loop of [orderFiles] logs. *)
Definition diagnostics (sourceTree corePath : string)
           (map : list (string * File)) (sorted : list string) : list string :=
  flat_map (fun vertex => match lookup map vertex with
                          | Some _ => []
                          | None => if String.eqb vertex corePath then []
                                    else [file_diagnostic sourceTree vertex]
                          end) sorted.

(** [BT.Package.orderedJavaScriptFiles]. *)
Definition orderedJavaScriptFiles (p : Package)
  : M (list string) (list File) :=
  orderFiles (pkgSourceTree (info p)) (pkgParentSourceTree (info p))
             (files (info p)).

(** ** Packagers *)

(** The packages of a [BT.Packager] in the order of its keys.  Packages are
    shared objects: a package is referred to by its position in this store,
    and [set] on it updates the store. *)
Definition Store : Type := list Package.

Fixpoint find_index {A} (f : A -> bool) (l : list A) : option nat :=
  match l with
  | [] => None
  | a :: r => if f a then Some 0 else option_map S (find_index f r)
  end.

Fixpoint update {A} (j : nat) (f : A -> A) (l : list A) {struct l}
  : list A :=
  match l, j with
  | [], _ => []
  | a :: r, O => f a :: r
  | a :: r, S k => a :: update k f r
  end.

(** [node.set(uuid, package)] in [BT.Packager.init]: a key that is already
    present keeps its place and gets the new package. *)
Fixpoint Packager_set (p : Package) (store : Store) : Store :=
  match store with
  | [] => [p]
  | q :: r => if String.eqb (uuid q) (uuid p) then p :: r
              else q :: Packager_set p r
  end.

(** [BT.Packager.init]: every package directory found by the scan, in the
    order of the scan, gets the next identifier drawn by [uuid()] (the SHA-1
    digest of [Math.random()], here an input of the run). *)
Fixpoint Packager_init (dirs : list PackageInfo) (draws : list string)
         (store : Store) : Store :=
  match dirs, draws with
  | d :: dirs', u :: draws' =>
      Packager_init dirs' draws' (Packager_set (mkPackage u d) store)
  | _, _ => store
  end.

(** [BT.Packager.findPackage] for a key that names no other property of
    the packager: by identifier first, by basename otherwise
    ([Packager_findPackage] is the function with the other properties). *)
Definition findPackage (store : Store) (key : string) : option nat :=
  match find_index (fun p => String.eqb (uuid p) key) store with
  | Some j => Some j
  | None => find_index (fun p => String.eqb (basename (info p)) key) store
  end.

Definition typeAt (store : Store) (i : nat) : string :=
  match nth_error store i with
  | Some p => type (info p)
  | None => "undefined"
  end.

Definition uuidAt (store : Store) (i : nat) : string :=
  match nth_error store i with
  | Some p => uuid p
  | None => "undefined"
  end.

Definition basenameAt (store : Store) (i : nat) : string :=
  match nth_error store i with
  | Some p => basename (info p)
  | None => "undefined"
  end.

Definition promotion_diagnostic (name : string) : string :=
  "core package depends on non-core package, forcing non-core (" ++ name
  ++ ") dependency to core".

Definition missing_diagnostic (dependency package parent : string) : string :=
  "things are gonna get ugly, couldn't find dependency " ++ dependency
  ++ " for package " ++ package ++ " in " ++ parent.

(** The body of the inner loop of [orderedPackages] for the package at
    position [i], whose name is [name], and a dependency that names no
    other property of the packager. *)
Definition resolveDependency (i : nat) (name parent : string)
           (st : Store * Graph.t) (dependency : string)
  : M (list string) (Store * Graph.t) :=
  let '(store, g) := st in
  match findPackage store dependency with
  | Some j =>
      store' <-
        (if String.eqb (typeAt store i) "core"
            && negb (String.eqb (typeAt store j) "core")
         then console_log (promotion_diagnostic (basenameAt store j)) ;;;
              ret (update j (setType "core") store)
         else ret store) ;;
      ret (store', Graph.addEdge (uuidAt store' j) name g)
  | None =>
      console_log (missing_diagnostic dependency (basenameAt store i) parent) ;;;
      ret (store, Graph.addEdge "undefined" name g)
  end.

(** The body of the outer loop of [orderedPackages]; the map sends a name to
    the position of its package. *)
Definition resolvePackage (st : Store * Graph.t * list (string * nat))
           (i : nat) : M (list string) (Store * Graph.t * list (string * nat)) :=
  let '(store, g, map) := st in
  match nth_error store i with
  | None => ret st
  | Some package =>
      let deps := match dependencies (info package) with
                  | Some l => l
                  | None => []
                  end in
      let name := nodeName package in
      sg <- forEach deps
              (resolveDependency i name
                 (Path.basename (pkgParentSourceTree (info package))))
              (store, Graph.addVertex name g) ;;
      ret (fst sg, snd sg, (name, i) :: map)
  end.

(** The first loop of [orderedPackages]: it never throws, and leaves the
    store with the promotions made. *)
Definition resolve (store : Store)
  : M (list string) (Store * Graph.t * list (string * nat)) :=
  forEach (seq 0 (length store)) resolvePackage (store, Graph.empty, []).

(** The second loop of [orderedPackages]. *)
Definition collectPackages (store : Store) (map : list (string * nat))
           (sorted : list string) : list Package :=
  flat_map (fun vertex =>
              match lookup map vertex with
              | Some i => match nth_error store i with
                          | Some p => [p]
                          | None => []
                          end
              | None => []
              end) sorted.

(** [BT.Packager.orderedPackages]: the store it leaves and the packages in
    dependency order. *)
Definition orderedPackages (store : Store)
  : M (list string) (Store * list Package) :=
  st <- resolve store ;;
  let '(store', g, map) := st in
  match Graph.topologicalSort g with
  | inl e => throw e
  | inr sorted => ret (store', collectPackages store' map sorted)
  end.

(** The store after [orderedPackages], whether its sort throws or not. *)
Definition storeAfter (store : Store) (log : list string) : Store :=
  match resolve store log with
  | (inr (store', _, _), _) => store'
  | (inl _, _) => store
  end.

Definition dq : string := String "034"%char EmptyString.
Definition sq : string := "'".
Definition nl : string := String "010"%char EmptyString.

(** [findRoot] of [manifest]. *)
Definition findRoot (p : Package) : string :=
  sq ++ match rootNode (info p) with Some n => n | None => "null" end ++ sq.

Definition manifest_missing (depName package : string) : string :=
  "could not find package dependency " ++ depName ++ " by " ++ package
  ++ ", remember packages can't depend on packages in other frameworks".

(** [dependenciesFor] of [manifest]. *)
Definition dependenciesFor (store : Store) (p : Package)
  : M (list string) string :=
  match dependencies (info p) with
  | None => ret nl
  | Some deps =>
      str <- forEach (combine (seq 0 (length deps)) deps)
               (fun str '(idx, depName) =>
                  match findPackage store depName with
                  | None =>
                      console_log
                        (manifest_missing depName (basename (info p))) ;;;
                      ret str
                  | Some _ =>
                      ret (str ++ "      " ++ dq ++ depName ++ dq
                               ++ (if Nat.ltb idx (length deps - 1)
                                   then "," ++ nl else EmptyString))
                  end)
               ("," ++ nl ++ "    " ++ dq ++ "dependencies" ++ dq ++ ": ["
                    ++ nl) ;;
      ret (str ++ nl ++ "    ]" ++ nl)
  end.

Definition bool_text (b : bool) : string := if b then "true" else "false".

(** One entry of the manifest: the text appended for the package at
    position [idx] of [count]. *)
Definition manifest_entry (store : Store) (count idx : nat) (p : Package)
  : M (list string) string :=
  let ty := type (info p) in
  deps <- dependenciesFor store p ;;
  ret ("  " ++ dq ++ nodeName p ++ dq ++ ": {" ++ nl
       ++ "    " ++ dq ++ "basename" ++ dq ++ ": " ++ sq
            ++ basename (info p) ++ sq ++ "," ++ nl
       ++ "    " ++ dq ++ "type" ++ dq ++ ": " ++ sq ++ ty ++ sq ++ "," ++ nl
       ++ "    " ++ dq ++ "rootNode" ++ dq ++ ": " ++ findRoot p ++ "," ++ nl
       ++ "    " ++ dq ++ "isLoaded" ++ dq ++ ": "
            ++ bool_text (String.eqb ty "core") ++ "," ++ nl
       ++ "    " ++ dq ++ "isReady" ++ dq ++ ": "
            ++ bool_text (String.eqb ty "core")
       ++ deps
       ++ "  }"
       ++ (if Nat.ltb idx (count - 1) then "," ++ nl else EmptyString)).

(** [BT.Packager.manifest] over the cached [orderedPackages]. *)
Definition manifest (store : Store) (packages : list Package)
  : M (list string) string :=
  forEach (combine (seq 0 (length packages)) packages)
    (fun text '(idx, p) =>
       entry <- manifest_entry store (length packages) idx p ;;
       ret (text ++ entry))
    EmptyString.

(** [BT.Target.orderedCorePackageFiles] for a target whose packager holds
    [packages] in dependency order. *)
Definition orderedCorePackageFiles (packages : list Package)
  : M (list string) (list File) :=
  forEach packages
    (fun packageFiles p =>
       if negb (String.eqb (type (info p)) "core") then ret packageFiles
       else fs <- orderedJavaScriptFiles p ;; ret (packageFiles ++ fs)%list)
    [].

(** One run of the packager of a target: construction with the identifiers
    drawn, package order, manifest and ordered core files. *)
Definition run (dirs : list PackageInfo) (draws : list string)
  : M (list string) (list Package * string * list File) :=
  sp <- orderedPackages (Packager_init dirs draws []) ;;
  text <- manifest (fst sp) (snd sp) ;;
  fs <- orderedCorePackageFiles (snd sp) ;;
  ret (snd sp, text, fs).

(** ** The project tree *)

Inductive kind : Type :=
| KProject | KApp | KFramework | KLocalization | KTarget
| KPackager | KPackage | KDirectory | KFile | KProxy | KBuildNode.

Definition kind_eqb (a b : kind) : bool :=
  match a, b with
  | KProject, KProject | KApp, KApp | KFramework, KFramework
  | KLocalization, KLocalization | KTarget, KTarget
  | KPackager, KPackager | KPackage, KPackage | KDirectory, KDirectory
  | KFile, KFile | KProxy, KProxy | KBuildNode, KBuildNode => true
  | _, _ => false
  end.

(** The properties of a node that the modelled methods read: the declared
    [frameworks] of a target, and the values of an app's
    [productionIndexHTML] and [javascriptSourceFiles]. *)
Record Props : Type := mkProps {
  frameworks : list string;
  productionIndexHTML : string;
  javascriptSourceFiles : list string
}.

(** A build node with the key it has in its parent (also its [nodeName])
    and its child nodes in the order of its keys; the back references
    [project] and [parentNode], which traversals skip, are not children. *)
#[warnings="-register-all"]
Inductive Node : Type :=
| Nd (key : string) (k : kind) (props : Props) (children : list Node).

Definition nodeKey (n : Node) : string := let 'Nd key _ _ _ := n in key.
Definition nodeKind (n : Node) : kind := let 'Nd _ k _ _ := n in k.
Definition nodeProps (n : Node) : Props := let 'Nd _ _ props _ := n in props.
Definition children (n : Node) : list Node := let 'Nd _ _ _ cs := n in cs.

(** A visitor that stops at the first node of kind [k0] whose key is [str]
    and descends into every other node, visiting [n] under its key. *)
Fixpoint visit_find (k0 : kind) (str : string) (n : Node) : option Node :=
  match n with
  | Nd key k _ cs =>
      if kind_eqb k k0 && String.eqb key str then Some n
      else (fix traverse (cs : list Node) : option Node :=
              match cs with
              | [] => None
              | c :: r => match visit_find k0 str c with
                          | Some x => Some x
                          | None => traverse r
                          end
              end) cs
  end.

(** The default [traverse] of the children of a node under that visitor. *)
Fixpoint traverse_find (k0 : kind) (str : string) (cs : list Node)
  : option Node :=
  match cs with
  | [] => None
  | c :: r => match visit_find k0 str c with
              | Some x => Some x
              | None => traverse_find k0 str r
              end
  end.

(** [BT.Project.findFramework(str, root)]: [root] itself is visited without
    a key, so the search is over the nodes below it. *)
Definition findFramework (str : string) (root : Node) : option Node :=
  traverse_find KFramework str (children root).

(** [BT.Project.findApp(str)]. *)
Definition findApp (str : string) (project : Node) : option Node :=
  traverse_find KApp str (children project).

(** The nodes of kind [k0] below a node, in the order a visitor meets
    them. *)
Fixpoint collect (k0 : kind) (n : Node) : list Node :=
  match n with
  | Nd _ k _ cs =>
      ((if kind_eqb k k0 then [n] else [])
       ++ (fix traverse (cs : list Node) : list Node :=
             match cs with
             | [] => []
             | c :: r => collect k0 c ++ traverse r
             end) cs)%list
  end.

(** [BT.Project.apps]. *)
Definition apps (project : Node) : list Node :=
  flat_map (collect KApp) (children project).

(** The longest chain of nodes from a node down to a leaf. *)
Fixpoint height (n : Node) : nat :=
  match n with
  | Nd _ _ _ cs =>
      S ((fix heights (cs : list Node) : nat :=
            match cs with
            | [] => 0
            | c :: r => Nat.max (height c) (heights r)
            end) cs)
  end.

(** ** Targets *)

(** [processFramework(name, parent)] of [orderedFrameworks], with [root] the
    node the search starts from (the project at the top, the parent
    framework below) and [ary] the array being filled. *)
Fixpoint processFramework {St} (fuel : nat) (root : Node) (name : string)
         (ary : list Node) : M St (list Node) :=
  match fuel with
  | O => throw OutOfFuel
  | S fuel' =>
      match findFramework name root with
      | None => ret ary
      | Some framework =>
          ary' <- forEach (frameworks (nodeProps framework))
                    (fun ary dep => processFramework fuel' framework dep ary)
                    ary ;;
          ret (ary' ++ [framework])%list
      end
  end.

(** [BT.Target.orderedFrameworks] of a target whose [project] property is
    [project]. *)
Definition orderedFrameworks {St} (fuel : nat) (project : option Node)
           (target : Node) : M St (list Node) :=
  match project with
  | None => ret []
  | Some project =>
      forEach (frameworks (nodeProps target))
              (fun ary name => processFramework fuel project name ary) []
  end.

(** ** Building *)

(** The file system: its directories, its regular files with their text,
    and the paths at which creating a directory is refused, each with the
    cause reported. *)
Record FS : Type := mkFS {
  dirs : list string;
  regular : list (string * string);
  refused : list (string * string)
}.

(** What a build acts on. *)
Record BuildState : Type := mkBuildState {
  console : list string;
  disk : FS;
  isBuilding : bool
}.

#[export] Instance Console_build : Console BuildState :=
  fun line s => mkBuildState (console s ++ [line])%list (disk s) (isBuilding s).

Definition existsSync (p : string) (fs : FS) : bool :=
  Graph.mem p (dirs fs)
  || match lookup (regular fs) p with Some _ => true | None => false end.

(** [fs.mkdirSync(p)]: the cause when it throws, the new file system
    otherwise. *)
Definition mkdirSync (p : string) (fs : FS) : string + FS :=
  match lookup (refused fs) p with
  | Some cause => inl cause
  | None => inr (mkFS (dirs fs ++ [p])%list (regular fs) (refused fs))
  end.

(** [fs.writeFileSync(p, text, 'utf-8')]: throws unless the parent of [p]
    is a directory. *)
Definition writeFileSync (p text : string) : M BuildState unit :=
  fun s =>
    if Graph.mem (Path.dirname p) (dirs (disk s))
    then (inr tt,
          mkBuildState (console s)
            (mkFS (dirs (disk s)) ((p, text) :: regular (disk s))
                  (refused (disk s)))
            (isBuilding s))
    else (inl IOError, s).

(** [fs.readFileSync(p, 'utf-8')]. *)
Definition readFileSync (p : string) : M BuildState string :=
  fun s =>
    match lookup (regular (disk s)) p with
    | Some text => (inr text, s)
    | None => (inl IOError, s)
    end.

Definition setBuilding (b : bool) : M BuildState unit :=
  fun s => (inr tt, mkBuildState (console s) (disk s) b).

(** The guarded creation of a directory that [buildApp] and [build] repeat:
    [true] when the directory is there afterwards, [false] when its creation
    failed and the three lines were logged. *)
Definition ensureDirectory (what p : string) : M BuildState bool :=
  fun s =>
    if existsSync p (disk s) then (inr true, s)
    else match mkdirSync p (disk s) with
         | inl cause =>
             (console_log ("failed to create " ++ what ++ " directory at " ++ p) ;;;
              console_log cause ;;;
              console_log "aborting build" ;;;
              ret false) s
         | inr fs' =>
             if existsSync p fs'
             then (inr true, mkBuildState (console s) fs' (isBuilding s))
             else (inl AssertionError,
                   mkBuildState (console s) fs' (isBuilding s))
         end.

(** A [BT.Project]: its tree, the directory of the project file and the
    directory of the build tools. *)
Record Project : Type := mkProject {
  tree : Node;
  projectPath : string;
  toolsPath : string
}.

(** [BT.Project.buildApp]. *)
Definition buildApp (project : Project) (name : string) : M BuildState unit :=
  let buildPath := Path.join (toolsPath project) "../build" in
  match findApp name (tree project) with
  | None => console_log ("Build error: " ++ name ++ " could not be found.")
  | Some app =>
      ok <- ensureDirectory "build" buildPath ;;
      if negb ok then ret tt else
      let appPath := Path.join buildPath (nodeKey app) in
      ok <- ensureDirectory "app" appPath ;;
      if negb ok then ret tt else
      writeFileSync (Path.join appPath "index.html")
                    (productionIndexHTML (nodeProps app)) ;;;
      javascript <-
        forEach (javascriptSourceFiles (nodeProps app))
          (fun javascript p =>
             present <- (fun s => (inr (existsSync p (disk s)), s)) ;;
             if present : bool
             then text <- readFileSync p ;; ret (javascript ++ [text])%list
             else ret javascript)
          [] ;;
      writeFileSync (Path.join appPath "application.js")
                    (JS.join (";" ++ nl) javascript)
  end.

(** [BT.Project.indexHTML]. *)
Definition indexHTML (project : Project) (building : bool) : string :=
  "<html>" ++ nl
  ++ "  <head>" ++ nl
  ++ "    <title>Blossom Project</title>" ++ nl
  ++ "    <style>" ++ nl
  ++ "      .sc-pane { position: absolute; margin: 0; }" ++ nl
  ++ "    </style>" ++ nl
  ++ "  </head>" ++ nl
  ++ "  <body style=" ++ dq
  ++ "background: #fdf6e3; margin: 40; overflow: hidden;" ++ dq ++ ">" ++ nl
  ++ "    <h2>Welcome to Blossom.</h2>" ++ nl
  ++ "    <p>Here's a list of apps in this project:" ++ nl
  ++ "      <ul>" ++ nl
  ++ String.concat EmptyString
       (map (fun app =>
               "        <li><a href=" ++ dq ++ nodeKey app
               ++ (if building then "/index.html" else EmptyString)
               ++ dq ++ ">" ++ nodeKey app ++ "</a></li>" ++ nl)
            (apps (tree project)))
  ++ "      </ul>" ++ nl
  ++ "     </p>" ++ nl
  ++ "  </body>" ++ nl
  ++ "</html>".

(** [BT.Project.build]. *)
Definition build (project : Project) : M BuildState unit :=
  setBuilding true ;;;
  forEach (apps (tree project))
    (fun _ app =>
       console_log (nodeKey app ++ " ...") ;;;
       buildApp project (nodeKey app))
    tt ;;;
  let buildPath := Path.join (projectPath project) "build" in
  console_log ("Building apps in  " ++ buildPath) ;;;
  ok <- ensureDirectory "build" buildPath ;;
  if negb ok then ret tt else
  console_log "Writing index.html ..." ;;;
  writeFileSync (Path.join buildPath "index.html") (indexHTML project true) ;;;
  setBuilding false ;;;
  console_log "Done.".

(** ** The declaration syntax, as the specification words it *)

Fixpoint no_line_terminator (p : string) : bool :=
  match p with
  | EmptyString => true
  | String c t => negb (JS.is_line_terminator c) && no_line_terminator t
  end.

(** A statement holds a call of [sc_require] on the single quoted argument
    [p]: the name, a parenthesis, a quote, [p] on one line, the same quote,
    a parenthesis. *)
Inductive Captures (statement p : string) : Prop :=
| Captures_intro (pre post : string) (q : ascii) :
    JS.is_quote q = true ->
    no_line_terminator p = true ->
    statement
      = pre ++ "sc_require(" ++ String q (p ++ String q (")" ++ post)) ->
    Captures statement p.

Definition Matches (statement : string) : Prop :=
  exists p, Captures statement p.

(** The identifiers of a sequence of statements: none for a statement that
    does not match, one for a statement that matches, the captured argument
    joined to the path [root] of the package, in the order of the
    statements. *)
Inductive Extracted (root : string) : list string -> list string -> Prop :=
| Extracted_nil : Extracted root [] []
| Extracted_skip statement rest ids :
    ~ Matches statement ->
    Extracted root rest ids ->
    Extracted root (statement :: rest) ids
| Extracted_take statement p rest ids :
    Captures statement p ->
    Extracted root rest ids ->
    Extracted root (statement :: rest) (Path.join root p :: ids).

Definition no_slash (x : string) : Prop :=
  forall c, In c (list_ascii_of_string x) -> c <> Path.slash.

(** A segment of a path that [path.join] leaves as it is. *)
Definition plain_segment (x : string) : Prop :=
  x <> EmptyString /\ x <> "." /\ x <> ".." /\ no_slash x.

(** A relative path of plain segments. *)
Definition plain (p : string) : Prop :=
  exists segments, segments <> [] /\ Forall plain_segment segments /\
                   p = JS.join "/" segments.

(** ** Promotion, as the specification words it *)

(** The dependency names a package declares. *)
Definition declared (p : Package) : list string :=
  match dependencies (info p) with
  | Some l => l
  | None => []
  end.

(** The package at position [i] declares a dependency that [findPackage]
    resolves to the package at position [j]. *)
Definition dependsOn (store : Store) (i j : nat) : Prop :=
  exists q d, nth_error store i = Some q /\ In d (declared q) /\
              findPackage store d = Some j.

(** [j] is reached from [i] by a chain of one or more declared
    dependencies. *)
Inductive dependsOnTransitively (store : Store) : nat -> nat -> Prop :=
| dependsOn_direct i j : dependsOn store i j -> dependsOnTransitively store i j
| dependsOn_chain i j k :
    dependsOn store i j -> dependsOnTransitively store j k ->
    dependsOnTransitively store i k.

(** The package at a position has type core when the loop of
    [orderedPackages] comes to it: it is declared core, or a package that
    comes before it in the iteration and has type core at its turn
    declares it as a dependency. *)
Inductive coreAtItsTurn (store : Store) : nat -> Prop :=
| core_declared i : typeAt store i = "core" -> coreAtItsTurn store i
| core_promoted i j :
    coreAtItsTurn store i -> i < j -> dependsOn store i j ->
    coreAtItsTurn store j.

(** Two packages that differ at most by a promotion to core. *)
Definition same_but_type (p p' : Package) : Prop :=
  p' = p \/ p' = setType "core" p.

(** Two stores that differ at most by promotions to core. *)
Definition promoted (store store' : Store) : Prop :=
  Forall2 same_but_type store store'.

(** What holds when the loop has handled the positions below [k]. *)
Definition handled (store0 : Store) (k : nat)
           (st : Store * Graph.t * list (string * nat)) : Prop :=
  promoted store0 (fst (fst st)) /\
  forall i j, i < k -> coreAtItsTurn store0 i -> dependsOn store0 i j ->
              typeAt (fst (fst st)) j = "core".

(** ** The order of frameworks, as the specification words it *)

(** [Expanded root names result]: the names are taken in order; a name that
    [findFramework] does not resolve below [root] gives nothing; a name it
    resolves gives the expansion of the frameworks that framework declares,
    searched below it, then the framework itself. *)
Inductive Expanded : Node -> list string -> list Node -> Prop :=
| Expanded_nil root : Expanded root [] []
| Expanded_unresolved root name names rest :
    findFramework name root = None ->
    Expanded root names rest ->
    Expanded root (name :: names) rest
| Expanded_resolved root name names framework deps rest :
    findFramework name root = Some framework ->
    Expanded framework (frameworks (nodeProps framework)) deps ->
    Expanded root names rest ->
    Expanded root (name :: names) (deps ++ [framework] ++ rest)%list.

(** The greatest height among nodes. *)
Fixpoint max_height (cs : list Node) : nat :=
  match cs with
  | [] => 0
  | c :: r => Nat.max (height c) (max_height r)
  end.

(** ** Two runs with different identifiers *)

(** The renaming that sends each identifier drawn in one run to the
    identifier drawn at the same place in another run. *)
Definition rename (us1 us2 : list string) (x : string) : string :=
  match lookup (combine us1 us2) x with
  | Some y => y
  | None => x
  end.

(** A package under another identifier. *)
Definition rekey (f : string -> string) (p : Package) : Package :=
  mkPackage (f (uuid p)) (info p).

(** A graph with its vertices renamed. *)
Definition relabel (f : string -> string) (g : Graph.t) : Graph.t :=
  Graph.mk (map f (Graph.vertices g))
           (map (fun e => (f (fst e), f (snd e))) (Graph.edges g)).

(** The identifiers drawn are not the name [undefined] and are not used as
    dependency names by the package descriptors. *)
Definition fresh (dirs : list PackageInfo) (us : list string) : Prop :=
  forall u, In u us ->
    u <> "undefined" /\
    forall d name, In d dirs ->
      In name (match dependencies d with Some l => l | None => [] end) ->
      name <> u.

(** The result of a computation under a change of the value returned. *)
Definition map_result {S T T'} (phi : T -> T') (r : (exn + T) * S)
  : (exn + T') * S :=
  match r with
  | (inl e, s) => (inl e, s)
  | (inr t, s) => (inr (phi t), s)
  end.

(** [f] is injective on the strings that satisfy [P]. *)
Definition inj_on (f : string -> string) (P : string -> Prop) : Prop :=
  forall x y, P x -> P y -> f x = f y -> x = y.

(** A well-formed graph whose vertices satisfy [P]. *)
Definition within (P : string -> Prop) (g : Graph.t) : Prop :=
  Graph.wf g /\ Forall P (Graph.vertices g).

(** The state of the loops of [orderedPackages] under a renaming. *)
Definition rekey_store (f : string -> string) (st : Store * Graph.t)
  : Store * Graph.t :=
  ((map (rekey f) (fst st) : Store), relabel f (snd st)).

Definition rekey_state (f : string -> string)
           (st : Store * Graph.t * list (string * nat))
  : Store * Graph.t * list (string * nat) :=
  ((map (rekey f) (fst (fst st)) : Store), relabel f (snd (fst st)),
   map (fun ki => (f (fst ki), snd ki)) (snd st)).

(** The packages of a store carry identifiers of [us1], and their
    dependency names are identifiers of neither run. *)
Definition keyed (us1 us2 : list string) (store : Store) : Prop :=
  Forall (fun p => In (uuid p) us1 /\
                   forall d, In d (declared p) ->
                             ~ In d us1 /\ ~ In d us2) store.

(** The names that the renaming between two runs keeps apart: the
    identifiers of the first run and what is no identifier of the second. *)
Definition apart (us1 us2 : list string) : string -> Prop :=
  fun x => In x us1 \/ ~ In x us2.

(** The state of the inner loop of [orderedPackages]: a keyed store and a
    graph on names kept apart. *)
Definition inner_ok (us1 us2 : list string) (st : Store * Graph.t) : Prop :=
  keyed us1 us2 (fst st) /\ within (apart us1 us2) (snd st).

(** The state of the outer loop. *)
Definition outer_ok (us1 us2 : list string)
           (st : Store * Graph.t * list (string * nat)) : Prop :=
  keyed us1 us2 (fst (fst st)) /\ within (apart us1 us2) (snd (fst st)) /\
  Forall (fun ki => apart us1 us2 (fst ki)) (snd st).

(** Two results that agree on the console and on whether an exception, and
    which, was thrown. *)
Definition same_outcome {T T'} (r1 : (exn + T) * list string)
           (r2 : (exn + T') * list string) : Prop :=
  snd r1 = snd r2 /\
  match fst r1, fst r2 with
  | inl e1, inl e2 => e1 = e2
  | inr _, inr _ => True
  | _, _ => False
  end.

(** ** Nodes below a node *)

(** [below root x]: [x] is a node under [root], at any depth. *)
Inductive below (root : Node) : Node -> Prop :=
| below_child c : In c (children root) -> below root c
| below_deeper c x : In c (children root) -> below c x -> below root x.

(** ** Where a build writes *)

(** The directories a build of the project may create: the output
    directory beside the build tools, the one in the project, and one per
    app in the former. *)
Definition outputDirectory (project : Project) (d : string) : Prop :=
  d = Path.join (toolsPath project) "../build" \/
  d = Path.join (projectPath project) "build" \/
  exists app, In app (apps (tree project)) /\
    d = Path.join (Path.join (toolsPath project) "../build") (nodeKey app).

(** The files a build of the project may write: the index page of the
    project, and the index page and the script of each app. *)
Definition outputFile (project : Project) (p : string) : Prop :=
  p = Path.join (Path.join (projectPath project) "build") "index.html" \/
  exists app, In app (apps (tree project)) /\
    (p = Path.join (Path.join (Path.join (toolsPath project) "../build")
                              (nodeKey app)) "index.html" \/
     p = Path.join (Path.join (Path.join (toolsPath project) "../build")
                              (nodeKey app)) "application.js").

(** [grows project s s']: from [s] to [s'] no path has disappeared, the
    console has only got more lines, and what is new on the disk is at the
    output paths of the project. *)
Definition grows (project : Project) (s s' : BuildState) : Prop :=
  (forall p, existsSync p (disk s) = true -> existsSync p (disk s') = true) /\
  (exists l, console s' = (console s ++ l)%list) /\
  (forall p text, In (p, text) (regular (disk s')) ->
                  In (p, text) (regular (disk s)) \/ outputFile project p) /\
  (forall d, In d (dirs (disk s')) ->
             In d (dirs (disk s)) \/ outputDirectory project d).

(** ** Scripts that only require *)

(** The statement that requires [id], with its semicolon. *)
Definition require_line (id : string) : string :=
  "sc_require('" ++ id ++ "');".

(** A script of one such statement a line. *)
Definition require_lines (ids : list string) : string :=
  JS.join nl (map require_line ids).

(** A text with no semicolon and no line terminator. *)
Definition free_of_separators (id : string) : Prop :=
  forall c, In c (list_ascii_of_string id) ->
            c <> ";"%char /\ JS.is_line_terminator c = false.

(** ** The sort of the graph class, as a parameter *)

(** The graph without the edges from a vertex to itself. *)
Definition proper (g : Graph.t) : Graph.t :=
  Graph.mk (Graph.vertices g)
           (filter (fun e => negb (String.eqb (fst e) (snd e)))
                   (Graph.edges g)).

(** Modelled from the spec: what the callers need of an order that
    [topologicalSort] of the graph class returns (the class is not part of
    the tree).  The order holds every vertex once and puts the source of
    every edge before its target.  An edge from a vertex to itself, which
    [orderFiles] adds for a file at the core path so that the file is
    prioritized, constrains nothing. *)
Definition sort_sound (sort : Graph.t -> exn + list string) : Prop :=
  forall g l, Graph.wf g -> sort g = inr l ->
    (forall v, In v l <-> In v (Graph.vertices g)) /\
    NoDup l /\
    (forall u v, In (u, v) (Graph.edges g) -> u <> v -> Graph.before l u v).

(** Modelled from the spec: the sort fails on cycles only.  It returns an
    order whenever no walk over edges between different vertices comes back
    to its start. *)
Definition sort_complete (sort : Graph.t -> exn + list string) : Prop :=
  forall g, Graph.wf g -> ~ Graph.cyclic (proper g) -> exists l, sort g = inr l.

(** A sort that is both: the sort modelled from the spec, on the graph
    without its loops. *)
Definition sortProper (g : Graph.t) : exn + list string :=
  Graph.topologicalSort (proper g).

(** ** Plain objects used as maps *)

(** The members that every plain object inherits from [Object.prototype]
    (V8): [map[key]] finds them under these names when the object has no
    binding of its own. *)
Definition Object_prototype : list string :=
  ["constructor"; "toString"; "toLocaleString"; "valueOf"; "hasOwnProperty";
   "isPrototypeOf"; "propertyIsEnumerable"; "__defineGetter__";
   "__defineSetter__"; "__lookupGetter__"; "__lookupSetter__"; "__proto__"].

(** [key] is the name of an inherited member. *)
Definition inherited (key : string) : bool :=
  existsb (String.eqb key) Object_prototype.

(** [map[key]] for a map created as [{}]: the binding of the object itself,
    or else the inherited member, given here by its name; [None] is
    [undefined].  All of these values are objects or functions, which a
    condition takes as true. *)
Definition Object_get {A} (map : list (string * A)) (key : string)
  : option (A + string) :=
  match lookup map key with
  | Some a => Some (inl a)
  | None => if inherited key then Some (inr key) else None
  end.

(** The values that the second loop of an ordering pushes when it goes
    through the vertices [sorted]: what [map[vertex]] gives, where it gives
    something. *)
Definition pushed (map : list (string * File)) (sorted : list string)
  : list (File + string) :=
  flat_map (fun vertex => match Object_get map vertex with
                          | Some dep => [dep]
                          | None => []
                          end) sorted.

(** The vertices for which [map[vertex]] is [undefined]. *)
Definition missing (map : list (string * File)) (sorted : list string)
  : list string :=
  filter (fun vertex => match Object_get map vertex with
                        | Some _ => false
                        | None => true
                        end) sorted.

(** The files among the values that an ordering returns. *)
Definition files_of (l : list (File + string)) : list File :=
  flat_map (fun x => match x with inl f => [f] | inr _ => [] end) l.

(** ** Ordering the files of a package, over any sort *)

(** The second loop of [BT.Package.orderFiles], with [map] the plain
    object it is: a vertex that names an inherited member and no file is
    pushed too, without a diagnostic. *)
Definition Package_collectFile (sourceTree corePath : string)
           (map : list (string * File)) (acc : list (File + string))
           (vertex : string) : M (list string) (list (File + string)) :=
  match Object_get map vertex with
  | Some dep => ret (acc ++ [dep])%list
  | None =>
      if String.eqb vertex corePath then ret acc
      else console_log (file_diagnostic sourceTree vertex) ;;; ret acc
  end.

(** [BT.Package.orderFiles] over the sort [sort] of the graph class.  The
    list it returns holds the files, and the inherited members that the
    second loop pushes.  (The assignment [map[dependencyPath] = file] of a
    file whose dependency path is [__proto__] replaces the prototype of the
    map instead of binding the path: the model is of files with other
    paths.) *)
Definition Package_orderFiles (sort : Graph.t -> exn + list string)
           (sourceTree parentSourceTree : string) (files : list File)
  : M (list string) (list (File + string)) :=
  let requirePath := requirePath sourceTree parentSourceTree in
  let corePath := Path.join requirePath "core" in
  st <- forEach files (fun st file => lift (addFile corePath st file))
                (Graph.empty, []) ;;
  sortedVertices <- lift (sort (fst st)) ;;
  forEach sortedVertices (Package_collectFile sourceTree corePath (snd st)) [].

(** [BT.Package.orderedJavaScriptFiles] over the sort [sort]. *)
Definition Package_orderedJavaScriptFiles
           (sort : Graph.t -> exn + list string) (p : Package)
  : M (list string) (list (File + string)) :=
  Package_orderFiles sort (pkgSourceTree (info p))
                     (pkgParentSourceTree (info p)) (files (info p)).

(** ** The packager with its other properties *)

(** What [this.get(key)] and the search by basename give [findPackage]: a
    package, a value that is no package, or nothing. *)
Inductive found : Type :=
| IsPackage (j : nat)
| IsOther
| IsNothing.

(** The names under which every packager holds something else than a
    package: the properties that [BT.Packager] and [BT.BuildNode] declare
    with a value that a condition takes as true, the source tree that
    [init] scans for packages, the methods [get] and [set] that the code
    calls on it, and the members that every object inherits. *)
Definition Packager_properties : list string :=
  (["isPackager"; "accept"; "manifest"; "orderedPackageFiles";
    "orderedPackages"; "packages"; "findPackage"; "init"; "uuid";
    "canVisit"; "isBuildNode"; "sourceTree"; "get"; "set"]
   ++ Object_prototype)%list.

(** [BT.Packager.findPackage].  [this.get(key)] comes first, and the
    search by basename is made only when it gives nothing.  Besides its
    packages, which it holds under their identifiers, the packager has
    properties of its own: [Packager_properties], and those that it has
    from [BT.Object], whose source is not part of the tree, and from its
    creation; [reserved] lists the names of these under which [this.get]
    gives something else than nothing, or does not return.  A package that
    [init] stores under such a name replaces the property. *)
Definition Packager_findPackage (reserved : list string) (store : Store)
           (key : string) : found :=
  match find_index (fun p => String.eqb (uuid p) key) store with
  | Some j => IsPackage j
  | None =>
      if existsb (String.eqb key) (Packager_properties ++ reserved)%list
      then IsOther
      else match find_index (fun p => String.eqb (basename (info p)) key)
                            store with
           | Some j => IsPackage j
           | None => IsNothing
           end
  end.

(** No package declares a dependency under the name of a property of the
    packager. *)
Definition plain_dependencies (reserved : list string) (store : Store)
  : Prop :=
  forall q d, In q store -> In d (declared q) ->
              Packager_findPackage reserved store d <> IsOther.

(** The packages are shared objects that the loop of [orderedPackages]
    changes: they are part of the state, with the console, and keep the
    changes made when the loop throws. *)
#[export] Instance Console_packager : Console (Store * list string) :=
  fun line s => (fst s, (snd s ++ [line])%list).

Definition the_store : M (Store * list string) Store :=
  fun s => (inr (fst s), s).

(** [package.set('type', 'core')] on the package at position [j]. *)
Definition promote (j : nat) : M (Store * list string) unit :=
  fun s => (inr tt, (update j (setType "core") (fst s), snd s)).

(** The body of the inner loop of [BT.Packager.orderedPackages].  With a
    value that is no package the code goes on to call [uuid.get]: for a
    value without that method (a string such as the source tree, [true], a
    function) this is the type error written here.  What the code does
    with the values of the other properties (the list of packages, a
    property that is being computed) is not modelled: the properties below
    are about packagers with [plain_dependencies]. *)
Definition Packager_resolveDependency (reserved : list string) (i : nat)
           (name parent : string) (g : Graph.t) (dependency : string)
  : M (Store * list string) Graph.t :=
  store <- the_store ;;
  match Packager_findPackage reserved store dependency with
  | IsPackage j =>
      (if String.eqb (typeAt store i) "core"
          && negb (String.eqb (typeAt store j) "core")
       then console_log (promotion_diagnostic (basenameAt store j)) ;;;
            promote j
       else ret tt) ;;;
      store' <- the_store ;;
      ret (Graph.addEdge (uuidAt store' j) name g)
  | IsOther => throw TypeError
  | IsNothing =>
      console_log (missing_diagnostic dependency (basenameAt store i) parent) ;;;
      ret (Graph.addEdge "undefined" name g)
  end.

(** The body of the outer loop of [BT.Packager.orderedPackages]. *)
Definition Packager_resolvePackage (reserved : list string)
           (st : Graph.t * list (string * nat)) (i : nat)
  : M (Store * list string) (Graph.t * list (string * nat)) :=
  store <- the_store ;;
  match nth_error store i with
  | None => ret st
  | Some package =>
      let deps := match dependencies (info package) with
                  | Some l => l
                  | None => []
                  end in
      let name := nodeName package in
      g <- forEach deps
             (Packager_resolveDependency reserved i name
                (Path.basename (pkgParentSourceTree (info package))))
             (Graph.addVertex name (fst st)) ;;
      ret (g, (name, i) :: snd st)
  end.

(** The first loop of [BT.Packager.orderedPackages]. *)
Definition Packager_resolve (reserved : list string)
  : M (Store * list string) (Graph.t * list (string * nat)) :=
  store <- the_store ;;
  forEach (seq 0 (length store)) (Packager_resolvePackage reserved)
          (Graph.empty, []).

(** [BT.Packager.orderedPackages] over the sort [sort] of the graph
    class. *)
Definition Packager_orderedPackages (sort : Graph.t -> exn + list string)
           (reserved : list string) : M (Store * list string) (list Package) :=
  st <- Packager_resolve reserved ;;
  sorted <- lift (sort (fst st)) ;;
  store <- the_store ;;
  ret (collectPackages store (snd st) sorted).

(** ** The scripts of a target *)

(** [s.match(/p/)] for a pattern of plain characters: [p] occurs in [s]. *)
Fixpoint includes (p s : string) {struct s} : bool :=
  JS.starts_with p s
  || match s with
     | EmptyString => false
     | String _ t => includes p t
     end.

(** [BT.File.relativePath]: the path below the source tree of the target. *)
Definition File_relativePath (f : File) : string :=
  JS.slice_from (String.length (Path.normalize (sourceTree f)) + 1)
                (sourcePath f).

(** The filter of [BT.Target.orderedJavaScriptFiles]. *)
Definition Target_accepts (file : File) : bool :=
  let relativePath := File_relativePath file in
  if String.eqb (JS.slice_to 4 relativePath) "test" then false
  else if String.eqb (JS.slice_to 4 relativePath) "node" then false
  else if includes "test_suite" relativePath then false
  else isJavaScript file || isCoffeeScript file.

(** The key a file gets in [BT.Target.orderedJavaScriptFiles]. *)
Definition Target_dependencyPath (f : File) : string :=
  if isJavaScript f then JS.drop_last 3 (File_relativePath f)
  else if isCoffeeScript f then JS.drop_last 7 (File_relativePath f)
  else "undefined".

(** The first loop of [BT.Target.orderedJavaScriptFiles]: the identifiers
    are taken as they are written, and the entry vertex is [core]. *)
Definition Target_addFile (st : Graph.t * list (string * File))
           (file : File) : exn + Graph.t * list (string * File) :=
  let '(g, map) := st in
  match File_scRequireDependencies file with
  | inl e => inl e
  | inr deps =>
      let dependencyPath := Target_dependencyPath file in
      let g := Graph.addVertex dependencyPath g in
      let g := fold_left (fun g name => Graph.addEdge name dependencyPath g)
                         deps g in
      inr (Graph.addEdge "core" dependencyPath g,
           (dependencyPath, file) :: map)
  end.

Definition framework_diagnostic (nodeName vertex : string) : string :=
  "could not find " ++ nodeName ++ " framework dependency: " ++ vertex.

(** The second loop of [BT.Target.orderedJavaScriptFiles], with [map] the
    plain object it is. *)
Definition Target_collectFile (nodeName : string)
           (map : list (string * File)) (acc : list (File + string))
           (vertex : string) : M (list string) (list (File + string)) :=
  match Object_get map vertex with
  | Some dep => ret (acc ++ [dep])%list
  | None => console_log (framework_diagnostic nodeName vertex) ;;; ret acc
  end.

(** [BT.Target.orderedCorePackageFiles] of a target whose packager, when it
    has one, holds [packages] in dependency order. *)
Definition Target_orderedCorePackageFiles
           (sort : Graph.t -> exn + list string)
           (packager : option (list Package))
  : M (list string) (list (File + string)) :=
  match packager with
  | None => ret []
  | Some packages =>
      forEach packages
        (fun packageFiles p =>
           if negb (String.eqb (type (info p)) "core") then ret packageFiles
           else fs <- Package_orderedJavaScriptFiles sort p ;;
                ret (packageFiles ++ fs)%list)
        []
  end.

(** [BT.Target.orderedJavaScriptFiles] of the target named [nodeName] whose
    [files] are [files], over the sort [sort] of the graph class.  (As for
    [Package_orderFiles], the model is of files whose dependency path is
    not [__proto__].) *)
Definition Target_orderedJavaScriptFiles
           (sort : Graph.t -> exn + list string) (nodeName : string)
           (files : list File) (packager : option (list Package))
  : M (list string) (list (File + string)) :=
  let ary := filter Target_accepts files in
  st <- forEach ary (fun st file => lift (Target_addFile st file))
                (Graph.empty, []) ;;
  sortedVertices <- lift (sort (fst st)) ;;
  own <- forEach sortedVertices (Target_collectFile nodeName (snd st)) [] ;;
  packageFiles <- Target_orderedCorePackageFiles sort packager ;;
  ret (own ++ packageFiles)%list.

(** ** Visitors that collect nodes *)

(** What a collecting visitor does with a node of a kind.

    Modelled from the spec: [BT.K], which the visitors give for the kinds
    they suppress, is defined in the bootstrap, which is not part of the
    tree; it is the handler that does nothing ([Skip]).  The other handlers
    are in the source: the default [traverse] ([Descend]), a handler that
    calls the default only for the node the traversal started from
    ([DescendIfSelf]), one that pushes the node ([Take]), and one that
    pushes it and calls the default ([TakeAndDescend]). *)
Inductive action : Type :=
| Skip | Descend | DescendIfSelf | Take | TakeAndDescend.

(** [node.accept(visitor)] for a collecting visitor: the nodes pushed, in
    order.  [self] tells whether [n] is the node the traversal started
    from; in a tree no node below it is that node. *)
Fixpoint walk (visitor : kind -> action) (self : bool) (n : Node)
  : list Node :=
  match n with
  | Nd _ k _ cs =>
      let below :=
        (fix traverse (cs : list Node) : list Node :=
           match cs with
           | [] => []
           | c :: r => (walk visitor false c ++ traverse r)%list
           end) cs in
      match visitor k with
      | Skip => []
      | Descend => below
      | DescendIfSelf => if self then below else []
      | Take => [n]
      | TakeAndDescend => n :: below
      end
  end.

(** The visitor of [BT.Target.files]. *)
Definition Target_files_visitor (k : kind) : action :=
  match k with
  | KFramework => DescendIfSelf
  | KApp => Skip
  | KTarget => Skip
  | KFile => TakeAndDescend
  | KPackager => Skip
  | KPackage => Skip
  | _ => Descend
  end.

(** [BT.Target.files], which [BT.Framework] and [BT.Localization]
    inherit. *)
Definition Target_files (target : Node) : list Node :=
  walk Target_files_visitor true target.

(** The visitor of [BT.App.files]. *)
Definition App_files_visitor (k : kind) : action :=
  match k with
  | KFramework => Skip
  | KPackager => Skip
  | KPackage => Skip
  | KApp => DescendIfSelf
  | KTarget => Skip
  | KFile => TakeAndDescend
  | _ => Descend
  end.

(** [BT.App.files]. *)
Definition App_files (app : Node) : list Node :=
  walk App_files_visitor true app.

(** The visitor of [BT.Package.files]. *)
Definition Package_files_visitor (k : kind) : action :=
  match k with
  | KPackager => Skip
  | KPackage => DescendIfSelf
  | KFramework => Skip
  | KApp => Skip
  | KTarget => Skip
  | KFile => Take
  | _ => Descend
  end.

(** [BT.Package.files], as nodes. *)
Definition Package_files (package : Node) : list Node :=
  walk Package_files_visitor true package.

(** The visitor of [BT.Packager.packages]. *)
Definition Packager_packages_visitor (k : kind) : action :=
  match k with
  | KPackage => Take
  | _ => Descend
  end.

(** [BT.Packager.packages], as nodes. *)
Definition Packager_packages (packager : Node) : list Node :=
  walk Packager_packages_visitor true packager.

(** Whether a visitor pushes the nodes of a kind, and whether it goes
    below them. *)
Definition takes (visitor : kind -> action) (k : kind) : bool :=
  match visitor k with
  | Take | TakeAndDescend => true
  | _ => false
  end.

Definition descends (visitor : kind -> action) (self : bool) (k : kind)
  : bool :=
  match visitor k with
  | Descend | TakeAndDescend => true
  | DescendIfSelf => self
  | _ => false
  end.

(** [inside opaque root x]: [x] lies below [root], and no node between
    them is of an opaque kind. *)
Inductive inside (opaque : kind -> bool) (root : Node) : Node -> Prop :=
| inside_child c : In c (children root) -> inside opaque root c
| inside_deeper c x :
    In c (children root) -> opaque (nodeKind c) = false ->
    inside opaque c x -> inside opaque root x.

(** The kinds whose nodes keep their files to themselves: embedded
    targets, packagers and packages. *)
Definition embedded (k : kind) : bool :=
  match k with
  | KFramework | KApp | KTarget | KPackager | KPackage => true
  | _ => false
  end.

(** ** Example inputs *)

Module Examples.

Definition parentTree : string := "/p/fw".
Definition packageTree : string := "/p/fw/packages/foo".

(** A file of the package [foo] of the framework at [/p/fw]. *)
Definition file (name text : string) : File :=
  mkFile (packageTree ++ "/" ++ name) packageTree parentTree text.

Definition core_js : File := file "core.js" "// no requirements".
Definition a_js : File := file "a.js" "sc_require('core');".
Definition b_js : File := file "b.js" "sc_require('a');".

(** A file that requires a path above its package. *)
Definition up_js : File := file "up.js" "sc_require('../x');".

(** A file that requires a path no file has. *)
Definition x_js : File := file "x.js" "sc_require('zz');".

(** The graph and the map that [orderFiles] builds for [x.js] alone. *)
Definition x_graph : Graph.t :=
  Graph.mk ["packages/foo/x"; "packages/foo/zz"; "packages/foo/core"]
           [("packages/foo/zz", "packages/foo/x");
            ("packages/foo/core", "packages/foo/x")].
Definition x_map : list (string * File) := [("packages/foo/x", x_js)].

(** A script and a CoffeeScript file of the same name, the first requiring
    a path no file has. *)
Definition foo_js : File := file "foo.js" "sc_require('zz');".
Definition foo_coffee : File := file "foo.coffee" "foo();".

(** Two files that require each other, one of them also requiring a path
    no file has. *)
Definition m_js : File := file "m.js" "sc_require('missing'); sc_require('n');".
Definition n_js : File := file "n.js" "sc_require('m');".

Definition target (fws : list string) : Props := mkProps fws EmptyString [].

(** A project with two sibling frameworks that declare each other, and an
    app that declares the first. *)
Definition mutual_project : Node :=
  Nd EmptyString KProject (target [])
     [Nd "frameworks" KDirectory (target [])
         [Nd "A" KFramework (target ["B"]) [];
          Nd "B" KFramework (target ["A"]) []];
      Nd "app" KApp (target ["A"]) []].

(** A project whose framework [outer] embeds the frameworks [inner] and
    [other] and declares [inner], [missing] and [other]. *)
Definition inner_fw : Node := Nd "inner" KFramework (target []) [].
Definition other_fw : Node := Nd "other" KFramework (target []) [].
Definition outer_fw : Node :=
  Nd "outer" KFramework (target ["inner"; "missing"; "other"])
     [inner_fw; other_fw].
Definition nested_app : Node := Nd "app" KApp (target ["nowhere"; "outer"]) [].
Definition nested_project : Node :=
  Nd EmptyString KProject (target []) [outer_fw; nested_app].

(** A project of two apps, built by tools installed in [/bt/lib], on a
    file system that refuses to create the output directory of the first
    app. *)
Definition app_one : Node :=
  Nd "one" KApp (mkProps [] "<html>one</html>" ["/proj/one/core.js"]) [].
Definition app_two : Node :=
  Nd "two" KApp (mkProps [] "<html>two</html>"
                         ["/proj/two/core.js"; "/proj/two/main.js"]) [].
Definition two_apps : Project :=
  mkProject (Nd EmptyString KProject (target []) [app_one; app_two])
            "/proj" "/bt/lib".
Definition refusing_disk : FS :=
  mkFS ["/bt"; "/bt/lib"; "/proj"]
       [("/proj/one/core.js", "one()");
        ("/proj/two/core.js", "two()");
        ("/proj/two/main.js", "main()")]
       [("/bt/build/one", "Error: EACCES, permission denied '/bt/build/one'")].
Definition before_build : BuildState := mkBuildState [] refusing_disk false.

(** The graph of the edges from [A] to [B] and from [B] to [A]. *)
Definition two_cycle : Graph.t :=
  Graph.addEdge "B" "A" (Graph.addEdge "A" "B" Graph.empty).

(** A package directory of the framework at [/p/fw]. *)
Definition dir (name ty : string) (deps : option (list string)) : PackageInfo :=
  mkInfo ("/p/fw/packages/" ++ name) parentTree name ty deps (Some "fw") [].

(** Three packages in the order of the scan: [b] (lazy) requires [c], [a]
    (core) requires [b], [c] (lazy) requires nothing. *)
Definition chain_dirs : list PackageInfo :=
  [dir "b" "lazy" (Some ["c"]); dir "a" "core" (Some ["b"]);
   dir "c" "lazy" None].

Definition chain_store : Store :=
  Packager_init chain_dirs ["u1"; "u2"; "u3"] [].

(** The same chain iterated from the core package down: [a] (core)
    requires [b], [b] (lazy) requires [c], [c] (lazy) requires nothing. *)
Definition ordered_chain_store : Store :=
  Packager_init [dir "a" "core" (Some ["b"]); dir "b" "lazy" (Some ["c"]);
                 dir "c" "lazy" None]
                ["u1"; "u2"; "u3"] [].

(** Two packages: [q] (core) requires [p] (lazy). *)
Definition pair_store : Store :=
  Packager_init [dir "q" "core" (Some ["p"]); dir "p" "lazy" None]
                ["u1"; "u2"] [].

(** The files of the framework at [/p/fw]: two scripts, of which the
    first requires the second, a script among the tests and a file that is
    no script. *)
Definition main_js : File :=
  mkFile "/p/fw/main.js" "/p/fw" EmptyString "sc_require('util');".
Definition util_js : File :=
  mkFile "/p/fw/util.js" "/p/fw" EmptyString "// no requirements".
Definition test_js : File :=
  mkFile "/p/fw/tests/util.js" "/p/fw" EmptyString "sc_require('util');".
Definition readme : File :=
  mkFile "/p/fw/README" "/p/fw" EmptyString "Blossom".

(** A core package of two scripts and a lazy package of one. *)
Definition foo_package : Package :=
  mkPackage "u1" (mkInfo packageTree parentTree "foo" "core" None (Some "fw")
                         [b_js; a_js]).
Definition bar_package : Package :=
  mkPackage "u2" (mkInfo "/p/fw/packages/bar" parentTree "bar" "lazy" None
                         (Some "fw") [x_js]).

(** A framework with a script in a directory, an embedded framework with a
    script of its own, and a packager with one package of one script. *)
Definition lib_file : Node := Nd "main.js" KFile (target []) [].
Definition embedded_file : Node := Nd "inner.js" KFile (target []) [].
Definition package_file : Node := Nd "core.js" KFile (target []) [].
Definition package_node : Node :=
  Nd "u1" KPackage (target []) [package_file].
Definition packager_node : Node :=
  Nd "packages" KPackager (target []) [package_node].
Definition framework_tree : Node :=
  Nd "fw" KFramework (target [])
     [Nd "lib" KDirectory (target []) [lib_file];
      Nd "inner" KFramework (target []) [embedded_file];
      packager_node].

(** Names of further properties of a packager: some that it has from its
    creation and from [BT.Object]. *)
Definition other_properties : list string :=
  ["parentSourceTree"; "nodeName"; "parentNode"; "destroy"].

(** A file of the package [foo] that requires, two directories up, a path
    that no file has and that names a member that every object inherits. *)
Definition ctor_js : File :=
  file "ctor.js" "sc_require('../../constructor');".

End Examples.

(** * Properties *)

Example split_ex : JS.split ";" "a;b;" = ["a"; "b"; EmptyString].
Proof. reflexivity. Qed.
Example join_ex1 : Path.join "packages/foo" "core" = "packages/foo/core".
Proof. reflexivity. Qed.
Example join_ex2 : Path.join "packages/foo" "../x" = "packages/x".
Proof. reflexivity. Qed.
Example join_ex3 : Path.join EmptyString "core" = "core".
Proof. reflexivity. Qed.
Example join_ex4 : Path.join "a/b" "./c//d/" = "a/b/c/d/".
Proof. reflexivity. Qed.
Example join_ex5 : Path.join "a" "../../c" = "../c".
Proof. reflexivity. Qed.
Example ext_ex : map Path.extname ["a/b.js"; "x.coffee"; ".profile"; "a.b/c"; ".."; "a."; "x.tar.gz"]
   = [".js"; ".coffee"; EmptyString; EmptyString; EmptyString; "."; ".gz"].
Proof. reflexivity. Qed.

(** ** The dependency graph *)

Section GraphFacts.
Import Graph.

Lemma mem_In v l : mem v l = true <-> In v l.
Proof.
  unfold mem. rewrite existsb_exists. split.
  - intros [x [Hx He]]. apply String.eqb_eq in He. now subst.
  - intros H. exists v. split; [assumption | apply String.eqb_refl].
Qed.

Lemma mem_false v l : mem v l = false <-> ~ In v l.
Proof.
  rewrite <- mem_In. destruct (mem v l); split; congruence.
Qed.

Lemma In_remove v w l : In v (remove w l) <-> In v l /\ v <> w.
Proof.
  unfold remove. rewrite filter_In, negb_true_iff, String.eqb_neq. tauto.
Qed.

Lemma remove_length_lt w l : In w l -> length (remove w l) < length l.
Proof.
  unfold remove. induction l as [|a l IH]; simpl; [tauto|].
  pose proof (filter_length_le (fun x => negb (String.eqb x w)) l) as Hle.
  intros [->|H].
  - rewrite String.eqb_refl. simpl. apply Nat.lt_succ_r. exact Hle.
  - specialize (IH H). destruct (String.eqb a w); simpl.
    + apply Nat.lt_succ_r. exact Hle.
    + apply -> Nat.succ_lt_mono. exact IH.
Qed.

Lemma ready_spec es pending v :
  ready es pending v = true <->
  forall u, In (u, v) es -> ~ In u pending.
Proof.
  unfold ready. rewrite negb_true_iff. split.
  - intros H u Hin Hp.
    assert (existsb (fun e => String.eqb (snd e) v && mem (fst e) pending) es = true) as E.
    { apply existsb_exists. exists (u, v). split; [assumption|]. simpl.
      rewrite String.eqb_refl. simpl. now apply mem_In. }
    congruence.
  - intros H.
    destruct (existsb (fun e => String.eqb (snd e) v && mem (fst e) pending) es) eqn:E;
      [|reflexivity].
    apply existsb_exists in E. destruct E as [[u w] [Hin Hb]]. simpl in Hb.
    apply andb_true_iff in Hb. destruct Hb as [Hw Hm].
    apply String.eqb_eq in Hw. subst w. apply mem_In in Hm.
    exfalso. exact (H u Hin Hm).
Qed.

Lemma pos_head v l : pos (v :: l) v = 0.
Proof. simpl. now rewrite String.eqb_refl. Qed.

Lemma pos_tail w v l : w <> v -> pos (w :: l) v = S (pos l v).
Proof. intros H. simpl. apply String.eqb_neq in H. now rewrite H. Qed.

(** What a successful run of the loop returns. *)
Lemma sort_loop_sound fuel : forall es pending l,
  sort_loop fuel es pending = Some l ->
  (forall v, In v l <-> In v pending) /\
  NoDup l /\
  (forall u v, In (u, v) es -> In u pending -> In v pending ->
               pos l u < pos l v).
Proof.
  induction fuel as [|k IH]; intros es pending l H.
  - destruct pending; simpl in H; [|discriminate].
    injection H as <-. repeat split; simpl; try tauto. constructor.
  - destruct pending as [|p0 pending'].
    { simpl in H. injection H as <-. repeat split; simpl; try tauto. constructor. }
    remember (p0 :: pending') as pending eqn:Hp.
    assert (sort_loop (S k) es pending =
            match find (ready es pending) pending with
            | None => None
            | Some v => option_map (cons v) (sort_loop k es (remove v pending))
            end) as Eq by (subst pending; reflexivity).
    rewrite Eq in H. clear Eq Hp.
    destruct (find (ready es pending) pending) as [w|] eqn:F; [|discriminate].
    destruct (sort_loop k es (remove w pending)) as [l'|] eqn:R; [|discriminate].
    simpl in H. injection H as <-.
    apply find_some in F. destruct F as [Hw Hr].
    destruct (IH _ _ _ R) as (Hin & Hnd & Hord).
    rewrite ready_spec in Hr.
    split; [|split].
    + intros v. simpl. rewrite Hin, In_remove.
      destruct (String.eqb_spec v w) as [->|Hne]; [tauto|].
      split; [intros [->|[? ?]]; [congruence|assumption] | intros ?; right; tauto].
    + constructor; [|assumption]. rewrite Hin, In_remove. tauto.
    + intros u v He Hu Hv.
      destruct (String.eqb_spec v w) as [->|Hvw].
      { exfalso. exact (Hr u He Hu). }
      rewrite (pos_tail w v) by congruence.
      destruct (String.eqb_spec u w) as [->|Huw].
      * rewrite pos_head. lia.
      * rewrite (pos_tail w u) by congruence.
        apply -> Nat.succ_lt_mono. apply Hord; [assumption| |]; apply In_remove; tauto.
Qed.

Lemma topologicalSort_sound g l :
  wf g -> topologicalSort g = inr l ->
  (forall v, In v l <-> In v (vertices g)) /\
  NoDup l /\
  (forall u v, In (u, v) (edges g) -> before l u v).
Proof.
  unfold topologicalSort. intros Hwf H.
  destruct (sort_loop _ _ _) as [l'|] eqn:E; [|discriminate].
  injection H as <-.
  destruct (sort_loop_sound _ _ _ _ E) as (Hin & Hnd & Hord).
  repeat split; try assumption; try (apply Hin; assumption).
  - apply Hin. now apply (Hwf u v).
  - apply Hin. now apply (Hwf u v).
  - destruct (Hwf u v H). now apply Hord.
Qed.

Lemma reach_before g l :
  (forall u v, In (u, v) (edges g) -> before l u v) ->
  forall u v, reach g u v -> pos l u < pos l v.
Proof.
  intros H u v R. induction R as [u v He | u v w He R IH].
  - now destruct (H u v He) as (_ & _ & ?).
  - destruct (H u v He) as (_ & _ & ?). lia.
Qed.

Theorem cycle_rejected g :
  wf g -> cyclic g -> topologicalSort g = inl CycleError.
Proof.
  intros Hwf [v Hc].
  destruct (topologicalSort g) as [e|l] eqn:E.
  - unfold topologicalSort in E. destruct (sort_loop _ _ _); [discriminate|].
    now injection E as <-.
  - exfalso. destruct (topologicalSort_sound g l Hwf E) as (_ & _ & Hb).
    pose proof (reach_before g l Hb v v Hc). lia.
Qed.

Lemma wf_empty : wf empty.
Proof. intros u v []. Qed.

Lemma addVertex_vertices v g w :
  In w (vertices (addVertex v g)) <-> w = v \/ In w (vertices g).
Proof.
  unfold addVertex. destruct (mem v (vertices g)) eqn:E.
  - apply mem_In in E. split; [tauto|]. intros [->|?]; assumption.
  - simpl. rewrite in_app_iff. simpl. intuition congruence.
Qed.

Lemma addVertex_edges v g : edges (addVertex v g) = edges g.
Proof. unfold addVertex. now destruct (mem v (vertices g)). Qed.

Lemma wf_addVertex v g : wf g -> wf (addVertex v g).
Proof.
  intros H a b. rewrite addVertex_edges. intros Hin.
  rewrite !addVertex_vertices. destruct (H a b Hin). tauto.
Qed.

Lemma addEdge_vertices a b g w :
  In w (vertices (addEdge a b g)) <-> w = a \/ w = b \/ In w (vertices g).
Proof. unfold addEdge. simpl. rewrite !addVertex_vertices. tauto. Qed.

Lemma addEdge_edges a b g :
  edges (addEdge a b g) = (edges g ++ [(a, b)])%list.
Proof. unfold addEdge. simpl. now rewrite !addVertex_edges. Qed.

Lemma wf_addEdge a b g : wf g -> wf (addEdge a b g).
Proof.
  intros H u v. rewrite addEdge_edges, in_app_iff, !addEdge_vertices.
  intros [Hin|[Heq|[]]].
  - destruct (H u v Hin). tauto.
  - injection Heq as <- <-. tauto.
Qed.

(** Completeness: without a cycle the loop always finds a ready vertex. *)

Lemma chain_reach g u r v :
  chain (edges g) (u :: r) v ->
  reach g u v /\ forall x, In x r -> reach g u x.
Proof.
  revert u. induction r as [|a r IH]; intros u [He Hc]; simpl in He.
  - split; [now apply reach_edge | intros x []].
  - destruct (IH a Hc) as [Hv Hx]. split.
    + eapply reach_step; eassumption.
    + intros x [<-|Hin]; [now apply reach_edge|].
      eapply reach_step; [eassumption | now apply Hx].
Qed.

Lemma chain_dup g l v :
  chain (edges g) l v -> ~ NoDup l -> cyclic g.
Proof.
  induction l as [|u r IH]; intros Hc Hnd.
  - exfalso. apply Hnd. constructor.
  - destruct (in_dec string_dec u r) as [Hin|Hnin].
    + exists u. now apply (chain_reach g u r v Hc).
    + apply IH; [apply Hc|]. intros Hr. apply Hnd. now constructor.
Qed.

Lemma ready_false es pending v :
  ready es pending v = false ->
  exists u, In (u, v) es /\ In u pending.
Proof.
  unfold ready. rewrite negb_false_iff, existsb_exists.
  intros [[u w] [Hin Hb]]. simpl in Hb.
  apply andb_true_iff in Hb. destruct Hb as [Hw Hm].
  apply String.eqb_eq in Hw. subst w. apply mem_In in Hm. eauto.
Qed.

Lemma backward_walk g pending v :
  (forall x, In x pending -> ready (edges g) pending x = false) ->
  In v pending ->
  forall n, exists l, length l = n /\ incl l pending /\ chain (edges g) l v.
Proof.
  intros Hstuck Hv n. induction n as [|n [l (Hlen & Hincl & Hc)]].
  - exists []. repeat split. intros x [].
  - assert (In (hd v l) pending) as Hh.
    { destruct l; simpl; [assumption | apply Hincl; now left]. }
    destruct (ready_false _ _ _ (Hstuck _ Hh)) as [u [He Hu]].
    exists (u :: l). repeat split.
    + simpl. now rewrite Hlen.
    + intros x [<-|Hx]; [assumption | now apply Hincl].
    + assumption.
    + assumption.
Qed.

Lemma stuck_cyclic g pending v :
  (forall x, In x pending -> ready (edges g) pending x = false) ->
  In v pending -> cyclic g.
Proof.
  intros Hstuck Hv.
  destruct (backward_walk g pending v Hstuck Hv (S (length pending)))
    as [l (Hlen & Hincl & Hc)].
  apply (chain_dup g l v Hc). intros Hnd.
  pose proof (NoDup_incl_length Hnd Hincl). lia.
Qed.

Lemma sort_loop_complete g fuel : forall pending,
  ~ cyclic g -> length pending <= fuel ->
  exists l, sort_loop fuel (edges g) pending = Some l.
Proof.
  induction fuel as [|k IH]; intros pending Hac Hlen.
  - destruct pending; [|simpl in Hlen; lia]. now exists [].
  - destruct pending as [|p0 pending']; [now exists []|].
    remember (p0 :: pending') as pending eqn:Hp.
    assert (sort_loop (S k) (edges g) pending =
            match find (ready (edges g) pending) pending with
            | None => None
            | Some v => option_map (cons v) (sort_loop k (edges g) (remove v pending))
            end) as Eq by (subst pending; reflexivity).
    rewrite Eq. clear Eq.
    destruct (find (ready (edges g) pending) pending) as [w|] eqn:F.
    + apply find_some in F. destruct F as [Hw _].
      pose proof (remove_length_lt w pending Hw) as Hlt.
      destruct (IH (remove w pending) Hac) as [l' ->]; [lia|].
      simpl. eauto.
    + exfalso. apply Hac. apply (stuck_cyclic g pending p0).
      * intros x Hx. exact (find_none _ _ F x Hx).
      * subst pending. now left.
Qed.

Theorem topologicalSort_complete g :
  ~ cyclic g -> exists l, topologicalSort g = inr l.
Proof.
  intros Hac. unfold topologicalSort.
  destruct (sort_loop_complete g (length (vertices g)) (vertices g) Hac (le_n _))
    as [l ->].
  eauto.
Qed.
End GraphFacts.

(** ** Ordering the files of a package *)

Local Open Scope list_scope.

Section OrderFiles.

Lemma forEach_lift {S A T} (f : T -> A -> exn + T) (l : list A) :
  forall (t : T) (s : S),
    forEach l (fun t a => lift (f t a)) t s = lift (foldM f l t) s.
Proof.
  induction l as [|a r IH]; intros t s; simpl; [reflexivity|].
  unfold bind. destruct (f t a) as [e|t']; simpl; [reflexivity|].
  apply IH.
Qed.

Lemma orderFiles_unfold sT pT files log :
  orderFiles sT pT files log =
  let corePath := Path.join (requirePath sT pT) "core" in
  match fileGraph corePath files with
  | inl e => (inl e, log)
  | inr (g, map) =>
      match Graph.topologicalSort g with
      | inl e => (inl e, log)
      | inr sorted => forEach sorted (collectFile sT corePath map) [] log
      end
  end.
Proof.
  unfold orderFiles, fileGraph. cbv zeta. unfold bind at 1.
  rewrite forEach_lift.
  destruct (foldM _ files _) as [e|[g map]]; simpl; [reflexivity|].
  unfold bind. destruct (Graph.topologicalSort g); reflexivity.
Qed.

Lemma collectFile_loop sT core map sorted : forall acc log,
  forEach sorted (collectFile sT core map) acc log =
  (inr (acc ++ collected map sorted), log ++ diagnostics sT core map sorted).
Proof.
  induction sorted as [|v r IH]; intros acc log; simpl.
  - now rewrite !app_nil_r.
  - unfold bind, collectFile.
    destruct (lookup map v) as [dep|]; simpl.
    + rewrite IH. now rewrite <- app_assoc.
    + destruct (String.eqb v core); simpl.
      * apply IH.
      * unfold console_log, write_line, Console_log. simpl.
        rewrite IH. now rewrite <- app_assoc.
Qed.

Lemma append_inj_l p a b : (p ++ a = p ++ b)%string -> a = b.
Proof.
  induction p as [|c p IH]; simpl; intros H; [assumption|].
  injection H as H. now apply IH.
Qed.

Lemma file_diagnostic_inj sT a b :
  file_diagnostic sT a = file_diagnostic sT b -> a = b.
Proof.
  unfold file_diagnostic. intros H.
  repeat (apply append_inj_l in H). exact H.
Qed.

Lemma diagnostics_In sT core map sorted d :
  In (file_diagnostic sT d) (diagnostics sT core map sorted) <->
  In d sorted /\ lookup map d = None /\ d <> core.
Proof.
  unfold diagnostics. rewrite in_flat_map. split.
  - intros [v [Hv Hin]].
    destruct (lookup map v) eqn:L; [destruct Hin|].
    destruct (String.eqb_spec v core) as [->|Hne]; [destruct Hin|].
    destruct Hin as [Heq|[]]. apply file_diagnostic_inj in Heq. subst v. tauto.
  - intros (Hin & L & Hne). exists d. split; [assumption|].
    rewrite L. apply String.eqb_neq in Hne. rewrite Hne. now left.
Qed.

Lemma collected_In map sorted f :
  In f (collected map sorted) <-> exists v, In v sorted /\ lookup map v = Some f.
Proof.
  unfold collected. rewrite in_flat_map. split.
  - intros [v [Hv Hin]]. exists v. split; [assumption|].
    destruct (lookup map v); [|destruct Hin]. destruct Hin as [->|[]]. reflexivity.
  - intros [v [Hv L]]. exists v. split; [assumption|]. rewrite L. now left.
Qed.

(** The map is the list of the files with their keys, newest first. *)
Lemma lookup_In {A} (m : list (string * A)) k a :
  NoDup (map fst m) -> In (k, a) m -> lookup m k = Some a.
Proof.
  induction m as [|[k' a'] m IH]; simpl; intros Hnd Hin; [destruct Hin|].
  inversion Hnd as [|? ? Hnotin Hnd']; subst.
  destruct Hin as [Heq|Hin].
  - injection Heq as -> ->. now rewrite String.eqb_refl.
  - destruct (String.eqb_spec k' k) as [->|Hne]; [|now apply IH].
    exfalso. apply Hnotin. apply in_map_iff. now exists (k, a).
Qed.

Lemma lookup_None {A} (m : list (string * A)) k :
  ~ In k (map fst m) -> lookup m k = None.
Proof.
  induction m as [|[k' a'] m IH]; simpl; intros Hnin; [reflexivity|].
  destruct (String.eqb_spec k' k) as [->|Hne]; [tauto|]. apply IH. tauto.
Qed.

Lemma fold_addEdge_wf deps v : forall g,
  Graph.wf g -> Graph.wf (fold_left (fun g name => Graph.addEdge name v g) deps g).
Proof.
  induction deps as [|d r IH]; intros g H; simpl; [assumption|].
  apply IH. now apply wf_addEdge.
Qed.

Lemma fold_addEdge_vertices deps v : forall g w,
  In w (Graph.vertices g) \/ In w deps ->
  In w (Graph.vertices (fold_left (fun g name => Graph.addEdge name v g) deps g)).
Proof.
  induction deps as [|d r IH]; intros g w H; simpl.
  - destruct H as [H|[]]. assumption.
  - apply IH. rewrite addEdge_vertices. simpl in H. intuition.
Qed.

(** What the first loop has built after any number of files. *)
Lemma foldM_addFile core files : forall g map g' map',
  foldM (addFile core) files (g, map) = inr (g', map') ->
  Graph.wf g ->
  Graph.wf g' /\
  map' = rev (List.map (fun f => (dependencyPath f, f)) files) ++ map /\
  (forall w, In w (Graph.vertices g) -> In w (Graph.vertices g')) /\
  (forall f, In f files -> In (dependencyPath f) (Graph.vertices g')) /\
  (forall f deps d, In f files ->
      PackageFile_scRequireDependencies f = inr deps -> In d deps ->
      In d (Graph.vertices g')).
Proof.
  induction files as [|f r IH]; intros g map g' map' H Hwf; simpl in H.
  - injection H as <- <-.
    split; [assumption|]. split; [reflexivity|]. split; [auto|].
    split; [intros ? []|intros ? ? ? []].
  - unfold addFile in H at 1.
    destruct (PackageFile_scRequireDependencies f) as [e|deps] eqn:D; [discriminate|].
    apply IH in H.
    2:{ apply wf_addEdge, fold_addEdge_wf, wf_addVertex, Hwf. }
    destruct H as (Hwf' & Hmap & Hmono & Hfiles & Hdeps).
    split; [assumption|]. split; [|split; [|split]].
    + rewrite Hmap. simpl. now rewrite <- app_assoc.
    + intros w Hw. apply Hmono. rewrite addEdge_vertices. right. right.
      apply fold_addEdge_vertices. left. rewrite addVertex_vertices. now right.
    + intros f0 [<-|Hin]; [|now apply Hfiles].
      apply Hmono. rewrite addEdge_vertices. right. now left.
    + intros f0 deps0 d [<-|Hin] D0 Hd; [|now apply (Hdeps f0 deps0)].
      rewrite D in D0. injection D0 as <-.
      apply Hmono. rewrite addEdge_vertices. right. right.
      apply fold_addEdge_vertices. now right.
Qed.


Lemma sorted_acyclic g l :
  Graph.wf g -> Graph.topologicalSort g = inr l -> ~ Graph.cyclic g.
Proof.
  intros Hwf H Hc. rewrite (cycle_rejected g Hwf Hc) in H. discriminate.
Qed.

Lemma fileGraph_wf core files g map :
  fileGraph core files = inr (g, map) -> Graph.wf g.
Proof.
  intros H. now destruct (foldM_addFile _ _ _ _ _ _ H wf_empty).
Qed.

Lemma fold_addEdge_edges deps v : forall g e,
  In e (Graph.edges g) ->
  In e (Graph.edges (fold_left (fun g name => Graph.addEdge name v g) deps g)).
Proof.
  induction deps as [|d r IH]; intros g e H; simpl; [assumption|].
  apply IH. rewrite addEdge_edges. apply in_or_app. now left.
Qed.

(** The first loop keeps every edge and adds the edge from the core path to
    the path of each file. *)
Lemma foldM_addFile_edges core files : forall g map g' map',
  foldM (addFile core) files (g, map) = inr (g', map') ->
  (forall e, In e (Graph.edges g) -> In e (Graph.edges g')) /\
  (forall f, In f files -> In (core, dependencyPath f) (Graph.edges g')).
Proof.
  induction files as [|f r IH]; intros g map g' map' H; simpl in H.
  - injection H as <- <-. split; [auto | intros ? []].
  - unfold addFile in H at 1.
    destruct (PackageFile_scRequireDependencies f) as [e|deps]; [discriminate|].
    apply IH in H. destruct H as [Hmono Hcore]. split.
    + intros e He. apply Hmono. rewrite addEdge_edges. apply in_or_app. left.
      apply fold_addEdge_edges. now rewrite addVertex_edges.
    + intros f0 [<-|Hin]; [|now apply Hcore].
      apply Hmono. rewrite addEdge_edges. apply in_or_app. right. now left.
Qed.

End OrderFiles.

(** ** The declaration pattern *)

Section Declarations.

Lemma starts_with_spec p : forall s,
  JS.starts_with p s = true <-> exists post, s = (p ++ post)%string.
Proof.
  induction p as [|a p IH]; intros s; simpl.
  - split; [intros _; now exists s | reflexivity].
  - destruct s as [|b s].
    + split; [discriminate | intros [post H]; discriminate].
    + rewrite andb_true_iff, Ascii.eqb_eq, IH. split.
      * intros [-> [post ->]]. now exists post.
      * intros [post H]. injection H as -> ->. split; [reflexivity | now exists post].
Qed.

Lemma capture_unfold q c t :
  Regex.capture q (String c t) =
  match (if JS.is_line_terminator c then None
         else option_map (String c) (Regex.capture q t)) with
  | Some p => Some p
  | None => if Ascii.eqb c q && JS.starts_with ")" t
            then Some EmptyString else None
  end.
Proof. reflexivity. Qed.

Lemma capture_sound q : forall r p,
  Regex.capture q r = Some p ->
  no_line_terminator p = true /\
  exists post, r = (p ++ String q (")" ++ post))%string.
Proof.
  induction r as [|c t IH]; intros p H; [discriminate|].
  rewrite capture_unfold in H.
  destruct (JS.is_line_terminator c) eqn:LT.
  - destruct (Ascii.eqb c q && JS.starts_with ")" t) eqn:E; [|discriminate].
    injection H as <-. apply andb_true_iff in E. destruct E as [Ec Es].
    apply Ascii.eqb_eq in Ec. subst c.
    apply starts_with_spec in Es. destruct Es as [post ->].
    split; [reflexivity | now exists post].
  - destruct (Regex.capture q t) as [p'|] eqn:C; cbn [option_map] in H.
    + injection H as <-. destruct (IH p' eq_refl) as [Hn [post ->]].
      split; [simpl; now rewrite LT | now exists post].
    + destruct (Ascii.eqb c q && JS.starts_with ")" t) eqn:E; [|discriminate].
      injection H as <-. apply andb_true_iff in E. destruct E as [Ec Es].
      apply Ascii.eqb_eq in Ec. subst c.
      apply starts_with_spec in Es. destruct Es as [post ->].
      split; [reflexivity | now exists post].
Qed.

Lemma capture_complete q : forall r p post,
  no_line_terminator p = true ->
  r = (p ++ String q (")" ++ post))%string ->
  Regex.capture q r <> None.
Proof.
  induction r as [|c t IH]; intros p post Hn Hr.
  - destruct p; discriminate.
  - rewrite capture_unfold. destruct p as [|c' p'].
    + simpl in Hr. injection Hr as -> ->.
      destruct (if JS.is_line_terminator q then None
                else option_map (String q) (Regex.capture q (String ")" post)));
        [discriminate|].
      rewrite Ascii.eqb_refl. simpl. discriminate.
    + simpl in Hr. injection Hr as -> ->. simpl in Hn.
      apply andb_true_iff in Hn. destruct Hn as [Hc Hn].
      apply negb_true_iff in Hc. rewrite Hc.
      specialize (IH p' post Hn eq_refl).
      destruct (Regex.capture q _); [discriminate | congruence].
Qed.

Lemma slice_from_length p s :
  JS.slice_from (String.length p) (p ++ s)%string = s.
Proof. induction p as [|c p IH]; simpl; [now destruct s | assumption]. Qed.

Lemma match_here_spec s p :
  Regex.match_here s = Some p <->
  exists q r, s = ("sc_require(" ++ String q r)%string /\
              JS.is_quote q = true /\ Regex.capture q r = Some p.
Proof.
  unfold Regex.match_here. split.
  - destruct (JS.starts_with "sc_require(" s) eqn:E; [|discriminate].
    apply starts_with_spec in E. destruct E as [post ->].
    change 11 with (String.length "sc_require("). rewrite slice_from_length.
    destruct post as [|q r]; [discriminate|].
    destruct (JS.is_quote q) eqn:Q; [|discriminate].
    intros C. now exists q, r.
  - intros [q [r (-> & Q & C)]].
    assert (JS.starts_with "sc_require(" ("sc_require(" ++ String q r)%string = true) as ->
      by (apply starts_with_spec; now exists (String q r)).
    change 11 with (String.length "sc_require("). rewrite slice_from_length.
    now rewrite Q.
Qed.

Lemma exec_unfold s :
  Regex.exec s = match Regex.match_here s with
                 | Some p => Some p
                 | None => match s with
                           | EmptyString => None
                           | String _ t => Regex.exec t
                           end
                 end.
Proof. destruct s; reflexivity. Qed.

Lemma exec_sound : forall s p,
  Regex.exec s = Some p -> Captures s p.
Proof.
  induction s as [|c t IH]; intros p H; rewrite exec_unfold in H.
  - destruct (Regex.match_here "") eqn:E; [|discriminate].
    injection H as ->. apply match_here_spec in E.
    destruct E as [q [r (? & _)]]. discriminate.
  - destruct (Regex.match_here (String c t)) as [p'|] eqn:E.
    + injection H as ->. apply match_here_spec in E.
      destruct E as [q [r (Hs & Q & C)]].
      apply capture_sound in C. destruct C as [Hn [post ->]].
      now apply (Captures_intro _ _ EmptyString post q).
    + destruct (IH p H) as [pre post q Q Hn ->].
      now apply (Captures_intro _ _ (String c pre) post q).
Qed.

Lemma exec_complete : forall s, Matches s -> Regex.exec s <> None.
Proof.
  intros s [p [pre post q Q Hn ->]].
  induction pre as [|c pre IH]; rewrite exec_unfold.
  - simpl ((_ ++ _)%string).
    destruct (Regex.match_here _) eqn:E; [discriminate|]. exfalso.
    pose proof (capture_complete q _ p post Hn eq_refl) as C.
    destruct (Regex.capture q (p ++ String q (")" ++ post))) as [p'|] eqn:C'; [|congruence].
    assert (Regex.match_here ("sc_require(" ++ String q (p ++ String q (")" ++ post)))
            = Some p') as E'.
    { apply match_here_spec. eauto. }
    simpl in E'. congruence.
  - simpl ((_ ++ _)%string).
    destruct (Regex.match_here _); [discriminate | exact IH].
Qed.

Lemma scan_extracted root : forall sts,
  Extracted root sts
    (map (Path.join root)
         (flat_map (fun st => match Regex.exec st with
                              | Some p => [p]
                              | None => []
                              end) sts)).
Proof.
  induction sts as [|st r IH]; simpl; [constructor|].
  destruct (Regex.exec st) as [p|] eqn:E; simpl.
  - constructor; [now apply exec_sound | assumption].
  - constructor; [|assumption]. intros Hm. now apply exec_complete in Hm.
Qed.


Lemma extracted_none root sts ids :
  Extracted root sts ids -> Forall (fun st => ~ Matches st) sts -> ids = [].
Proof.
  induction 1 as [|st rest ids Hn _ IH|st p rest ids Hc _ _]; intros HF.
  - reflexivity.
  - inversion HF; subst. now apply IH.
  - inversion HF as [|? ? Hn _]; subst. exfalso. apply Hn. now exists p.
Qed.

End Declarations.


(** ** Joining plain paths *)

Section Paths.

Lemma append_assoc a b c : ((a ++ b) ++ c = a ++ (b ++ c))%string.
Proof. induction a as [|x a IH]; simpl; [reflexivity | now rewrite IH]. Qed.

Lemma split_no_slash x : no_slash x -> JS.split Path.slash x = [x].
Proof.
  induction x as [|c x IH]; intros H; simpl; [reflexivity|].
  assert (c <> Path.slash) as Hc by (apply H; now left).
  apply Ascii.eqb_neq in Hc. rewrite Hc. rewrite IH; [reflexivity|].
  intros d Hd. apply H. now right.
Qed.

Lemma split_app_slash x y :
  no_slash x ->
  JS.split Path.slash (x ++ String Path.slash y)%string
  = x :: JS.split Path.slash y.
Proof.
  induction x as [|c x IH]; intros H; simpl.
  - reflexivity.
  - assert (c <> Path.slash) as Hc by (apply H; now left).
    apply Ascii.eqb_neq in Hc. rewrite Hc. rewrite IH; [reflexivity|].
    intros d Hd. apply H. now right.
Qed.

Lemma join_cons x y r :
  JS.join "/" (x :: y :: r) = (x ++ String Path.slash (JS.join "/" (y :: r)))%string.
Proof. reflexivity. Qed.

Lemma split_join segs :
  segs <> [] -> Forall no_slash segs ->
  JS.split Path.slash (JS.join "/" segs) = segs.
Proof.
  induction segs as [|x r IH]; intros Hne HF; [congruence|].
  inversion HF as [|? ? Hx Hr]; subst.
  destruct r as [|y r'].
  - simpl. now apply split_no_slash.
  - rewrite join_cons, split_app_slash by assumption.
    f_equal. apply IH; [discriminate | assumption].
Qed.

Lemma join_app a b :
  a <> [] -> b <> [] ->
  JS.join "/" (a ++ b) = (JS.join "/" a ++ "/" ++ JS.join "/" b)%string.
Proof.
  induction a as [|x r IH]; intros Ha Hb; [congruence|].
  destruct r as [|y r'].
  - destruct b as [|z b']; [congruence|]. reflexivity.
  - change ((x :: y :: r') ++ b) with (x :: y :: (r' ++ b)).
    rewrite !join_cons.
    change (y :: r' ++ b) with ((y :: r') ++ b).
    rewrite IH by (assumption || discriminate).
    change (String Path.slash ?s) with ("/" ++ s)%string.
    now rewrite !append_assoc.
Qed.

Lemma plain_no_slash segs :
  Forall plain_segment segs -> Forall no_slash segs.
Proof. apply Forall_impl. intros x (_ & _ & _ & H). exact H. Qed.

Lemma filter_plain segs :
  Forall plain_segment segs -> filter JS.nonempty segs = segs.
Proof.
  induction 1 as [|x r (Hx & _) _ IH]; simpl; [reflexivity|].
  destruct x; [congruence|]. simpl. now rewrite IH.
Qed.

Lemma normalize_plain_parts segs :
  Forall plain_segment segs ->
  fold_right Path.normalize_step ([], 0) segs = (segs, 0).
Proof.
  induction 1 as [|x r (_ & Hd & Hdd & _) _ IH]; simpl; [reflexivity|].
  rewrite IH. unfold Path.normalize_step.
  apply String.eqb_neq in Hd, Hdd. now rewrite Hd, Hdd.
Qed.

Lemma last_char_app x y :
  y <> EmptyString -> JS.last_char (x ++ y)%string = JS.last_char y.
Proof.
  intros Hy. induction x as [|c x IH]; simpl; [reflexivity|].
  rewrite IH. destruct (x ++ y)%string eqn:E; [|reflexivity].
  destruct x; simpl in E; [congruence | discriminate].
Qed.

Lemma last_char_no_slash x c :
  no_slash x -> JS.last_char x = Some c -> c <> Path.slash.
Proof.
  induction x as [|a x IH]; intros H L; [discriminate|].
  simpl in L. destruct x as [|b x'].
  - injection L as <-. apply H. now left.
  - apply IH; [|assumption]. intros d Hd. apply H. now right.
Qed.

Lemma join_nonempty segs :
  segs <> [] -> Forall plain_segment segs -> JS.join "/" segs <> EmptyString.
Proof.
  intros Hne HF. destruct segs as [|x r]; [congruence|].
  inversion HF as [|? ? (Hx & _) _]; subst.
  destruct r; simpl; destruct x; simpl; congruence.
Qed.

Lemma trailingSlash_join segs :
  segs <> [] -> Forall plain_segment segs ->
  Path.trailingSlash (JS.join "/" segs) = false.
Proof.
  induction segs as [|x r IH]; intros Hne HF; [congruence|].
  inversion HF as [|? ? Hx Hr]; subst.
  destruct r as [|y r'].
  - simpl. unfold Path.trailingSlash.
    destruct (JS.last_char x) as [c|] eqn:L; [|reflexivity].
    apply Ascii.eqb_neq. destruct Hx as (_ & _ & _ & Hs).
    now apply (last_char_no_slash x c).
  - rewrite join_cons. unfold Path.trailingSlash in *.
    change (String Path.slash (JS.join "/" (y :: r')))
      with ("/" ++ JS.join "/" (y :: r'))%string.
    rewrite last_char_app by discriminate.
    rewrite last_char_app by (apply join_nonempty; [discriminate | assumption]).
    apply IH; [discriminate | assumption].
Qed.

Lemma isAbsolute_join segs :
  segs <> [] -> Forall plain_segment segs ->
  Path.isAbsolute (JS.join "/" segs) = false.
Proof.
  intros Hne HF. destruct segs as [|x r]; [congruence|].
  inversion HF as [|? ? (Hx & _ & _ & Hs) _]; subst.
  destruct x as [|c x]; [congruence|].
  assert (c <> Path.slash) as Hc by (apply Hs; now left).
  apply Ascii.eqb_neq in Hc.
  destruct r; simpl; exact Hc.
Qed.

Lemma nonempty_true x : x <> EmptyString -> JS.nonempty x = true.
Proof. destruct x; [congruence | reflexivity]. Qed.

Lemma normalize_plain segs :
  segs <> [] -> Forall plain_segment segs ->
  Path.normalize (JS.join "/" segs) = JS.join "/" segs.
Proof.
  intros Hne HF. unfold Path.normalize.
  rewrite isAbsolute_join, trailingSlash_join by assumption.
  rewrite split_join by (assumption || now apply plain_no_slash).
  rewrite filter_plain by assumption.
  unfold Path.normalizeArray. rewrite normalize_plain_parts by assumption.
  cbn [negb andb fst snd repeat app].
  rewrite (nonempty_true (JS.join "/" segs)) by now apply join_nonempty.
  cbn [negb andb].
  rewrite (nonempty_true (JS.join "/" segs)) by now apply join_nonempty.
  reflexivity.
Qed.

Lemma join_plain root p :
  plain root -> plain p -> Path.join root p = (root ++ "/" ++ p)%string.
Proof.
  intros [a (Ha & Fa & ->)] [b (Hb & Fb & ->)].
  unfold Path.join. simpl filter.
  rewrite !nonempty_true by now apply join_nonempty.
  change (JS.join "/" [JS.join "/" a; JS.join "/" b])
    with (JS.join "/" a ++ "/" ++ JS.join "/" b)%string.
  rewrite <- join_app by assumption.
  apply normalize_plain.
  - destruct a; [congruence | discriminate].
  - apply Forall_app. now split.
Qed.

End Paths.


(** ** The dependencies a package file declares *)

Section PackageFiles.

(** C8, amended.  For every package-owned file (one that has contents),
    [scRequireDependencies] returns, in the order of the statements of the
    contents (lines split at semicolons), one identifier per statement
    that matches the call pattern: the captured argument joined to the
    package's path relative to its parent source tree by [path.join].  A
    file with no matching statement yields the empty list.  The join
    normalises: it is the package path, a slash and the argument whenever
    both are relative paths of plain segments. *)
Theorem PackageFile_scRequireDependencies_spec (f : File) (text : string) :
  contents f = Some text ->
  exists ids,
    PackageFile_scRequireDependencies f = inr ids /\
    Extracted (PackageFile_requirePath f) (statements text) ids /\
    (Forall (fun st => ~ Matches st) (statements text) -> ids = []) /\
    (forall p, plain (PackageFile_requirePath f) -> plain p ->
               Path.join (PackageFile_requirePath f) p
               = (PackageFile_requirePath f ++ "/" ++ p)%string).
Proof.
  intros Hc.
  exists (map (Path.join (PackageFile_requirePath f)) (scan text)).
  split; [|split; [|split]].
  - unfold PackageFile_scRequireDependencies, File_scRequireDependencies.
    now rewrite Hc.
  - apply scan_extracted.
  - apply (extracted_none (PackageFile_requirePath f)). apply scan_extracted.
  - intros p. apply join_plain.
Qed.

Lemma PackageFile_scRequireDependencies_witness :
  exists ids,
    PackageFile_scRequireDependencies Examples.a_js = inr ids /\
    Extracted "packages/foo" ["sc_require('core')"; EmptyString] ids.
Proof.
  destruct (PackageFile_scRequireDependencies_spec
              Examples.a_js "sc_require('core');" eq_refl)
    as [ids (H1 & H2 & _)].
  exists ids. split; [exact H1 | exact H2].
Defined.

(** The identifier of [sc_require('../x')] in the package [packages/foo]
    is [packages/x], which does not start with the package path. *)
Lemma PackageFile_scRequireDependencies_not_prefixed :
  ~ (forall f text ids id,
        contents f = Some text ->
        PackageFile_scRequireDependencies f = inr ids ->
        In id ids ->
        String.prefix (PackageFile_requirePath f) id = true).
Proof.
  intros H.
  specialize (H Examples.up_js "sc_require('../x');" ["packages/x"]
                "packages/x" eq_refl eq_refl (or_introl eq_refl)).
  vm_compute in H. discriminate.
Qed.

End PackageFiles.

(** ** Promotion of the dependencies of core packages *)

Section Promotion.

Lemma setType_idempotent t p : setType t (setType t p) = setType t p.
Proof. reflexivity. Qed.

Lemma same_but_type_uuid p p' : same_but_type p p' -> uuid p' = uuid p.
Proof. now intros [->| ->]. Qed.

Lemma same_but_type_basename p p' :
  same_but_type p p' -> basename (info p') = basename (info p).
Proof. now intros [->| ->]. Qed.

Lemma same_but_type_declared p p' :
  same_but_type p p' -> declared p' = declared p.
Proof. now intros [->| ->]. Qed.

Lemma same_but_type_core p p' :
  same_but_type p p' -> type (info p) = "core" -> type (info p') = "core".
Proof. now intros [->| ->]. Qed.

Lemma promoted_refl store : promoted store store.
Proof. induction store; constructor; [now left | assumption]. Qed.

Lemma promoted_trans a b c : promoted a b -> promoted b c -> promoted a c.
Proof.
  intros H. revert c. induction H as [|x y l l' Hxy _ IH]; intros c Hc.
  - inversion Hc. constructor.
  - inversion Hc as [|? z ? l'' Hyz Hl]; subst. constructor; [|now apply IH].
    destruct Hxy as [->| ->]; destruct Hyz as [->| ->]; unfold same_but_type; auto.
Qed.

Lemma promoted_update store j :
  promoted store (update j (setType "core") store).
Proof.
  revert j. induction store as [|p r IH]; intros j; simpl; [constructor|].
  destruct j.
  - constructor; [now right | apply promoted_refl].
  - constructor; [now left | apply IH].
Qed.

Lemma promoted_nth store store' i p :
  promoted store store' -> nth_error store i = Some p ->
  exists p', nth_error store' i = Some p' /\ same_but_type p p'.
Proof.
  intros H. revert i. induction H as [|x y l l' Hxy _ IH]; intros i Hn.
  - destruct i; discriminate.
  - destruct i; simpl in *.
    + injection Hn as <-. eauto.
    + now apply IH.
Qed.

Lemma promoted_nth_None store store' i :
  promoted store store' -> nth_error store i = None ->
  nth_error store' i = None.
Proof.
  intros H. revert i. induction H as [|x y l l' Hxy _ IH]; intros i Hn.
  - now destruct i.
  - destruct i; simpl in *; [discriminate | now apply IH].
Qed.

Lemma find_index_related {A} (f g : A -> bool) (R : A -> A -> Prop) l l' :
  (forall a b, R a b -> f a = g b) ->
  Forall2 R l l' -> find_index f l = find_index g l'.
Proof.
  intros Hfg H. induction H as [|x y l l' Hxy _ IH]; simpl; [reflexivity|].
  rewrite (Hfg x y Hxy), IH. reflexivity.
Qed.

Lemma promoted_findPackage store store' key :
  promoted store store' -> findPackage store' key = findPackage store key.
Proof.
  intros H. unfold findPackage.
  rewrite <- (find_index_related (fun p => String.eqb (uuid p) key)
               (fun p => String.eqb (uuid p) key) same_but_type store store');
    [|intros a b Hab; now rewrite (same_but_type_uuid a b Hab) | assumption].
  rewrite <- (find_index_related (fun p => String.eqb (basename (info p)) key)
               (fun p => String.eqb (basename (info p)) key)
               same_but_type store store');
    [reflexivity
    |intros a b Hab; now rewrite (same_but_type_basename a b Hab) | assumption].
Qed.

Lemma promoted_typeAt store store' i :
  promoted store store' -> typeAt store i = "core" -> typeAt store' i = "core".
Proof.
  intros H. unfold typeAt. destruct (nth_error store i) as [p|] eqn:E.
  - destruct (promoted_nth _ _ _ _ H E) as [p' [-> Hs]].
    now apply same_but_type_core.
  - discriminate.
Qed.

Lemma find_index_bound {A} (f : A -> bool) l j :
  find_index f l = Some j -> j < length l.
Proof.
  revert j. induction l as [|a r IH]; intros j H; simpl in *; [discriminate|].
  destruct (f a).
  - injection H as <-. lia.
  - destruct (find_index f r) as [k|]; [|discriminate].
    injection H as <-. specialize (IH k eq_refl). lia.
Qed.

Lemma findPackage_bound store key j :
  findPackage store key = Some j -> j < length store.
Proof.
  unfold findPackage.
  destruct (find_index (fun p => String.eqb (uuid p) key) store) as [k|] eqn:E.
  - intros H. injection H as <-. now apply find_index_bound in E.
  - apply find_index_bound.
Qed.

Lemma nth_error_update {A} (f : A -> A) l : forall j i,
  nth_error (update j f l) i
  = if Nat.eqb i j then option_map f (nth_error l i) else nth_error l i.
Proof.
  induction l as [|a r IH]; intros j i; simpl.
  - destruct i; destruct (Nat.eqb _ j); reflexivity.
  - destruct j, i; simpl; try reflexivity. apply IH.
Qed.

Lemma typeAt_update store j :
  j < length store -> typeAt (update j (setType "core") store) j = "core".
Proof.
  intros Hj. unfold typeAt. rewrite nth_error_update, Nat.eqb_refl.
  destruct (nth_error store j) eqn:E; [reflexivity|].
  apply nth_error_None in E. lia.
Qed.

(** One dependency: the store is at most promoted, and the dependency of a
    core package is core afterwards. *)
Lemma resolveDependency_spec i name parent store g d log :
  exists store' g' log',
    resolveDependency i name parent (store, g) d log
      = (inr (store', g'), log') /\
    promoted store store' /\
    (typeAt store i = "core" ->
     forall j, findPackage store d = Some j -> typeAt store' j = "core").
Proof.
  unfold resolveDependency.
  destruct (findPackage store d) as [j|] eqn:F.
  - destruct (String.eqb (typeAt store i) "core"
              && negb (String.eqb (typeAt store j) "core")) eqn:C.
    + do 3 eexists. split; [reflexivity|]. split; [apply promoted_update|].
      intros _ j' Hj'. injection Hj' as <-.
      apply typeAt_update. now apply (findPackage_bound store d).
    + do 3 eexists. split; [reflexivity|]. split; [apply promoted_refl|].
      intros Hi j' Hj'. injection Hj' as <-.
      rewrite Hi in C. simpl in C. apply negb_false_iff in C.
      now apply String.eqb_eq in C.
  - do 3 eexists. split; [reflexivity|]. split; [apply promoted_refl|].
    intros _ j Hj. discriminate.
Qed.

(** The dependencies of one package. *)
Lemma resolveDependencies_spec i name parent deps : forall store g log,
  exists store' g' log',
    forEach deps (resolveDependency i name parent) (store, g) log
      = (inr (store', g'), log') /\
    promoted store store' /\
    (typeAt store i = "core" ->
     forall d j, In d deps -> findPackage store d = Some j ->
                 typeAt store' j = "core").
Proof.
  induction deps as [|d r IH]; intros store g log.
  - do 3 eexists. split; [reflexivity|]. split; [apply promoted_refl|].
    intros _ d j [].
  - destruct (resolveDependency_spec i name parent store g d log)
      as (s1 & g1 & l1 & E1 & P1 & C1).
    destruct (IH s1 g1 l1) as (s2 & g2 & l2 & E2 & P2 & C2).
    exists s2, g2, l2. split; [|split].
    + cbn [forEach]. unfold bind at 1. now rewrite E1.
    + now apply (promoted_trans _ s1).
    + intros Hi d' j [<-|Hin] Hf.
      * apply (promoted_typeAt s1 s2 j P2). now apply C1.
      * apply (C2 (promoted_typeAt store s1 i P1 Hi) d' j Hin).
        now rewrite (promoted_findPackage store s1).
Qed.

(** One package. *)
Lemma resolvePackage_spec store g map i log :
  exists store' g' map' log',
    resolvePackage (store, g, map) i log = (inr (store', g', map'), log') /\
    promoted store store' /\
    (typeAt store i = "core" ->
     forall j, dependsOn store i j -> typeAt store' j = "core").
Proof.
  unfold resolvePackage.
  destruct (nth_error store i) as [package|] eqn:E.
  - destruct (resolveDependencies_spec i (nodeName package)
                (Path.basename (pkgParentSourceTree (info package)))
                (declared package) store (Graph.addVertex (nodeName package) g) log)
      as (s1 & g1 & l1 & E1 & P1 & C1).
    exists s1, g1, ((nodeName package, i) :: map), l1. split; [|split].
    + unfold bind. unfold declared in E1. now rewrite E1.
    + assumption.
    + intros Hi j (q & d & Hq & Hd & Hf). rewrite E in Hq. injection Hq as <-.
      now apply (C1 Hi d).
  - exists store, g, map, log. split; [reflexivity|].
    split; [apply promoted_refl|].
    intros _ j (q & d & Hq & _). congruence.
Qed.

Lemma dependsOn_promoted store store' i j :
  promoted store store' -> dependsOn store i j -> dependsOn store' i j.
Proof.
  intros P (q & d & Hq & Hd & Hf).
  destruct (promoted_nth _ _ _ _ P Hq) as [q' [Hq' Hs]].
  exists q', d. split; [assumption|]. split.
  - now rewrite (same_but_type_declared q q').
  - now rewrite (promoted_findPackage store store').
Qed.

Lemma coreAtItsTurn_typeAt store0 k st :
  handled store0 k st -> coreAtItsTurn store0 k ->
  typeAt (fst (fst st)) k = "core".
Proof.
  intros [P H] C. destruct C as [i Hi | i j Ci Hlt Hd].
  - now apply (promoted_typeAt store0).
  - now apply (H i j).
Qed.

Lemma resolve_loop store0 m : forall k st log,
  handled store0 k st ->
  exists st' log',
    forEach (seq k m) resolvePackage st log = (inr st', log') /\
    handled store0 (k + m) st'.
Proof.
  induction m as [|m IH]; intros k st log Hst.
  - exists st, log. split; [reflexivity|]. now rewrite Nat.add_0_r.
  - destruct st as [[store g] map].
    destruct (resolvePackage_spec store g map k log)
      as (s1 & g1 & m1 & l1 & E1 & P1 & C1).
    assert (handled store0 (S k) (s1, g1, m1)) as H1.
    { destruct Hst as [P H]. simpl in P, H. split; simpl.
      - now apply (promoted_trans _ store).
      - intros i j Hlt Ci Hd.
        destruct (Nat.eq_dec i k) as [->|Hne].
        + apply C1.
          * apply (coreAtItsTurn_typeAt store0 k (store, g, map)); [now split|assumption].
          * now apply (dependsOn_promoted store0 store).
        + apply (promoted_typeAt store s1 j P1). apply (H i j); [lia|assumption..]. }
    destruct (IH (S k) (s1, g1, m1) l1 H1) as (st' & log' & E2 & H2).
    exists st', log'. split.
    + cbn [seq forEach]. unfold bind at 1. now rewrite E1.
    + now rewrite Nat.add_succ_r.
Qed.

(** The first loop of [orderedPackages] returns, and leaves core every
    dependency of a package that is core at its turn. *)
Lemma resolve_spec store log :
  exists store' g map log',
    resolve store log = (inr (store', g, map), log') /\
    storeAfter store log = store' /\
    promoted store store' /\
    forall i j, i < length store -> coreAtItsTurn store i ->
                dependsOn store i j -> typeAt store' j = "core".
Proof.
  unfold resolve, storeAfter.
  destruct (resolve_loop store (length store) 0 (store, Graph.empty, []) log)
    as ([[store' g] map] & log' & E & P & H).
  { split; [apply promoted_refl|]. intros i j Hlt. lia. }
  exists store', g, map, log'. unfold resolve. rewrite E.
  repeat split; assumption.
Qed.

Lemma dependsOn_bound store i j : dependsOn store i j -> i < length store.
Proof.
  intros (q & d & Hq & _). apply nth_error_Some. congruence.
Qed.

Lemma orderedPackages_store store log store' l log' :
  orderedPackages store log = (inr (store', l), log') ->
  store' = storeAfter store log.
Proof.
  unfold orderedPackages, storeAfter, bind.
  destruct (resolve store log) as [[e|[[s g] m]] lg]; [discriminate|].
  destruct (Graph.topologicalSort g); simpl; [discriminate|].
  intros H. now injection H as <- _ _.
Qed.


Lemma setType_core_same p : type (info p) = "core" -> setType "core" p = p.
Proof.
  destruct p as [u [a b c t d r f]]. simpl. intros ->. reflexivity.
Qed.

End Promotion.

(** ** The order of frameworks *)

Section Frameworks.

Lemma Node_induction (P : Node -> Prop) :
  (forall key k props cs, Forall P cs -> P (Nd key k props cs)) ->
  forall n, P n.
Proof.
  intros H. fix IH 1. intros [key k props cs]. apply H.
  induction cs as [|c r IHr]; constructor; [apply IH | exact IHr].
Qed.

Lemma height_unfold key k props cs :
  height (Nd key k props cs) = S (max_height cs).
Proof.
  reflexivity.
Qed.

Lemma visit_find_unfold k0 str key k props cs :
  visit_find k0 str (Nd key k props cs)
  = if kind_eqb k k0 && String.eqb key str then Some (Nd key k props cs)
    else traverse_find k0 str cs.
Proof.
  simpl. destruct (kind_eqb k k0 && String.eqb key str); [reflexivity|].
  induction cs as [|c r IH]; simpl; [reflexivity|].
  destruct (visit_find k0 str c); [reflexivity | exact IH].
Qed.

Lemma traverse_find_bounded k0 str cs :
  Forall (fun n => forall x, visit_find k0 str n = Some x ->
                             height x <= height n) cs ->
  forall x, traverse_find k0 str cs = Some x -> height x <= max_height cs.
Proof.
  induction 1 as [|c r Hc _ IH]; intros x H; simpl in H; [discriminate|].
  simpl. destruct (visit_find k0 str c) as [y|] eqn:E.
  - injection H as <-. specialize (Hc y eq_refl). lia.
  - specialize (IH x H). lia.
Qed.

Lemma visit_find_height k0 str n :
  forall x, visit_find k0 str n = Some x -> height x <= height n.
Proof.
  induction n as [key k props cs IH] using Node_induction. intros x.
  rewrite visit_find_unfold.
  destruct (kind_eqb k k0 && String.eqb key str).
  - intros H. injection H as <-. lia.
  - rewrite height_unfold. intros H.
    apply (traverse_find_bounded k0 str cs IH) in H. lia.
Qed.

Lemma traverse_find_height k0 str cs x :
  traverse_find k0 str cs = Some x -> height x <= max_height cs.
Proof.
  apply traverse_find_bounded. apply Forall_forall.
  intros n _. apply visit_find_height.
Qed.

(** A framework found below a node is lower than the node. *)
Lemma findFramework_height name root framework :
  findFramework name root = Some framework -> height framework < height root.
Proof.
  unfold findFramework. destruct root as [key k props cs]. simpl children.
  rewrite height_unfold. intros H. apply traverse_find_height in H. lia.
Qed.

(** With fuel for the height of the root, the loop over names returns,
    leaves the state as it was, and appends the expansion of the names. *)
Lemma processFrameworks_spec {St} fuel : forall root,
  height root <= fuel ->
  forall names ary (s : St),
  exists result,
    forEach names (fun ary name => processFramework fuel root name ary) ary s
      = (inr (ary ++ result), s) /\
    Expanded root names result.
Proof.
  induction fuel as [|fuel IH]; intros root Hh.
  - destruct root. rewrite height_unfold in Hh. lia.
  - induction names as [|name names IHn]; intros ary s.
    + exists []. split; [simpl; now rewrite app_nil_r | constructor].
    + cbn [forEach]. unfold bind at 1. cbn [processFramework].
      destruct (findFramework name root) as [framework|] eqn:F.
      * assert (height framework <= fuel) as Hf
            by (apply findFramework_height in F; lia).
        destruct (IH framework Hf (frameworks (nodeProps framework)) ary s)
          as [deps [E D]].
        unfold bind at 1. rewrite E. cbv beta iota delta [ret].
        destruct (IHn ((ary ++ deps) ++ [framework]) s) as [rest [E' R]].
        exists (deps ++ [framework] ++ rest). split.
        -- etransitivity; [exact E'|]. now rewrite <- !app_assoc.
        -- now apply Expanded_resolved.
      * cbv beta iota delta [ret]. destruct (IHn ary s) as [rest [E' R]].
        exists rest. split; [assumption | now apply Expanded_unresolved].
Qed.


(** C7.  For every target with an owning project, [orderedFrameworks]
    returns (with fuel for the height of the project or more), logs
    nothing, and its result is the expansion of the declared framework
    names taken in order: a name that [findFramework] resolves gives first
    the expansion of the frameworks that framework declares, then the
    framework itself; a name it does not resolve gives nothing. *)
Theorem orderedFrameworks_spec (project target : Node) (extra : nat)
        (log : list string) :
  exists result,
    orderedFrameworks (height project + extra) (Some project) target log
      = (inr result, log) /\
    Expanded project (frameworks (nodeProps target)) result.
Proof.
  unfold orderedFrameworks.
  destruct (processFrameworks_spec (height project + extra) project
              (Nat.le_add_r _ _) (frameworks (nodeProps target)) [] log)
    as [result [E X]].
  exists result. split; assumption.
Qed.

(** C10, amended.  [orderedFrameworks] returns for every project tree and
    every target, whatever the frameworks declare: [processFramework] has
    no visited set, but each recursive call searches only below the
    framework just found, so fuel for the height of the project is
    enough. *)
Theorem orderedFrameworks_terminates (project : option Node) (target : Node)
        (extra : nat) (log : list string) :
  exists result,
    orderedFrameworks
      (match project with Some p => height p | None => 0 end + extra)
      project target log
    = (inr result, log).
Proof.
  destruct project as [p|]; [|now exists []].
  unfold orderedFrameworks.
  destruct (processFrameworks_spec (height p + extra) p
              (Nat.le_add_r _ _) (frameworks (nodeProps target)) [] log)
    as [result [E _]].
  now exists result.
Qed.

(** Two frameworks that declare each other: the app that declares the
    first gets that framework alone; and no project makes
    [orderedFrameworks] run out of every fuel. *)
Lemma mutual_frameworks_terminate :
  orderedFrameworks 2 (Some Examples.mutual_project)
                    (Nd "app" KApp (Examples.target ["A"]) [])
                    ([] : list string)
  = (inr [Nd "A" KFramework (Examples.target ["B"]) []], []) /\
  ~ (exists project target,
        forall fuel,
          fst (orderedFrameworks fuel (Some project) target
                                 ([] : list string))
          = inl OutOfFuel).
Proof.
  split; [reflexivity|].
  intros (project & target & H).
  specialize (H (height project + 0)). unfold orderedFrameworks in H.
  destruct (processFrameworks_spec (height project + 0) project
              (Nat.le_add_r _ _) (frameworks (nodeProps target)) []
              ([] : list string))
    as [result [E _]].
  rewrite E in H. discriminate.
Qed.

End Frameworks.

(** ** Cycles and failed builds *)

Section Cycles.

Lemma orderedPackages_unfold store log :
  orderedPackages store log =
  match resolve store log with
  | (inl e, log') => (inl e, log')
  | (inr (store', g, map), log') =>
      match Graph.topologicalSort g with
      | inl e => (inl e, log')
      | inr sorted => (inr (store', collectPackages store' map sorted), log')
      end
  end.
Proof.
  unfold orderedPackages, bind.
  destruct (resolve store log) as [[e|[[s g] m]] lg]; [reflexivity|].
  destruct (Graph.topologicalSort g); reflexivity.
Qed.



End Cycles.

Section Building.

(** When the directory of an app cannot be created, [buildApp] logs three
    lines and returns to its caller as after a successful build. *)
Lemma buildApp_refused project name app cause s :
  findApp name (tree project) = Some app ->
  existsSync (Path.join (toolsPath project) "../build") (disk s) = true ->
  existsSync (Path.join (Path.join (toolsPath project) "../build")
                        (nodeKey app)) (disk s) = false ->
  lookup (refused (disk s))
         (Path.join (Path.join (toolsPath project) "../build") (nodeKey app))
  = Some cause ->
  buildApp project name s
  = (inr tt,
     mkBuildState
       (console s ++
        [("failed to create app directory at "
          ++ Path.join (Path.join (toolsPath project) "../build")
                       (nodeKey app))%string;
         cause; "aborting build"])
       (disk s) (isBuilding s)).
Proof.
  intros Ha Hb Hn Hr. unfold buildApp. rewrite Ha.
  unfold bind at 1. unfold ensureDirectory at 1. rewrite Hb.
  cbv beta iota. cbn [negb]. unfold bind at 1.
  unfold ensureDirectory. rewrite Hn. unfold mkdirSync. rewrite Hr.
  unfold bind, console_log, ret, write_line, Console_build. simpl.
  now rewrite <- !app_assoc.
Qed.

(** C9.  On a project of the apps [one] and [two], where creating the
    output directory of [one] is refused, [build] logs the failure, its
    cause and the line aborting build, and then goes on: it builds [two],
    writes the index page and ends with the line Done. *)
Theorem build_continues_after_failure :
  let result := build Examples.two_apps Examples.before_build in
  fst result = inr tt /\
  console (snd result)
  = ["one ..."; "failed to create app directory at /bt/build/one";
     "Error: EACCES, permission denied '/bt/build/one'";
     "aborting build"; "two ..."; "Building apps in  /proj/build";
     "Writing index.html ..."; "Done."] /\
  existsSync "/bt/build/one" (disk (snd result)) = false /\
  lookup (regular (disk (snd result))) "/bt/build/two/index.html"
  = Some "<html>two</html>" /\
  lookup (regular (disk (snd result))) "/bt/build/two/application.js"
  = Some ("two();" ++ nl ++ "main()")%string /\
  lookup (regular (disk (snd result))) "/proj/build/index.html"
  = Some (indexHTML Examples.two_apps true).
Proof.
  vm_compute. repeat split; reflexivity.
Qed.

End Building.

(** ** Renaming the vertices of a graph *)

Section Relabelling.

Variable f : string -> string.
Variable P : string -> Prop.
Hypothesis f_inj : inj_on f P.

Lemma eqb_relabel x y :
  P x -> P y -> String.eqb (f x) (f y) = String.eqb x y.
Proof.
  intros Hx Hy. destruct (String.eqb_spec x y) as [->|Hne].
  - apply String.eqb_refl.
  - apply String.eqb_neq. intros E. apply Hne. now apply f_inj.
Qed.

Lemma mem_relabel v l :
  P v -> Forall P l -> Graph.mem (f v) (map f l) = Graph.mem v l.
Proof.
  intros Hv Hl. induction Hl as [|w l Hw _ IH]; simpl; [reflexivity|].
  now rewrite IH, eqb_relabel.
Qed.

Lemma within_addVertex v g : P v -> within P g -> within P (Graph.addVertex v g).
Proof.
  intros Hv [Hwf HP]. split; [now apply wf_addVertex|].
  apply Forall_forall. intros w Hw. apply addVertex_vertices in Hw.
  destruct Hw as [->|Hw]; [assumption|].
  now apply (proj1 (Forall_forall P _) HP).
Qed.

Lemma within_addEdge u v g :
  P u -> P v -> within P g -> within P (Graph.addEdge u v g).
Proof.
  intros Hu Hv [Hwf HP]. split; [now apply wf_addEdge|].
  apply Forall_forall. intros w Hw. apply addEdge_vertices in Hw.
  destruct Hw as [->|[->|Hw]]; [assumption..|].
  now apply (proj1 (Forall_forall P _) HP).
Qed.

Lemma addVertex_relabel v g :
  P v -> within P g ->
  Graph.addVertex (f v) (relabel f g) = relabel f (Graph.addVertex v g).
Proof.
  intros Hv [_ HP]. unfold Graph.addVertex. simpl.
  rewrite (mem_relabel v _ Hv HP).
  destruct (Graph.mem v (Graph.vertices g)); [reflexivity|].
  unfold relabel. simpl. now rewrite map_app.
Qed.

Lemma addEdge_relabel u v g :
  P u -> P v -> within P g ->
  Graph.addEdge (f u) (f v) (relabel f g) = relabel f (Graph.addEdge u v g).
Proof.
  intros Hu Hv Hg. unfold Graph.addEdge. cbv zeta.
  rewrite addVertex_relabel by assumption.
  rewrite addVertex_relabel by (try assumption; now apply within_addVertex).
  unfold relabel. simpl. now rewrite map_app.
Qed.

Lemma ready_relabel es pending v :
  P v -> Forall P pending ->
  Forall (fun e => P (fst e) /\ P (snd e)) es ->
  Graph.ready (map (fun e => (f (fst e), f (snd e))) es) (map f pending) (f v)
  = Graph.ready es pending v.
Proof.
  intros Hv Hp Hes. unfold Graph.ready. f_equal.
  induction Hes as [|e es [Ha Hb] _ IH]; simpl; [reflexivity|].
  now rewrite IH, eqb_relabel, mem_relabel.
Qed.

Lemma find_relabel es pending : forall l,
  Forall P pending -> Forall P l ->
  Forall (fun e => P (fst e) /\ P (snd e)) es ->
  find (Graph.ready (map (fun e => (f (fst e), f (snd e))) es) (map f pending))
       (map f l)
  = option_map f (find (Graph.ready es pending) l).
Proof.
  intros l Hp Hl Hes. induction Hl as [|v l Hv _ IH]; simpl; [reflexivity|].
  rewrite ready_relabel by assumption.
  destruct (Graph.ready es pending v); [reflexivity | exact IH].
Qed.

Lemma remove_relabel v l :
  P v -> Forall P l ->
  Graph.remove (f v) (map f l) = map f (Graph.remove v l).
Proof.
  intros Hv Hl. unfold Graph.remove.
  induction Hl as [|w l Hw _ IH]; simpl; [reflexivity|].
  rewrite eqb_relabel by assumption.
  destruct (String.eqb w v); simpl; now rewrite IH.
Qed.

Lemma Forall_remove v l : Forall P l -> Forall P (Graph.remove v l).
Proof.
  intros H. apply Forall_forall. intros w Hw. apply In_remove in Hw.
  now apply (proj1 (Forall_forall P _) H).
Qed.

Lemma sort_loop_relabel es fuel : forall pending,
  Forall P pending ->
  Forall (fun e => P (fst e) /\ P (snd e)) es ->
  Graph.sort_loop fuel (map (fun e => (f (fst e), f (snd e))) es)
                  (map f pending)
  = option_map (map f) (Graph.sort_loop fuel es pending).
Proof.
  induction fuel as [|k IH]; intros pending Hp Hes.
  - now destruct pending.
  - destruct pending as [|p0 pending']; [reflexivity|].
    remember (p0 :: pending') as pending eqn:Hpe.
    assert (forall es q, q <> [] ->
              Graph.sort_loop (S k) es q =
              match find (Graph.ready es q) q with
              | None => None
              | Some v => option_map (cons v)
                            (Graph.sort_loop k es (Graph.remove v q))
              end) as Eq.
    { intros es' q Hq. destruct q; [congruence | reflexivity]. }
    rewrite !Eq by (subst; discriminate).
    rewrite find_relabel by assumption.
    destruct (find (Graph.ready es pending) pending) as [v|] eqn:F;
      [|reflexivity].
    cbn [option_map].
    assert (P v) as Hv.
    { apply find_some in F. now apply (proj1 (Forall_forall P _) Hp). }
    rewrite remove_relabel by assumption.
    rewrite IH by (try assumption; now apply Forall_remove).
    destruct (Graph.sort_loop k es (Graph.remove v pending)); reflexivity.
Qed.

Lemma within_edges g :
  within P g -> Forall (fun e => P (fst e) /\ P (snd e)) (Graph.edges g).
Proof.
  intros [Hwf HP]. apply Forall_forall. intros [a b] Hin.
  destruct (Hwf a b Hin) as [Ha Hb]. simpl.
  split; now apply (proj1 (Forall_forall P _) HP).
Qed.

Lemma topologicalSort_relabel g :
  within P g ->
  Graph.topologicalSort (relabel f g)
  = match Graph.topologicalSort g with
    | inl e => inl e
    | inr l => inr (map f l)
    end.
Proof.
  intros Hg. unfold Graph.topologicalSort. simpl.
  rewrite length_map, sort_loop_relabel;
    [|apply Hg | now apply within_edges].
  destruct (Graph.sort_loop _ _ _); reflexivity.
Qed.

End Relabelling.

(** ** Renaming the identifiers of packages *)

Section Renaming.

Lemma rename_cons a us1 b us2 x :
  rename (a :: us1) (b :: us2) x
  = if String.eqb a x then b else rename us1 us2 x.
Proof. unfold rename. simpl. now destruct (String.eqb a x). Qed.

Lemma rename_notin us1 : forall us2 x,
  ~ In x us1 -> rename us1 us2 x = x.
Proof.
  induction us1 as [|a us1 IH]; intros us2 x Hx; [reflexivity|].
  destruct us2 as [|b us2]; [reflexivity|].
  rewrite rename_cons. destruct (String.eqb_spec a x) as [->|Hne].
  - exfalso. apply Hx. now left.
  - apply IH. intros H. apply Hx. now right.
Qed.

Lemma rename_in us1 : forall us2 x,
  length us1 = length us2 -> In x us1 -> In (rename us1 us2 x) us2.
Proof.
  induction us1 as [|a us1 IH]; intros us2 x Hl Hx; [destruct Hx|].
  destruct us2 as [|b us2]; [discriminate|].
  rewrite rename_cons. destruct (String.eqb_spec a x) as [->|Hne].
  - now left.
  - right. apply IH; [simpl in Hl; lia|]. destruct Hx; [congruence|assumption].
Qed.

Lemma rename_map us1 : forall us2,
  NoDup us1 -> length us1 = length us2 -> map (rename us1 us2) us1 = us2.
Proof.
  induction us1 as [|a us1 IH]; intros us2 Hnd Hl.
  - destruct us2; [reflexivity | discriminate].
  - destruct us2 as [|b us2]; [discriminate|].
    inversion Hnd as [|? ? Ha Hnd']; subst. simpl.
    rewrite rename_cons, String.eqb_refl. f_equal.
    rewrite <- (IH us2 Hnd') at 2 by (simpl in Hl; lia).
    apply map_ext_in. intros x Hx. rewrite rename_cons.
    destruct (String.eqb_spec a x) as [->|Hne]; [tauto | reflexivity].
Qed.

Lemma rename_inj_in us1 : forall us2 x y,
  NoDup us2 -> length us1 = length us2 ->
  In x us1 -> In y us1 -> rename us1 us2 x = rename us1 us2 y -> x = y.
Proof.
  induction us1 as [|a us1 IH]; intros us2 x y Hnd Hl Hx Hy; [destruct Hx|].
  destruct us2 as [|b us2]; [discriminate|].
  inversion Hnd as [|? ? Hb Hnd']; subst.
  assert (length us1 = length us2) as Hl' by (simpl in Hl; lia).
  rewrite !rename_cons.
  destruct (String.eqb_spec a x) as [->|Hax];
    destruct (String.eqb_spec x y) as [->|Hxy]; try tauto.
  - destruct (String.eqb_spec x y); [tauto|].
    intros E. exfalso. apply Hb. rewrite E. apply rename_in; [assumption|].
    destruct Hy; [congruence | assumption].
  - destruct (String.eqb_spec a y) as [->|Hay].
    + intros E. exfalso. apply Hb. rewrite <- E. apply rename_in; [assumption|].
      destruct Hx; [congruence | assumption].
    + intros E. exfalso. apply Hxy. apply (IH us2); try assumption.
      * destruct Hx; [congruence | assumption].
      * destruct Hy; [congruence | assumption].
Qed.

(** The renaming between two runs is injective on the identifiers of the
    first run and the names that are not identifiers of the second. *)
Lemma rename_inj us1 us2 :
  NoDup us2 -> length us1 = length us2 ->
  inj_on (rename us1 us2) (fun x => In x us1 \/ ~ In x us2).
Proof.
  intros Hnd Hl x y Hx Hy E.
  destruct (in_dec string_dec x us1) as [Ix|Nx];
    destruct (in_dec string_dec y us1) as [Iy|Ny].
  - now apply (rename_inj_in us1 us2).
  - rewrite (rename_notin us1 us2 y Ny) in E.
    destruct Hy as [?|Hy]; [tauto|]. exfalso. apply Hy. rewrite <- E.
    now apply rename_in.
  - rewrite (rename_notin us1 us2 x Nx) in E.
    destruct Hx as [?|Hx]; [tauto|]. exfalso. apply Hx. rewrite E.
    now apply rename_in.
  - now rewrite !rename_notin in E.
Qed.

Lemma Packager_set_new p store :
  ~ In (uuid p) (map uuid store) -> Packager_set p store = store ++ [p].
Proof.
  induction store as [|q r IH]; intros H; simpl; [reflexivity|].
  destruct (String.eqb_spec (uuid q) (uuid p)) as [E|_].
  - exfalso. apply H. left. assumption.
  - rewrite IH; [reflexivity|]. intros Hin. apply H. now right.
Qed.

(** With distinct identifiers [init] stores the packages in the order of
    the scan. *)
Lemma Packager_init_combine dirs : forall us store,
  NoDup (map uuid store ++ us) ->
  Packager_init dirs us store
  = store ++ map (fun ud => mkPackage (fst ud) (snd ud)) (combine us dirs).
Proof.
  induction dirs as [|d dirs IH]; intros us store Hnd.
  - destruct us; simpl; now rewrite app_nil_r.
  - destruct us as [|u us]; simpl; [now rewrite app_nil_r|].
    rewrite Packager_set_new.
    + rewrite IH.
      * now rewrite <- app_assoc.
      * rewrite map_app. simpl. now rewrite <- app_assoc.
    + apply NoDup_remove_2 in Hnd. intros Hin. apply Hnd.
      apply in_or_app. now left.
Qed.

Lemma combine_rekey f us : forall dirs,
  map (fun ud => mkPackage (fst ud) (snd ud)) (combine (map f us) dirs)
  = map (rekey f)
        (map (fun ud => mkPackage (fst ud) (snd ud)) (combine us dirs)).
Proof.
  induction us as [|u us IH]; intros dirs; [reflexivity|].
  destruct dirs as [|d dirs]; [reflexivity|]. simpl. now rewrite IH.
Qed.

End Renaming.

(** ** Two runs of a packager *)

Section Simulation.

Lemma forEach_map_result {S A T T'} (phi : T -> T') (Inv : T -> Prop)
      (body1 : T -> A -> M S T) (body2 : T' -> A -> M S T') (l : list A) :
  (forall t a s, In a l -> Inv t ->
     body2 (phi t) a s = map_result phi (body1 t a s) /\
     forall t' s', body1 t a s = (inr t', s') -> Inv t') ->
  forall t s, Inv t ->
    forEach l body2 (phi t) s = map_result phi (forEach l body1 t s) /\
    forall t' s', forEach l body1 t s = (inr t', s') -> Inv t'.
Proof.
  induction l as [|a r IH]; intros Hb t s Ht.
  - split; [reflexivity|]. intros t' s' H. now injection H as <- _.
  - destruct (Hb t a s (or_introl eq_refl) Ht) as [E I].
    cbn [forEach]. unfold bind. rewrite E.
    destruct (body1 t a s) as [[e|t1] s1]; simpl.
    + split; [reflexivity | discriminate].
    + apply IH; [|now apply (I t1 s1)].
      intros t0 a0 s0 Hin. apply Hb. now right.
Qed.

Lemma find_index_map {A B} (g : B -> bool) (h : A -> B) l :
  find_index g (map h l) = find_index (fun a => g (h a)) l.
Proof.
  induction l as [|a r IH]; simpl; [reflexivity|]. now rewrite IH.
Qed.

Lemma find_index_none {A} (g : A -> bool) l :
  (forall a, In a l -> g a = false) -> find_index g l = None.
Proof.
  induction l as [|a r IH]; intros H; simpl; [reflexivity|].
  rewrite (H a (or_introl eq_refl)), IH; [reflexivity|].
  intros b Hb. apply H. now right.
Qed.

Lemma update_map {A B} (h : A -> B) (g : B -> B) (g' : A -> A) l :
  (forall a, g (h a) = h (g' a)) ->
  forall j, update j g (map h l) = map h (update j g' l).
Proof.
  intros H. induction l as [|a r IH]; intros j; simpl; [reflexivity|].
  destruct j; simpl; [now rewrite H | now rewrite IH].
Qed.

Lemma forEach_ext_in {S A T} (body1 body2 : T -> A -> M S T) (l : list A) :
  (forall t a s, In a l -> body1 t a s = body2 t a s) ->
  forall t s, forEach l body1 t s = forEach l body2 t s.
Proof.
  induction l as [|a r IH]; intros H t s; [reflexivity|].
  cbn [forEach]. unfold bind. rewrite (H t a s (or_introl eq_refl)).
  destruct (body2 t a s) as [[e|t1] s1]; [reflexivity|].
  apply IH. intros t0 a0 s0 Hin. apply H. now right.
Qed.

Lemma forEach_map {S A B T} (h : A -> B) (body : T -> B -> M S T) l :
  forall t s,
    forEach (map h l) body t s = forEach l (fun t a => body t (h a)) t s.
Proof.
  induction l as [|a r IH]; intros t s; [reflexivity|].
  cbn [map forEach]. unfold bind.
  destruct (body t (h a) s) as [[e|t1] s1]; [reflexivity | apply IH].
Qed.

Lemma forEach_same_outcome {A T T'}
      (body1 : T -> A -> M (list string) T)
      (body2 : T' -> A -> M (list string) T') (l : list A) :
  (forall t1 t2 a s, In a l -> same_outcome (body1 t1 a s) (body2 t2 a s)) ->
  forall t1 t2 s, same_outcome (forEach l body1 t1 s) (forEach l body2 t2 s).
Proof.
  induction l as [|a r IH]; intros H t1 t2 s.
  - split; [reflexivity | exact I].
  - cbn [forEach]. unfold bind.
    destruct (H t1 t2 a s (or_introl eq_refl)) as [Hs Ho].
    destruct (body1 t1 a s) as [[e1|u1] s1];
      destruct (body2 t2 a s) as [[e2|u2] s2]; simpl in Hs, Ho; subst;
      try contradiction.
    + split; [reflexivity | reflexivity].
    + apply IH. intros x1 x2 a0 s0 Hin. apply H. now right.
Qed.

Lemma combine_map_r {A B C} (h : B -> C) (l : list A) : forall (r : list B),
  combine l (map h r) = map (fun ab => (fst ab, h (snd ab))) (combine l r).
Proof.
  induction l as [|a l IH]; intros r; [reflexivity|].
  destruct r as [|b r]; [reflexivity|]. simpl. now rewrite IH.
Qed.

End Simulation.

Section TwoRuns.

Variables us1 us2 : list string.
Hypothesis distinct2 : NoDup us2.
Hypothesis same_length : length us1 = length us2.
Hypothesis defined1 : ~ In "undefined" us1.
Hypothesis defined2 : ~ In "undefined" us2.

Let f : string -> string := rename us1 us2.
Let P : string -> Prop := apart us1 us2.

Lemma f_inj : inj_on f P.
Proof. now apply rename_inj. Qed.

Lemma f_undefined : f "undefined" = "undefined".
Proof. now apply rename_notin. Qed.

Lemma keyed_nth store i p :
  keyed us1 us2 store -> nth_error store i = Some p ->
  In (uuid p) us1 /\
  forall d, In d (declared p) -> ~ In d us1 /\ ~ In d us2.
Proof.
  intros H E. apply nth_error_In in E.
  now apply (proj1 (Forall_forall _ _) H).
Qed.

Lemma keyed_update store j :
  keyed us1 us2 store -> keyed us1 us2 (update j (setType "core") store).
Proof.
  intros H. revert j. induction H as [|p r Hp Hr IH]; intros j; simpl.
  - constructor.
  - destruct j; constructor; try assumption. apply IH.
Qed.

Lemma findPackage_rekey store d :
  keyed us1 us2 store -> ~ In d us1 -> ~ In d us2 ->
  findPackage (map (rekey f) store) d = findPackage store d.
Proof.
  intros Hk H1 H2. unfold findPackage. rewrite !find_index_map. simpl.
  rewrite (find_index_none (fun a => String.eqb (f (uuid a)) d)).
  2:{ intros a Ha. apply String.eqb_neq. intros E. apply H2. rewrite <- E.
      apply rename_in; [assumption|].
      now apply (proj1 (Forall_forall _ _) Hk a Ha). }
  rewrite (find_index_none (fun p => String.eqb (uuid p) d)).
  2:{ intros a Ha. apply String.eqb_neq. intros E. apply H1. rewrite <- E.
      now apply (proj1 (Forall_forall _ _) Hk a Ha). }
  reflexivity.
Qed.

Lemma typeAt_rekey store i : typeAt (map (rekey f) store) i = typeAt store i.
Proof.
  unfold typeAt. rewrite nth_error_map. now destruct (nth_error store i).
Qed.

Lemma basenameAt_rekey store i :
  basenameAt (map (rekey f) store) i = basenameAt store i.
Proof.
  unfold basenameAt. rewrite nth_error_map. now destruct (nth_error store i).
Qed.

Lemma uuidAt_rekey store i :
  uuidAt (map (rekey f) store) i = f (uuidAt store i).
Proof.
  unfold uuidAt. rewrite nth_error_map.
  destruct (nth_error store i); [reflexivity | now rewrite f_undefined].
Qed.

Lemma uuidAt_P store i : keyed us1 us2 store -> P (uuidAt store i).
Proof.
  intros Hk. unfold uuidAt. destruct (nth_error store i) as [p|] eqn:E.
  - left. now apply (keyed_nth store i p).
  - right. exact defined2.
Qed.

Lemma resolveDependency_rekey i name parent st d log :
  inner_ok us1 us2 st -> P name -> ~ In d us1 -> ~ In d us2 ->
  resolveDependency i (f name) parent (rekey_store f st) d log
  = map_result (rekey_store f) (resolveDependency i name parent st d log) /\
  forall st' log', resolveDependency i name parent st d log = (inr st', log') ->
                   inner_ok us1 us2 st'.
Proof.
  destruct st as [store g]. intros [Hk Hg] Hn H1 H2. simpl in Hk, Hg.
  cbv beta iota delta [resolveDependency rekey_store fst snd].
  rewrite (findPackage_rekey store d Hk H1 H2).
  destruct (findPackage store d) as [j|].
  - rewrite !typeAt_rekey, basenameAt_rekey.
    destruct (String.eqb (typeAt store i) "core"
              && negb (String.eqb (typeAt store j) "core")).
    + unfold bind, console_log, ret. simpl. split.
      * rewrite (update_map (rekey f) (setType "core") (setType "core"))
          by reflexivity.
        rewrite uuidAt_rekey, (addEdge_relabel f P f_inj);
          [reflexivity | | assumption..].
        apply uuidAt_P. now apply keyed_update.
      * intros st' log' H. injection H as <- _. split; simpl.
        -- now apply keyed_update.
        -- apply within_addEdge; [|assumption..].
           apply uuidAt_P. now apply keyed_update.
    + unfold bind, ret. simpl. split.
      * rewrite uuidAt_rekey, (addEdge_relabel f P f_inj);
          [reflexivity | | assumption..].
        now apply uuidAt_P.
      * intros st' log' H. injection H as <- _. split; simpl; [assumption|].
        apply within_addEdge; [|assumption..]. now apply uuidAt_P.
  - rewrite basenameAt_rekey. unfold bind, console_log, ret. simpl. split.
    + rewrite <- f_undefined at 1. rewrite (addEdge_relabel f P f_inj);
        [reflexivity | | assumption..].
      right. exact defined2.
    + intros st' log' H. injection H as <- _. split; simpl; [assumption|].
      apply within_addEdge; [|assumption..]. right. exact defined2.
Qed.


Lemma resolveDependencies_rekey i name parent deps st log :
  inner_ok us1 us2 st -> P name ->
  (forall d, In d deps -> ~ In d us1 /\ ~ In d us2) ->
  forEach deps (resolveDependency i (f name) parent) (rekey_store f st) log
  = map_result (rekey_store f)
               (forEach deps (resolveDependency i name parent) st log) /\
  forall st' log',
    forEach deps (resolveDependency i name parent) st log = (inr st', log') ->
    inner_ok us1 us2 st'.
Proof.
  intros Hst Hn Hd.
  apply (forEach_map_result (rekey_store f) (inner_ok us1 us2)); [|assumption].
  intros t a s Ha Ht. apply resolveDependency_rekey; try assumption;
    now apply Hd.
Qed.

Lemma resolvePackage_rekey st i log :
  outer_ok us1 us2 st ->
  resolvePackage (rekey_state f st) i log
  = map_result (rekey_state f) (resolvePackage st i log) /\
  forall st' log', resolvePackage st i log = (inr st', log') -> outer_ok us1 us2 st'.
Proof.
  destruct st as [[store g] m]. intros (Hk & Hg & Hm). simpl in Hk, Hg, Hm.
  cbv beta iota delta [resolvePackage rekey_state fst snd].
  rewrite nth_error_map.
  destruct (nth_error store i) as [package|] eqn:E; cbn [option_map].
  - destruct (keyed_nth store i package Hk E) as [Hu Hd].
    assert (P (nodeName package)) as Hn by now left.
    change (nodeName (rekey f package)) with (f (nodeName package)).
    change (info (rekey f package)) with (info package).
    rewrite (addVertex_relabel f P f_inj) by assumption.
    destruct (resolveDependencies_rekey i (nodeName package)
                (Path.basename (pkgParentSourceTree (info package)))
                (declared package)
                (store, Graph.addVertex (nodeName package) g) log)
      as [Eq Inv]; [split; [assumption | now apply within_addVertex]
                   | assumption | assumption |].
    unfold declared in Eq, Inv.
    cbv beta iota delta [rekey_store fst snd] in Eq. unfold bind. rewrite Eq.
    destruct (forEach _ _ (store, Graph.addVertex (nodeName package) g) log)
      as [[e|[s1 g1]] l1] eqn:F; simpl.
    + split; [reflexivity | discriminate].
    + split; [reflexivity|]. intros st' log' H. injection H as <- _.
      destruct (Inv (s1, g1) l1 eq_refl) as [Hk1 Hg1].
      split; [exact Hk1|]. split; [exact Hg1|]. simpl.
      constructor; [exact Hn | assumption].
  - split; [reflexivity|]. intros st' log' H. injection H as <- _.
    split; [exact Hk|]. split; [exact Hg | exact Hm].
Qed.

Lemma resolve_rekey store log :
  keyed us1 us2 store ->
  resolve (map (rekey f) store) log
  = map_result (rekey_state f) (resolve store log) /\
  forall st' log', resolve store log = (inr st', log') -> outer_ok us1 us2 st'.
Proof.
  intros Hk. unfold resolve. rewrite length_map.
  apply (forEach_map_result (rekey_state f) (outer_ok us1 us2) resolvePackage
           resolvePackage (seq 0 (length store))
           (fun t a s _ Ht => resolvePackage_rekey t a s Ht)
           (store, Graph.empty, []) log).
  split; [assumption|]. split; [|constructor].
  split; [apply wf_empty | constructor].
Qed.

Lemma lookup_rekey {A} (m : list (string * A)) v :
  P v -> Forall (fun ki => P (fst ki)) m ->
  lookup (map (fun ki => (f (fst ki), snd ki)) m) (f v) = lookup m v.
Proof.
  intros Hv Hm. induction Hm as [|[k a] m Hk _ IH]; simpl; [reflexivity|].
  simpl in Hk. rewrite (eqb_relabel f P f_inj) by assumption. now rewrite IH.
Qed.

Lemma collectPackages_rekey store m sorted :
  Forall P sorted -> Forall (fun ki => P (fst ki)) m ->
  collectPackages (map (rekey f) store)
                  (map (fun ki => (f (fst ki), snd ki)) m) (map f sorted)
  = map (rekey f) (collectPackages store m sorted).
Proof.
  intros Hs Hm. unfold collectPackages.
  induction Hs as [|v sorted Hv _ IH]; simpl; [reflexivity|].
  rewrite map_app, IH, lookup_rekey by assumption. f_equal.
  destruct (lookup m v) as [i|]; [|reflexivity].
  rewrite nth_error_map. now destruct (nth_error store i).
Qed.

Lemma collectPackages_incl store m sorted :
  incl (collectPackages store m sorted) store.
Proof.
  intros p Hp. unfold collectPackages in Hp. apply in_flat_map in Hp.
  destruct Hp as [v [_ Hp]]. destruct (lookup m v) as [i|]; [|destruct Hp].
  destruct (nth_error store i) as [q|] eqn:E; [|destruct Hp].
  destruct Hp as [<-|[]]. now apply nth_error_In in E.
Qed.

(** [orderedPackages] of the second run is [orderedPackages] of the first
    with every package under its second identifier. *)
Lemma orderedPackages_rekey store log :
  keyed us1 us2 store ->
  orderedPackages (map (rekey f) store) log
  = map_result (fun sl => (map (rekey f) (fst sl), map (rekey f) (snd sl)))
               (orderedPackages store log) /\
  forall s' l log',
    orderedPackages store log = (inr (s', l), log') ->
    keyed us1 us2 s' /\ incl l s'.
Proof.
  intros Hk. rewrite !orderedPackages_unfold.
  destruct (resolve_rekey store log Hk) as [Eq Inv]. rewrite Eq.
  destruct (resolve store log) as [[e|[[s1 g1] m1]] l1]; simpl.
  - split; [reflexivity | discriminate].
  - destruct (Inv (s1, g1, m1) l1 eq_refl) as (Hk1 & Hg1 & Hm1).
    simpl in Hk1, Hg1, Hm1.
    rewrite (topologicalSort_relabel f P f_inj) by assumption.
    destruct (Graph.topologicalSort g1) as [e|sorted] eqn:T.
    + split; [reflexivity | discriminate].
    + split.
      * simpl. rewrite collectPackages_rekey; [reflexivity | | assumption].
        destruct (topologicalSort_sound g1 sorted (proj1 Hg1) T) as [Hin _].
        apply Forall_forall. intros v Hv. apply Hin in Hv.
        now apply (proj1 (Forall_forall P _) (proj2 Hg1)).
      * intros s' l log' H. injection H as <- <- _.
        split; [assumption | apply collectPackages_incl].
Qed.


Lemma dependenciesFor_rekey store p log :
  keyed us1 us2 store ->
  (forall d, In d (declared p) -> ~ In d us1 /\ ~ In d us2) ->
  dependenciesFor (map (rekey f) store) (rekey f p) log
  = dependenciesFor store p log.
Proof.
  intros Hk Hd. unfold dependenciesFor.
  change (info (rekey f p)) with (info p).
  unfold declared in Hd.
  destruct (dependencies (info p)) as [deps|]; [|reflexivity].
  unfold bind.
  rewrite (forEach_ext_in _
             (fun str '(idx, depName) =>
                match findPackage store depName with
                | None =>
                    console_log (manifest_missing depName (basename (info p))) ;;;
                    ret str
                | Some _ =>
                    ret (str ++ "      " ++ dq ++ depName ++ dq
                             ++ (if Nat.ltb idx (length deps - 1)
                                 then "," ++ nl else EmptyString))%string
                end)); [reflexivity|].
  intros t [idx d] s Hin. apply in_combine_r in Hin.
  destruct (Hd d Hin) as [H1 H2].
  now rewrite (findPackage_rekey store d Hk H1 H2).
Qed.

Lemma manifest_entry_outcome store count p t1 t2 idx log :
  keyed us1 us2 store ->
  (forall d, In d (declared p) -> ~ In d us1 /\ ~ In d us2) ->
  same_outcome
    ((entry <- manifest_entry store count idx p ;; ret (t1 ++ entry)%string) log)
    ((entry <- manifest_entry (map (rekey f) store) count idx (rekey f p) ;;
      ret (t2 ++ entry)%string) log).
Proof.
  intros Hk Hd. unfold manifest_entry, bind.
  rewrite (dependenciesFor_rekey store p log Hk Hd).
  destruct (dependenciesFor store p log) as [[e|deps] l1]; simpl.
  - split; reflexivity.
  - split; [reflexivity | exact I].
Qed.

Lemma manifest_outcome store packages log :
  keyed us1 us2 store -> incl packages store ->
  same_outcome (manifest store packages log)
               (manifest (map (rekey f) store) (map (rekey f) packages) log).
Proof.
  intros Hk Hi. unfold manifest.
  rewrite length_map, combine_map_r, forEach_map.
  apply forEach_same_outcome.
  intros t1 t2 [idx p] s Hin. apply in_combine_r in Hin.
  apply manifest_entry_outcome; [assumption|].
  apply Hi in Hin. now apply (proj1 (Forall_forall _ _) Hk p Hin).
Qed.

Lemma orderedCorePackageFiles_rekey packages log :
  orderedCorePackageFiles (map (rekey f) packages) log
  = orderedCorePackageFiles packages log.
Proof. unfold orderedCorePackageFiles. now rewrite forEach_map. Qed.

(** The second run gives the packages of the first under their second
    identifiers, the same ordered files and the same console. *)
Lemma run_rekey dirs log :
  NoDup us1 -> fresh dirs us1 -> fresh dirs us2 ->
  match run dirs us1 log, run dirs us2 log with
  | (inr (ps1, _, fs1), log1), (inr (ps2, _, fs2), log2) =>
      ps2 = map (rekey f) ps1 /\ fs1 = fs2 /\ log1 = log2
  | (inl e1, log1), (inl e2, log2) => e1 = e2 /\ log1 = log2
  | _, _ => False
  end.
Proof.
  intros distinct1 Hf1 Hf2. unfold run.
  rewrite !Packager_init_combine by (simpl; assumption). simpl app.
  replace (combine us2 dirs) with (combine (map f us1) dirs)
    by (unfold f; now rewrite rename_map).
  rewrite combine_rekey.
  set (store := map (fun ud => mkPackage (fst ud) (snd ud)) (combine us1 dirs)).
  assert (keyed us1 us2 store) as Hk.
  { apply Forall_forall. intros p Hp. subst store.
    apply in_map_iff in Hp. destruct Hp as [[u d] [<- Hin]]. simpl.
    split; [now apply in_combine_l in Hin|].
    intros name Hname. unfold declared in Hname. simpl in Hname.
    pose proof (in_combine_r _ _ _ _ Hin) as Hd.
    split; intros Hu.
    - now apply (proj2 (Hf1 name Hu) d name).
    - now apply (proj2 (Hf2 name Hu) d name). }
  destruct (orderedPackages_rekey store log Hk) as [Eq Inv].
  unfold bind. rewrite Eq.
  destruct (orderedPackages store log) as [[e|[s1 ps1]] l1];
    cbv beta iota delta [map_result fst snd].
  - split; reflexivity.
  - destruct (Inv s1 ps1 l1 eq_refl) as [Hk1 Hi1].
    destruct (manifest_outcome s1 ps1 l1 Hk1 Hi1) as [Hs Ho].
    destruct (manifest s1 ps1 l1) as [[e|t1] l2];
      destruct (manifest (map (rekey f) s1) (map (rekey f) ps1) l1)
        as [[e'|t2] l2']; simpl in Hs, Ho; subst; try contradiction.
    + split; reflexivity.
    + rewrite orderedCorePackageFiles_rekey.
      destruct (orderedCorePackageFiles ps1 l2') as [[e|fs] l3]; simpl.
      * split; reflexivity.
      * repeat split; reflexivity.
Qed.

End TwoRuns.

Section Determinism.

Lemma fresh_defined dirs us : fresh dirs us -> ~ In "undefined" us.
Proof. intros H Hin. now destruct (H "undefined" Hin). Qed.




End Determinism.

(** * Further properties of the code *)

(** ** Looking a package up *)

Section FindPackage.

Lemma find_index_Some {A} (f : A -> bool) l : forall j,
  find_index f l = Some j ->
  exists a, nth_error l j = Some a /\ f a = true /\
            forall i b, i < j -> nth_error l i = Some b -> f b = false.
Proof.
  induction l as [|x r IH]; intros j H; simpl in H; [discriminate|].
  destruct (f x) eqn:E.
  - injection H as <-. exists x. repeat split; [assumption|]. intros i b Hi. lia.
  - destruct (find_index f r) as [k|] eqn:F; [|discriminate].
    injection H as <-. destruct (IH k eq_refl) as (a & Ha & Hf & Hb).
    exists a. repeat split; try assumption.
    intros i b Hi Hn. destruct i; simpl in Hn.
    + now injection Hn as <-.
    + apply (Hb i b); [lia | assumption].
Qed.

Lemma find_index_None {A} (f : A -> bool) l :
  find_index f l = None -> forall a, In a l -> f a = false.
Proof.
  induction l as [|x r IH]; intros H a Ha; simpl in H; [destruct Ha|].
  destruct (f x) eqn:E; [discriminate|].
  destruct (find_index f r) eqn:F; [discriminate|].
  destruct Ha as [<-|Ha]; [assumption | now apply IH].
Qed.

End FindPackage.

(** ** What the promotion loop changes *)

Section PromotionOnly.

Lemma typeAt_update_other store j k :
  k <> j -> typeAt (update j (setType "core") store) k = typeAt store k.
Proof.
  intros H. unfold typeAt. rewrite nth_error_update.
  apply Nat.eqb_neq in H. now rewrite H.
Qed.

(** One dependency promotes nothing but the dependency of a core package. *)
Lemma resolveDependency_only i name parent store g d log store' g' log' k :
  resolveDependency i name parent (store, g) d log = (inr (store', g'), log') ->
  typeAt store' k = "core" ->
  typeAt store k = "core" \/
  (typeAt store i = "core" /\ findPackage store d = Some k).
Proof.
  unfold resolveDependency.
  destruct (findPackage store d) as [j|] eqn:F.
  - destruct (String.eqb (typeAt store i) "core"
              && negb (String.eqb (typeAt store j) "core")) eqn:C.
    + unfold bind, console_log, ret. simpl. intros H. injection H as <- _ _.
      intros T. destruct (Nat.eq_dec k j) as [->|Hne].
      * right. apply andb_true_iff in C. destruct C as [C _].
        apply String.eqb_eq in C. now split.
      * left. now rewrite typeAt_update_other in T.
    + unfold bind, ret. simpl. intros H. injection H as <- _ _. now left.
  - unfold bind, console_log, ret. simpl. intros H. injection H as <- _ _.
    now left.
Qed.

Lemma resolveDependencies_only i name parent deps : forall store g log store' g' log' k,
  forEach deps (resolveDependency i name parent) (store, g) log
    = (inr (store', g'), log') ->
  typeAt store' k = "core" ->
  typeAt store k = "core" \/
  (typeAt store i = "core" /\
   exists d, In d deps /\ findPackage store d = Some k).
Proof.
  induction deps as [|d r IH]; intros store g log store' g' log' k H T.
  - simpl in H. injection H as <- _ _. now left.
  - cbn [forEach] in H. unfold bind at 1 in H.
    destruct (resolveDependency_spec i name parent store g d log)
      as (s1 & g1 & l1 & E1 & P1 & _).
    rewrite E1 in H.
    destruct (IH _ _ _ _ _ _ k H T) as [T1|(Ti & d' & Hd' & F')].
    + destruct (resolveDependency_only _ _ _ _ _ _ _ _ _ _ k E1 T1)
        as [T0|[Ti F]]; [now left|].
      right. split; [assumption|]. exists d. split; [now left | assumption].
    + right. rewrite (promoted_findPackage store s1 d' P1) in F'.
      assert (typeAt store i = "core") as Ti0.
      { destruct (resolveDependency_only _ _ _ _ _ _ _ _ _ _ i E1 Ti)
          as [?|[? _]]; assumption. }
      split; [assumption|]. exists d'. split; [now right | assumption].
Qed.

Lemma resolvePackage_only store g map i log store' g' map' log' k :
  resolvePackage (store, g, map) i log = (inr (store', g', map'), log') ->
  typeAt store' k = "core" ->
  typeAt store k = "core" \/ (typeAt store i = "core" /\ dependsOn store i k).
Proof.
  unfold resolvePackage.
  destruct (nth_error store i) as [package|] eqn:E.
  - unfold bind.
    destruct (forEach _ _ (store, Graph.addVertex (nodeName package) g) log)
      as [[e|[s1 g1]] l1] eqn:F; [discriminate|].
    unfold ret. intros H. injection H as <- _ _ _. simpl. intros T.
    destruct (resolveDependencies_only _ _ _ _ _ _ _ _ _ _ k F T)
      as [T0|(Ti & d & Hd & Hf)]; [now left|].
    right. split; [assumption|]. now exists package, d.
  - unfold ret. intros H. injection H as <- _ _ _. now left.
Qed.

(** What holds of the core packages when the loop has handled the positions
    below [k]. *)
Lemma resolve_loop_only store0 m : forall k st log st' log',
  promoted store0 (fst (fst st)) ->
  (forall j, typeAt (fst (fst st)) j = "core" ->
             typeAt store0 j = "core" \/
             exists i, i < k /\ coreAtItsTurn store0 i /\ dependsOn store0 i j) ->
  forEach (seq k m) resolvePackage st log = (inr st', log') ->
  forall j, typeAt (fst (fst st')) j = "core" ->
            typeAt store0 j = "core" \/
            exists i, coreAtItsTurn store0 i /\ dependsOn store0 i j.
Proof.
  induction m as [|m IH]; intros k st log st' log' P Hst H j T.
  - simpl in H. injection H as <- _.
    destruct (Hst j T) as [?|(i & _ & ? & ?)]; [now left | right; eauto].
  - destruct st as [[store g] map]. simpl in P, Hst.
    cbn [seq forEach] in H. unfold bind at 1 in H.
    destruct (resolvePackage_spec store g map k log)
      as (s1 & g1 & m1 & l1 & E1 & P1 & _).
    rewrite E1 in H.
    apply (IH (S k) (s1, g1, m1) l1 st' log'); try assumption.
    + simpl. now apply (promoted_trans _ store).
    + simpl. intros j' T'.
      destruct (resolvePackage_only _ _ _ _ _ _ _ _ _ j' E1 T')
        as [T0|[Tk D]].
      * destruct (Hst j' T0) as [?|(i & Hi & ? & ?)]; [now left|].
        right. exists i. split; [lia | now split].
      * right. exists k. split; [lia|]. split.
        -- destruct (Hst k Tk) as [?|(i & Hi & Ci & Di)].
           ++ now apply core_declared.
           ++ now apply (core_promoted store0 i k).
        -- destruct D as (q & d & Hq & Hd & Hf).
           destruct (nth_error store0 k) as [q0|] eqn:E0.
           ++ destruct (promoted_nth _ _ _ _ P E0) as [q' [Hq' Hs]].
              rewrite Hq in Hq'. injection Hq' as <-.
              exists q0, d. split; [exact E0|]. split.
              ** now rewrite <- (same_but_type_declared q0 q).
              ** now rewrite <- (promoted_findPackage store0 store).
           ++ rewrite (promoted_nth_None _ _ _ P E0) in Hq. discriminate.
Qed.

(** X2.  The loop of [orderedPackages] changes nothing of a package but its
    type, and only to core; and a package that is core afterwards was
    declared core or is declared as a dependency by a package that is core
    at its turn. *)
Theorem orderedPackages_promotes_only (store : Store) (log : list string) :
  promoted store (storeAfter store log) /\
  forall j, typeAt (storeAfter store log) j = "core" ->
            typeAt store j = "core" \/
            exists i, coreAtItsTurn store i /\ dependsOn store i j.
Proof.
  destruct (resolve_spec store log) as (s' & g & m & l' & E & A & P & _).
  split; [now rewrite A|]. rewrite A. intros j T.
  unfold resolve in E.
  apply (resolve_loop_only store (length store) 0 (store, Graph.empty, [])
           log (s', g, m) l'); try assumption.
  - apply promoted_refl.
  - simpl. intros j' T'. now left.
Qed.

End PromotionOnly.

(** ** The files that [orderFiles] returns *)

Section OrderFilesResults.

Lemma before_split l u v :
  Graph.before l u v -> exists s1 s2 s3, l = s1 ++ u :: s2 ++ v :: s3.
Proof.
  induction l as [|w r IH]; intros (Hu & Hv & Hlt); [destruct Hu|].
  destruct (String.eqb_spec w u) as [->|Hwu].
  - rewrite pos_head in Hlt.
    destruct (String.eqb_spec u v) as [->|Huv]; [rewrite pos_head in Hlt; lia|].
    destruct Hv as [Hv|Hv]; [congruence|].
    destruct (in_split _ _ Hv) as (s2 & s3 & ->).
    now exists [], s2, s3.
  - rewrite (pos_tail w u r Hwu) in Hlt.
    destruct (String.eqb_spec w v) as [->|Hwv]; [rewrite pos_head in Hlt; lia|].
    rewrite (pos_tail w v r Hwv) in Hlt.
    destruct Hu as [Hu|Hu]; [congruence|]. destruct Hv as [Hv|Hv]; [congruence|].
    destruct IH as (s1 & s2 & s3 & ->); [repeat split; [assumption..|lia]|].
    now exists (w :: s1), s2, s3.
Qed.

Lemma sort_loop_stuck g fuel : forall pending,
  length pending <= fuel ->
  Graph.sort_loop fuel (Graph.edges g) pending = None -> Graph.cyclic g.
Proof.
  induction fuel as [|k IH]; intros pending Hlen H.
  - destruct pending; [discriminate | simpl in Hlen; lia].
  - destruct pending as [|p0 pending']; [discriminate|].
    remember (p0 :: pending') as pending eqn:Hp.
    assert (Graph.sort_loop (S k) (Graph.edges g) pending =
            match find (Graph.ready (Graph.edges g) pending) pending with
            | None => None
            | Some v => option_map (cons v)
                          (Graph.sort_loop k (Graph.edges g)
                                           (Graph.remove v pending))
            end) as Eq by (subst pending; reflexivity).
    rewrite Eq in H. clear Eq.
    destruct (find (Graph.ready (Graph.edges g) pending) pending) as [w|] eqn:F.
    + apply find_some in F. destruct F as [Hw _].
      pose proof (remove_length_lt w pending Hw) as Hlt.
      destruct (Graph.sort_loop k (Graph.edges g) (Graph.remove w pending))
        eqn:R; [discriminate|].
      apply (IH (Graph.remove w pending)); [lia | assumption].
    + apply (stuck_cyclic g pending p0).
      * intros x Hx. exact (find_none _ _ F x Hx).
      * subst pending. now left.
Qed.

Lemma topologicalSort_throws g e :
  Graph.topologicalSort g = inl e -> e = CycleError /\ Graph.cyclic g.
Proof.
  unfold Graph.topologicalSort.
  destruct (Graph.sort_loop _ _ _) eqn:E; [discriminate|].
  intros H. injection H as <-. split; [reflexivity|].
  exact (sort_loop_stuck g _ (Graph.vertices g) (le_n _) E).
Qed.

Lemma lookup_Some_In {A} (m : list (string * A)) k a :
  lookup m k = Some a -> In (k, a) m.
Proof.
  induction m as [|[k' a'] m IH]; simpl; intros H; [discriminate|].
  destruct (String.eqb_spec k' k) as [->|Hne].
  - injection H as ->. now left.
  - right. now apply IH.
Qed.

Lemma lookup_key {A} (m : list (string * A)) k :
  In k (map fst m) -> exists a, lookup m k = Some a.
Proof.
  induction m as [|[k' a'] m IH]; simpl; intros H; [destruct H|].
  destruct (String.eqb_spec k' k) as [->|Hne]; [now exists a'|].
  destruct H as [H|H]; [congruence | now apply IH].
Qed.

Lemma collected_app map s1 s2 :
  collected map (s1 ++ s2) = collected map s1 ++ collected map s2.
Proof. unfold collected. apply flat_map_app. Qed.

Lemma collected_NoDup map (key : File -> string) sorted :
  (forall v f, lookup map v = Some f -> key f = v) ->
  NoDup sorted -> NoDup (collected map sorted).
Proof.
  intros Hk. induction sorted as [|v r IH]; intros Hnd; [constructor|].
  inversion Hnd as [|? ? Hnin Hnd']; subst.
  change (collected map (v :: r)) with
    (match lookup map v with Some dep => [dep] | None => [] end
     ++ collected map r).
  destruct (lookup map v) as [f|] eqn:L; simpl; [|now apply IH].
  constructor; [|now apply IH].
  rewrite collected_In. intros (w & Hw & Lw).
  apply Hk in L. apply Hk in Lw. congruence.
Qed.

Lemma NoDup_map_inj {A B} (h : A -> B) l a b :
  NoDup (map h l) -> In a l -> In b l -> h a = h b -> a = b.
Proof.
  induction l as [|x r IH]; simpl; intros Hnd Ha Hb E; [destruct Ha|].
  inversion Hnd as [|? ? Hnin Hnd']; subst.
  destruct Ha as [->|Ha], Hb as [->|Hb]; try reflexivity.
  - exfalso. apply Hnin. rewrite E. now apply in_map.
  - exfalso. apply Hnin. rewrite <- E. now apply in_map.
  - now apply IH.
Qed.

Lemma fold_addEdge_vertices_inv deps v : forall g w,
  In w (Graph.vertices (fold_left (fun g name => Graph.addEdge name v g) deps g)) ->
  In w (Graph.vertices g) \/ In w deps \/ (w = v /\ deps <> []).
Proof.
  induction deps as [|d r IH]; intros g w H; simpl in H; [now left|].
  apply IH in H. rewrite addEdge_vertices in H. simpl.
  destruct H as [[->|[->|H]]|[H|[-> _]]]; try tauto.
  - right. right. split; [reflexivity | discriminate].
  - right. right. split; [reflexivity | discriminate].
Qed.

Lemma fold_addEdge_edges_new deps v : forall g d,
  In d deps ->
  In (d, v) (Graph.edges (fold_left (fun g name => Graph.addEdge name v g) deps g)).
Proof.
  induction deps as [|x r IH]; intros g d H; [destruct H|]. simpl.
  destruct H as [->|H]; [|now apply IH].
  apply fold_addEdge_edges. rewrite addEdge_edges, in_app_iff. right. now left.
Qed.

(** Every vertex of the graph of the first loop is the path of a file, a
    declared dependency or the core path; every declared dependency has its
    edge. *)
Lemma foldM_addFile_graph core files : forall g map g' map',
  foldM (addFile core) files (g, map) = inr (g', map') ->
  (forall w, In w (Graph.vertices g') ->
     In w (Graph.vertices g) \/ w = core \/
     (exists f, In f files /\ dependencyPath f = w) \/
     (exists f deps, In f files /\
        PackageFile_scRequireDependencies f = inr deps /\ In w deps)) /\
  (forall f deps d, In f files ->
     PackageFile_scRequireDependencies f = inr deps -> In d deps ->
     In (d, dependencyPath f) (Graph.edges g')).
Proof.
  induction files as [|f r IH]; intros g map g' map' H; simpl in H.
  - injection H as <- <-. split; [now left | intros ? ? ? []].
  - unfold addFile in H at 1.
    destruct (PackageFile_scRequireDependencies f) as [e|deps] eqn:D;
      [discriminate|].
    pose proof (foldM_addFile_edges _ _ _ _ _ _ H) as [Hmono _].
    apply IH in H. destruct H as [Hv He]. split.
    + intros w Hw. apply Hv in Hw.
      destruct Hw as [Hw|[->|[(f0 & Hf0 & E0)|(f0 & deps0 & Hf0 & D0 & Hd0)]]].
      * rewrite addEdge_vertices in Hw.
        destruct Hw as [->|[->|Hw]]; [now right; left | |].
        { right. right. left. exists f. split; [now left | reflexivity]. }
        apply fold_addEdge_vertices_inv in Hw.
        rewrite addVertex_vertices in Hw.
        destruct Hw as [[->|Hw]|[Hw|[-> _]]].
        -- right. right. left. exists f. split; [now left | reflexivity].
        -- now left.
        -- right. right. right. exists f, deps. split; [now left|]. now split.
        -- right. right. left. exists f. split; [now left | reflexivity].
      * now right; left.
      * right. right. left. exists f0. split; [now right | assumption].
      * right. right. right. exists f0, deps0. split; [now right|]. now split.
    + intros f0 deps0 d [<-|Hin] D0 Hd; [|now apply (He f0 deps0)].
      rewrite D in D0. injection D0 as <-.
      apply Hmono. rewrite addEdge_edges, in_app_iff. left.
      now apply fold_addEdge_edges_new.
Qed.

Lemma foldM_addFile_throws core files : forall st e,
  foldM (addFile core) files st = inl e ->
  e = TypeError /\ exists f, In f files /\ contents f = None.
Proof.
  induction files as [|f r IH]; intros [g map] e H; simpl in H; [discriminate|].
  unfold addFile in H at 1.
  destruct (PackageFile_scRequireDependencies f) as [e'|deps] eqn:D.
  - injection H as <-. unfold PackageFile_scRequireDependencies,
      File_scRequireDependencies in D.
    destruct (contents f) eqn:C; [discriminate|]. injection D as <-.
    split; [reflexivity|]. exists f. split; [now left | assumption].
  - apply IH in H. destruct H as [-> (f0 & Hf0 & C0)].
    split; [reflexivity|]. exists f0. split; [now right | assumption].
Qed.

Lemma foldM_addFile_returns core files : forall st g map,
  foldM (addFile core) files st = inr (g, map) ->
  forall f, In f files -> contents f <> None.
Proof.
  induction files as [|f r IH]; intros [g0 map0] g map H f0 Hf0;
    [destruct Hf0|]. simpl in H. unfold addFile in H at 1.
  destruct (PackageFile_scRequireDependencies f) as [e'|deps] eqn:D;
    [discriminate|].
  destruct Hf0 as [<-|Hf0]; [|now apply (IH _ _ _ H)].
  unfold PackageFile_scRequireDependencies, File_scRequireDependencies in D.
  destruct (contents f); [discriminate | discriminate].
Qed.

Lemma contents_None f :
  contents f = None <-> isJavaScript f = false /\ isCoffeeScript f = false.
Proof.
  unfold contents. destruct (isJavaScript f), (isCoffeeScript f);
    split; intros H; try discriminate; try tauto; destruct H; discriminate.
Qed.

(** What [orderFiles] has done when it returns. *)
Lemma orderFiles_returns sT pT files log result log' :
  orderFiles sT pT files log = (inr result, log') ->
  exists g map sorted,
    fileGraph (Path.join (requirePath sT pT) "core") files = inr (g, map) /\
    Graph.wf g /\
    map = rev (List.map (fun f => (dependencyPath f, f)) files) /\
    Graph.topologicalSort g = inr sorted /\
    result = collected map sorted /\
    log' = log ++ diagnostics sT (Path.join (requirePath sT pT) "core") map sorted.
Proof.
  rewrite orderFiles_unfold. cbv zeta.
  destruct (fileGraph _ files) as [e|[g map]] eqn:HG; [discriminate|].
  destruct (Graph.topologicalSort g) as [e|sorted] eqn:Hs; [discriminate|].
  rewrite collectFile_loop. intros H. injection H as <- <-.
  exists g, map, sorted.
  destruct (foldM_addFile _ _ _ _ _ _ HG wf_empty) as (Hwf & Hmap & _).
  rewrite app_nil_r in Hmap. repeat (split; [first [reflexivity|assumption]|]).
  reflexivity.
Qed.

Lemma map_key_file files v f :
  lookup (rev (List.map (fun f => (dependencyPath f, f)) files)) v = Some f ->
  dependencyPath f = v /\ In f files.
Proof.
  intros L. apply lookup_Some_In in L. rewrite <- in_rev, in_map_iff in L.
  destruct L as (f0 & E & Hf0). injection E as <- <-. now split.
Qed.


Lemma orderFiles_b_a :
  orderFiles Examples.packageTree Examples.parentTree
             [Examples.b_js; Examples.a_js] []
  = (inr [Examples.a_js; Examples.b_js], []).
Proof. vm_compute. reflexivity. Qed.

Lemma paths_b_a : NoDup (List.map dependencyPath [Examples.b_js; Examples.a_js]).
Proof.
  vm_compute. constructor; [|constructor; [|constructor]]; simpl.
  - intros [E|[]]. discriminate.
  - tauto.
Qed.


End OrderFilesResults.

(** ** The packages that [orderedPackages] returns *)

Section PackageOrder.

Lemma uuidAt_promoted store store' i :
  promoted store store' -> uuidAt store' i = uuidAt store i.
Proof.
  intros P. unfold uuidAt. destruct (nth_error store i) as [p|] eqn:E.
  - destruct (promoted_nth _ _ _ _ P E) as [p' [-> Hs]].
    now apply same_but_type_uuid.
  - now rewrite (promoted_nth_None _ _ _ P E).
Qed.

Lemma uuidAt_nth store i p : nth_error store i = Some p -> uuidAt store i = uuid p.
Proof. unfold uuidAt. now intros ->. Qed.

Lemma uuidAt_seq store :
  map (uuidAt store) (seq 0 (length store)) = map uuid store.
Proof.
  induction store as [|p r IH]; [reflexivity|]. simpl.
  rewrite <- seq_shift, map_map. f_equal. exact IH.
Qed.

(** One dependency in the graph: the edge from the package found. *)
Lemma resolveDependency_graph i name parent store g d log store' g' log' :
  resolveDependency i name parent (store, g) d log = (inr (store', g'), log') ->
  (Graph.wf g -> Graph.wf g') /\
  (forall e, In e (Graph.edges g) -> In e (Graph.edges g')) /\
  (forall v, In v (Graph.vertices g) -> In v (Graph.vertices g')) /\
  (forall j, findPackage store d = Some j ->
             In (uuidAt store j, name) (Graph.edges g')).
Proof.
  intros H.
  assert (exists u, g' = Graph.addEdge u name g /\
                    forall j, findPackage store d = Some j -> u = uuidAt store j)
    as (u & -> & Hu).
  { unfold resolveDependency in H.
    destruct (findPackage store d) as [j|] eqn:F.
    - destruct (String.eqb (typeAt store i) "core"
                && negb (String.eqb (typeAt store j) "core")).
      + unfold bind, console_log, ret in H. simpl in H.
        injection H as _ <- _. eexists. split; [reflexivity|].
        intros j' E. injection E as <-.
        apply uuidAt_promoted, promoted_update.
      + unfold bind, ret in H. simpl in H. injection H as _ <- _.
        eexists. split; [reflexivity|]. intros j' E. now injection E as <-.
    - unfold bind, console_log, ret in H. simpl in H. injection H as _ <- _.
      eexists. split; [reflexivity|]. discriminate. }
  split; [apply wf_addEdge|]. split; [|split].
  - intros e He. rewrite addEdge_edges, in_app_iff. now left.
  - intros v Hv. rewrite addEdge_vertices. tauto.
  - intros j F. rewrite addEdge_edges, in_app_iff. right. left.
    now rewrite (Hu j F).
Qed.

Lemma resolveDependencies_graph i name parent deps :
  forall store g log store' g' log',
  forEach deps (resolveDependency i name parent) (store, g) log
    = (inr (store', g'), log') ->
  (Graph.wf g -> Graph.wf g') /\
  (forall e, In e (Graph.edges g) -> In e (Graph.edges g')) /\
  (forall v, In v (Graph.vertices g) -> In v (Graph.vertices g')) /\
  (forall d j, In d deps -> findPackage store d = Some j ->
               In (uuidAt store j, name) (Graph.edges g')).
Proof.
  induction deps as [|d r IH]; intros store g log store' g' log' H.
  - simpl in H. injection H as _ <- _.
    split; [auto|]. split; [auto|]. split; [auto|]. intros ? ? [].
  - cbn [forEach] in H. unfold bind at 1 in H.
    destruct (resolveDependency_spec i name parent store g d log)
      as (s1 & g1 & l1 & E1 & P1 & _).
    rewrite E1 in H.
    destruct (resolveDependency_graph _ _ _ _ _ _ _ _ _ _ E1)
      as (W1 & Ed1 & V1 & N1).
    destruct (IH _ _ _ _ _ _ H) as (W2 & Ed2 & V2 & N2).
    split; [auto|]. split; [auto|]. split; [auto|].
    intros d' j [<-|Hin] F.
    + apply Ed2. now apply N1.
    + rewrite <- (uuidAt_promoted store s1 j P1). apply (N2 d' j Hin).
      now rewrite (promoted_findPackage store s1 d' P1).
Qed.

Lemma resolvePackage_graph store g map i log store' g' map' log' :
  resolvePackage (store, g, map) i log = (inr (store', g', map'), log') ->
  i < length store ->
  map' = (uuidAt store i, i) :: map /\
  (Graph.wf g -> Graph.wf g') /\
  (forall e, In e (Graph.edges g) -> In e (Graph.edges g')) /\
  (forall v, In v (Graph.vertices g) -> In v (Graph.vertices g')) /\
  In (uuidAt store i) (Graph.vertices g') /\
  (forall j, dependsOn store i j ->
             In (uuidAt store j, uuidAt store i) (Graph.edges g')).
Proof.
  unfold resolvePackage. intros H Hi.
  destruct (nth_error store i) as [package|] eqn:E.
  2:{ apply nth_error_None in E. lia. }
  rewrite (uuidAt_nth store i package E). change (uuid package) with (nodeName package).
  unfold bind in H.
  destruct (forEach _ _ (store, Graph.addVertex (nodeName package) g) log)
    as [[e|[s1 g1]] l1] eqn:F; [discriminate|].
  unfold ret in H. injection H as _ <- <- _. simpl.
  destruct (resolveDependencies_graph _ _ _ _ _ _ _ _ _ _ F)
    as (W & Ed & V & N).
  split; [reflexivity|]. split; [|split; [|split; [|split]]].
  - intros Hwf. now apply W, wf_addVertex.
  - intros e He. apply Ed. now rewrite addVertex_edges.
  - intros v Hv. apply V. rewrite addVertex_vertices. now right.
  - apply V. rewrite addVertex_vertices. now left.
  - intros j (q & d & Hq & Hd & Hf). rewrite E in Hq. injection Hq as <-.
    now apply (N d j).
Qed.

(** What the first loop of [orderedPackages] has built when it has handled
    the positions below [k]. *)
Lemma resolve_graph store0 m : forall k st log st' log',
  k + m <= length store0 ->
  promoted store0 (fst (fst st)) ->
  Graph.wf (snd (fst st)) ->
  snd st = rev (map (fun i => (uuidAt store0 i, i)) (seq 0 k)) ->
  (forall i, i < k -> In (uuidAt store0 i) (Graph.vertices (snd (fst st)))) ->
  (forall i j, i < k -> dependsOn store0 i j ->
     In (uuidAt store0 j, uuidAt store0 i) (Graph.edges (snd (fst st)))) ->
  forEach (seq k m) resolvePackage st log = (inr st', log') ->
  promoted store0 (fst (fst st')) /\
  Graph.wf (snd (fst st')) /\
  snd st' = rev (map (fun i => (uuidAt store0 i, i)) (seq 0 (k + m))) /\
  (forall i, i < k + m ->
     In (uuidAt store0 i) (Graph.vertices (snd (fst st')))) /\
  (forall i j, i < k + m -> dependsOn store0 i j ->
     In (uuidAt store0 j, uuidAt store0 i) (Graph.edges (snd (fst st')))).
Proof.
  induction m as [|m IH]; intros k st log st' log' Hk P W M V Ed H.
  - simpl in H. injection H as <- _. rewrite Nat.add_0_r. auto.
  - destruct st as [[store g] map]. simpl in P, W, M, V, Ed.
    cbn [seq forEach] in H. unfold bind at 1 in H.
    destruct (resolvePackage_spec store g map k log)
      as (s1 & g1 & m1 & l1 & E1 & P1 & _).
    rewrite E1 in H.
    assert (length store = length store0) as Hlen.
    { symmetry. exact (Forall2_length P). }
    destruct (resolvePackage_graph _ _ _ _ _ _ _ _ _ E1)
      as (M1 & W1 & Ed1 & V1 & N1 & D1); [lia|].
    rewrite (uuidAt_promoted store0 store k P) in M1, N1, D1.
    replace (k + S m) with (S k + m) by lia.
    apply (IH (S k) (s1, g1, m1) l1 st' log'); cbn [fst snd]; try assumption.
    + lia.
    + now apply (promoted_trans _ store).
    + now apply W1.
    + rewrite seq_S, map_app, rev_app_distr, M1, M. reflexivity.
    + intros i Hi. destruct (Nat.eq_dec i k) as [->|Hne]; [assumption|].
      apply V1, V. lia.
    + intros i j Hi D. destruct (Nat.eq_dec i k) as [->|Hne].
      * rewrite <- (uuidAt_promoted store0 store j P). apply D1.
        now apply (dependsOn_promoted store0 store).
      * apply Ed1, Ed; [lia | assumption].
Qed.

(** What [orderedPackages] has done when it returns. *)
Lemma orderedPackages_returns store log store' result log' :
  orderedPackages store log = (inr (store', result), log') ->
  exists g sorted,
    let map := rev (List.map (fun i => (uuidAt store i, i))
                             (seq 0 (length store))) in
    promoted store store' /\
    Graph.wf g /\
    Graph.topologicalSort g = inr sorted /\
    result = collectPackages store' map sorted /\
    (forall i, i < length store -> In (uuidAt store i) (Graph.vertices g)) /\
    (forall i j, dependsOn store i j ->
       In (uuidAt store j, uuidAt store i) (Graph.edges g)).
Proof.
  rewrite orderedPackages_unfold.
  destruct (resolve store log) as [[e|[[s g] m]] lg] eqn:R; [discriminate|].
  destruct (Graph.topologicalSort g) as [e|sorted] eqn:Hs; [discriminate|].
  intros H. injection H as <- <- <-.
  unfold resolve in R.
  destruct (resolve_graph store (length store) 0 (store, Graph.empty, []) log
              (s, g, m) lg) as (P & W & M & V & Ed); simpl; try assumption.
  - lia.
  - apply promoted_refl.
  - apply wf_empty.
  - reflexivity.
  - intros i Hi. lia.
  - intros i j Hi. lia.
  - simpl in P, W, M, V, Ed. exists g, sorted. cbv zeta.
    split; [assumption|]. split; [assumption|]. split; [assumption|].
    split; [now rewrite M|]. split; [assumption|].
    intros i j D. apply Ed; [|assumption]. now apply (dependsOn_bound store i j).
Qed.

Lemma lookup_position store i :
  NoDup (map uuid store) -> i < length store ->
  lookup (rev (List.map (fun i => (uuidAt store i, i)) (seq 0 (length store))))
         (uuidAt store i) = Some i.
Proof.
  intros Hnd Hi. apply lookup_In.
  - rewrite map_rev, map_map. simpl. rewrite uuidAt_seq. now apply NoDup_rev.
  - rewrite <- in_rev. apply in_map_iff. exists i. split; [reflexivity|].
    apply in_seq. lia.
Qed.

Lemma lookup_position_inv store v i :
  lookup (rev (List.map (fun i => (uuidAt store i, i)) (seq 0 (length store)))) v
    = Some i ->
  v = uuidAt store i /\ i < length store.
Proof.
  intros L. apply lookup_Some_In in L. rewrite <- in_rev, in_map_iff in L.
  destruct L as (k & E & Hk). injection E as <- <-. split; [reflexivity|].
  apply in_seq in Hk. lia.
Qed.

Lemma collectPackages_app store m s1 s2 :
  collectPackages store m (s1 ++ s2)
  = collectPackages store m s1 ++ collectPackages store m s2.
Proof. unfold collectPackages. apply flat_map_app. Qed.

Lemma collectPackages_cons store m v s i p :
  lookup m v = Some i -> nth_error store i = Some p ->
  collectPackages store m (v :: s) = p :: collectPackages store m s.
Proof.
  intros L E. unfold collectPackages. simpl. now rewrite L, E.
Qed.

Lemma collectPackages_In store m sorted p :
  In p (collectPackages store m sorted) <->
  exists v i, In v sorted /\ lookup m v = Some i /\ nth_error store i = Some p.
Proof.
  unfold collectPackages. rewrite in_flat_map. split.
  - intros (v & Hv & Hp). destruct (lookup m v) as [i|] eqn:L; [|destruct Hp].
    destruct (nth_error store i) as [q|] eqn:E; [|destruct Hp].
    destruct Hp as [<-|[]]. now exists v, i.
  - intros (v & i & Hv & L & E). exists v. split; [assumption|].
    rewrite L, E. now left.
Qed.

Lemma collectPackages_NoDup store sorted :
  NoDup sorted ->
  NoDup (collectPackages store
           (rev (List.map (fun i => (uuidAt store i, i)) (seq 0 (length store))))
           sorted).
Proof.
  induction sorted as [|v r IH]; intros Hnd; [constructor|].
  inversion Hnd as [|? ? Hnin Hnd']; subst.
  change (v :: r) with ([v] ++ r). rewrite collectPackages_app.
  unfold collectPackages at 1. simpl. rewrite app_nil_r.
  destruct (lookup _ v) as [i|] eqn:L; [|now apply IH].
  destruct (nth_error store i) as [p|] eqn:E; [|now apply IH].
  simpl. constructor; [|now apply IH].
  rewrite collectPackages_In. intros (w & k & Hw & Lw & Ek).
  apply lookup_position_inv in L, Lw. destruct L as [-> _], Lw as [-> _].
  rewrite (uuidAt_nth _ _ _ E) in Hnin. rewrite (uuidAt_nth _ _ _ Ek) in Hw.
  contradiction.
Qed.

Lemma promoted_uuids store store' :
  promoted store store' -> map uuid store' = map uuid store.
Proof.
  intros P. induction P as [|p p' r r' Hs _ IH]; [reflexivity|]. simpl.
  now rewrite IH, (same_but_type_uuid p p').
Qed.

Lemma uuidAt_ext store store' :
  map uuid store' = map uuid store -> forall i, uuidAt store' i = uuidAt store i.
Proof.
  revert store'. induction store as [|p r IH]; intros [|p' r'] H i;
    try discriminate; [reflexivity|].
  simpl in H. injection H as Hp Hr. destruct i; [exact Hp|].
  apply (IH r' Hr i).
Qed.

(** X7.  With distinct identifiers, [orderedPackages] returns the packages of
    the packager as the loop left them, each once. *)
Theorem orderedPackages_permutation (store : Store) (log : list string)
        (store' : Store) (result : list Package) (log' : list string) :
  NoDup (map uuid store) ->
  orderedPackages store log = (inr (store', result), log') ->
  Permutation store' result.
Proof.
  intros Hu H.
  destruct (orderedPackages_returns _ _ _ _ _ H)
    as (g & sorted & P & W & Hs & -> & V & _).
  destruct (topologicalSort_sound g sorted W Hs) as (Hin & Hnd & _).
  pose proof (promoted_uuids _ _ P) as U.
  pose proof (Forall2_length P) as Hlen.
  assert (rev (List.map (fun i => (uuidAt store i, i)) (seq 0 (length store)))
          = rev (List.map (fun i => (uuidAt store' i, i))
                          (seq 0 (length store')))) as M.
  { rewrite <- Hlen. f_equal. apply map_ext. intros i.
    now rewrite (uuidAt_ext _ _ U). }
  assert (NoDup (map uuid store')) as Hu' by now rewrite U.
  apply NoDup_Permutation.
  - now apply NoDup_map_inv in Hu'.
  - rewrite M. now apply collectPackages_NoDup.
  - intros p. split.
    + intros Hp. apply In_nth_error in Hp. destruct Hp as [i E].
      assert (i < length store) as Hi.
      { rewrite Hlen. apply nth_error_Some. congruence. }
      apply collectPackages_In. exists (uuidAt store i), i.
      split; [apply Hin; now apply V|]. split; [|assumption].
      now apply lookup_position.
    + apply collectPackages_incl.
Qed.

(** X8.  With distinct identifiers, a package that another package declares
    as a dependency (and [findPackage] finds) comes before it in the list
    that [orderedPackages] returns. *)
Theorem orderedPackages_dependency_first (store : Store) (log : list string)
        (store' : Store) (result : list Package) (log' : list string)
        (i j : nat) (p q : Package) :
  NoDup (map uuid store) ->
  orderedPackages store log = (inr (store', result), log') ->
  dependsOn store i j ->
  nth_error store' i = Some p -> nth_error store' j = Some q ->
  exists l1 l2 l3, result = l1 ++ q :: l2 ++ p :: l3.
Proof.
  intros Hu H D Ei Ej.
  destruct (orderedPackages_returns _ _ _ _ _ H)
    as (g & sorted & P & W & Hs & -> & _ & Ed).
  destruct (topologicalSort_sound g sorted W Hs) as (_ & _ & Hb).
  pose proof (Forall2_length P) as Hlen.
  assert (i < length store) as Hi.
  { rewrite Hlen. apply nth_error_Some. congruence. }
  assert (j < length store) as Hj.
  { rewrite Hlen. apply nth_error_Some. congruence. }
  destruct (before_split _ _ _ (Hb _ _ (Ed i j D))) as (s1 & s2 & s3 & ->).
  do 3 eexists.
  rewrite collectPackages_app.
  rewrite (collectPackages_cons store' _ (uuidAt store j) _ j q
             (lookup_position store j Hu Hj) Ej).
  rewrite collectPackages_app.
  rewrite (collectPackages_cons store' _ (uuidAt store i) _ i p
             (lookup_position store i Hu Hi) Ei).
  reflexivity.
Qed.

Lemma Packager_set_keys p store :
  NoDup (map uuid store) -> NoDup (map uuid (Packager_set p store)).
Proof.
  induction store as [|q r IH]; intros H; simpl.
  - constructor; [intros [] | constructor].
  - inversion H as [|? ? Hnin Hnd]; subst.
    destruct (String.eqb_spec (uuid q) (uuid p)) as [E|Hne]; simpl.
    + rewrite <- E. now constructor.
    + constructor; [|now apply IH].
      intros Hin. apply Hnin. clear - Hin Hne.
      induction r as [|x r IH]; simpl in *; [destruct Hin as [?|[]]; congruence|].
      destruct (String.eqb_spec (uuid x) (uuid p)) as [E|Hx]; simpl in Hin.
      * destruct Hin as [Hin|Hin]; [congruence | now right].
      * destruct Hin as [Hin|Hin]; [now left | right; now apply IH].
Qed.

Lemma Packager_set_In p store q :
  In q (Packager_set p store) -> q = p \/ In q store.
Proof.
  induction store as [|x r IH]; simpl.
  - intros [<-|[]]. now left.
  - destruct (String.eqb (uuid x) (uuid p)); simpl.
    + intros [<-|H]; [now left | right; now right].
    + intros [<-|H]; [right; now left|]. destruct (IH H); [now left | right; now right].
Qed.

Lemma Packager_init_keys dirs : forall draws store,
  NoDup (map uuid store) -> NoDup (map uuid (Packager_init dirs draws store)).
Proof.
  induction dirs as [|d dirs IH]; intros draws store H; [now destruct draws|].
  destruct draws as [|u draws]; [assumption|]. simpl.
  apply IH. now apply Packager_set_keys.
Qed.

Lemma Packager_init_In dirs : forall draws store p,
  In p (Packager_init dirs draws store) ->
  In p store \/ In (uuid p, info p) (combine draws dirs).
Proof.
  induction dirs as [|d dirs IH]; intros draws store p H.
  - left. now destruct draws.
  - destruct draws as [|u draws]; [now left|]. simpl in H.
    destruct (IH _ _ _ H) as [Hs|Hc].
    + destruct (Packager_set_In _ _ _ Hs) as [->|Hin]; [|now left].
      right. now left.
    + right. now right.
Qed.

Lemma orderedPackages_chain :
  orderedPackages [mkPackage "u1" (Examples.dir "a" "lazy" (Some ["b"]));
                   mkPackage "u2" (Examples.dir "b" "lazy" None)] []
  = (inr ([mkPackage "u1" (Examples.dir "a" "lazy" (Some ["b"]));
           mkPackage "u2" (Examples.dir "b" "lazy" None)],
          [mkPackage "u2" (Examples.dir "b" "lazy" None);
           mkPackage "u1" (Examples.dir "a" "lazy" (Some ["b"]))]), []).
Proof. vm_compute. reflexivity. Qed.

Lemma uuids_chain :
  NoDup (map uuid [mkPackage "u1" (Examples.dir "a" "lazy" (Some ["b"]));
                   mkPackage "u2" (Examples.dir "b" "lazy" None)]).
Proof.
  simpl. constructor; [|constructor; [|constructor]]; simpl.
  - intros [E|[]]. discriminate.
  - tauto.
Qed.

Lemma orderedPackages_permutation_witness :
  Permutation [mkPackage "u1" (Examples.dir "a" "lazy" (Some ["b"]));
               mkPackage "u2" (Examples.dir "b" "lazy" None)]
              [mkPackage "u2" (Examples.dir "b" "lazy" None);
               mkPackage "u1" (Examples.dir "a" "lazy" (Some ["b"]))].
Proof.
  exact (orderedPackages_permutation _ _ _ _ _ uuids_chain orderedPackages_chain).
Defined.

Lemma orderedPackages_dependency_first_witness :
  exists l1 l2 l3,
    [mkPackage "u2" (Examples.dir "b" "lazy" None);
     mkPackage "u1" (Examples.dir "a" "lazy" (Some ["b"]))]
    = l1 ++ mkPackage "u2" (Examples.dir "b" "lazy" None)
         :: l2 ++ mkPackage "u1" (Examples.dir "a" "lazy" (Some ["b"])) :: l3.
Proof.
  apply (orderedPackages_dependency_first _ _ _ _ _ 0 1 _ _
           uuids_chain orderedPackages_chain).
  - exists (mkPackage "u1" (Examples.dir "a" "lazy" (Some ["b"]))), "b".
    split; [reflexivity|]. split; [now left | reflexivity].
  - reflexivity.
  - reflexivity.
Defined.

Lemma Packager_set_uuids p store :
  map uuid (Packager_set p store)
  = if in_dec string_dec (uuid p) (map uuid store) then map uuid store
    else map uuid store ++ [uuid p].
Proof.
  induction store as [|q r IH]; simpl; [reflexivity|].
  destruct (String.eqb_spec (uuid q) (uuid p)) as [E|Hne]; simpl.
  - destruct (string_dec (uuid q) (uuid p)) as [?|N]; [|contradiction].
    now rewrite E.
  - rewrite IH. destruct (string_dec (uuid q) (uuid p)) as [E|?]; [contradiction|].
    now destruct (in_dec string_dec (uuid p) (map uuid r)).
Qed.

Lemma Packager_set_In_iff p store q :
  NoDup (map uuid store) ->
  In q (Packager_set p store) <-> q = p \/ (In q store /\ uuid q <> uuid p).
Proof.
  induction store as [|x r IH]; intros Hnd; simpl.
  - split; [intros [<-|[]]; now left | intros [->|[[] _]]; now left].
  - inversion Hnd as [|? ? Hnin Hnd']; subst.
    destruct (String.eqb_spec (uuid x) (uuid p)) as [E|Hne]; simpl.
    + split.
      * intros [<-|Hq]; [now left|]. right. split; [now right|].
        intros Eq. apply Hnin. rewrite E, <- Eq. now apply in_map.
      * intros [->|[[<-|Hq] Hu]]; [now left | contradiction | now right].
    + rewrite (IH Hnd'). split.
      * intros [<-|[->|[Hq Hu]]].
        -- right. split; [now left | assumption].
        -- now left.
        -- right. split; [now right | assumption].
      * intros [->|[[<-|Hq] Hu]].
        -- right. now left.
        -- now left.
        -- right. right. now split.
Qed.

Lemma first_keys_snoc l x :
  rev (nodup string_dec (rev (l ++ [x])))
  = if in_dec string_dec x (rev (nodup string_dec (rev l)))
    then rev (nodup string_dec (rev l))
    else rev (nodup string_dec (rev l)) ++ [x].
Proof.
  rewrite rev_app_distr. simpl.
  destruct (in_dec string_dec x (rev l)) as [Hin|Hnin];
    destruct (in_dec string_dec x (rev (nodup string_dec (rev l)))) as [H|H];
    try reflexivity.
  - exfalso. apply H. rewrite <- in_rev. now apply nodup_In.
  - exfalso. apply Hnin. rewrite <- in_rev in H. now apply nodup_In in H.
Qed.

(** What [init] holds when it has gone through the pairs [done] and goes on
    with the rest. *)
Lemma Packager_init_loop dirs : forall draws store done,
  NoDup (map uuid store) ->
  map uuid store = rev (nodup string_dec (rev (map fst done))) ->
  (forall p, In p store <-> lookup (rev done) (uuid p) = Some (info p)) ->
  let all := done ++ combine draws dirs in
  let store' := Packager_init dirs draws store in
  map uuid store' = rev (nodup string_dec (rev (map fst all))) /\
  (forall p, In p store' <-> lookup (rev all) (uuid p) = Some (info p)).
Proof.
  induction dirs as [|d dirs IH]; intros draws store done Hnd Hk Hl.
  - destruct draws; simpl; rewrite app_nil_r; now split.
  - destruct draws as [|u draws]; [simpl; rewrite app_nil_r; now split|].
    cbn [Packager_init combine].
    specialize (IH draws (Packager_set (mkPackage u d) store)
                   (done ++ [(u, d)])).
    replace ((done ++ [(u, d)]) ++ combine draws dirs)
      with (done ++ (u, d) :: combine draws dirs) in IH
      by (now rewrite <- app_assoc).
    apply IH.
    + now apply Packager_set_keys.
    + rewrite Packager_set_uuids, map_app. simpl.
      rewrite first_keys_snoc, <- Hk. reflexivity.
    + intros p. rewrite (Packager_set_In_iff _ _ _ Hnd).
      rewrite rev_app_distr. simpl.
      destruct (String.eqb_spec u (uuid p)) as [E|Hne].
      * split.
        -- intros [->|[_ Hu]]; [reflexivity | now symmetry in E].
        -- intros H. injection H as H. left. destruct p as [pu pi].
           simpl in *. now subst.
      * rewrite <- Hl. split.
        -- intros [->|[Hp _]]; [now simpl in Hne | assumption].
        -- intros Hp. right. split; [assumption | congruence].
Qed.

(** X9.  [BT.Packager.init] never holds two packages under one identifier,
    whatever [uuid()] draws.  The package it holds under an identifier is
    the scanned directory for which that identifier was drawn last: a
    directory whose identifier is drawn again is replaced, at its place.
    The identifiers it holds are those drawn, in the order in which each
    was drawn first.  With distinct draws the packager holds every scanned
    directory, in the order of the scan. *)
Theorem Packager_init_store (dirs : list PackageInfo) (draws : list string) :
  let store := Packager_init dirs draws [] in
  NoDup (map uuid store) /\
  (forall p, In p store <->
             lookup (rev (combine draws dirs)) (uuid p) = Some (info p)) /\
  map uuid store
    = rev (nodup string_dec (rev (map fst (combine draws dirs)))) /\
  (NoDup draws ->
   store = map (fun ud => mkPackage (fst ud) (snd ud)) (combine draws dirs)).
Proof.
  intros store.
  destruct (Packager_init_loop dirs draws [] []) as [Hk Hl].
  - constructor.
  - reflexivity.
  - intros p. simpl. split; [intros [] | discriminate].
  - split; [|split; [|split]].
    + apply Packager_init_keys. constructor.
    + exact Hl.
    + exact Hk.
    + intros Hnd. unfold store. now rewrite Packager_init_combine.
Qed.

(** With the identifier of [a] drawn again for [b], the packager holds [b]
    in the place of [a]. *)
Lemma Packager_init_redrawn :
  Packager_init [Examples.dir "a" "lazy" None; Examples.dir "b" "lazy" None;
                 Examples.dir "c" "lazy" None]
                ["u1"; "u1"; "u2"] []
  = [mkPackage "u1" (Examples.dir "b" "lazy" None);
     mkPackage "u2" (Examples.dir "c" "lazy" None)].
Proof. reflexivity. Qed.

End PackageOrder.

(** ** Finding apps and frameworks *)

Section Finding.

Lemma kind_eqb_eq a b : kind_eqb a b = true <-> a = b.
Proof. destruct a, b; simpl; split; intros H; try reflexivity; discriminate. Qed.

Lemma find_app_first {A} (f : A -> bool) l1 l2 :
  find f (l1 ++ l2) = match find f l1 with
                      | Some x => Some x
                      | None => find f l2
                      end.
Proof.
  induction l1 as [|a r IH]; simpl; [reflexivity|].
  now destruct (f a).
Qed.

Lemma collect_unfold k0 key k props cs :
  collect k0 (Nd key k props cs)
  = (if kind_eqb k k0 then [Nd key k props cs] else [])
    ++ flat_map (collect k0) cs.
Proof.
  reflexivity.
Qed.

Lemma traverse_find_first k0 str cs :
  Forall (fun n => visit_find k0 str n
                   = find (fun x => String.eqb (nodeKey x) str) (collect k0 n))
         cs ->
  traverse_find k0 str cs
  = find (fun x => String.eqb (nodeKey x) str) (flat_map (collect k0) cs).
Proof.
  induction 1 as [|c r Hc _ IH]; simpl; [reflexivity|].
  rewrite find_app_first, <- Hc, IH. reflexivity.
Qed.

(** The search that stops at the first match finds the first node that the
    collecting traversal meets under that key. *)
Lemma visit_find_first k0 str n :
  visit_find k0 str n
  = find (fun x => String.eqb (nodeKey x) str) (collect k0 n).
Proof.
  induction n as [key k props cs IH] using Node_induction.
  rewrite visit_find_unfold, collect_unfold.
  rewrite (traverse_find_first k0 str cs IH).
  destruct (kind_eqb k k0); simpl; [|reflexivity].
  now destruct (String.eqb key str).
Qed.


Lemma below_trans a b c : below a b -> below b c -> below a c.
Proof.
  intros H. revert c. induction H as [a b Hb | a b x Hb _ IH]; intros c Hc.
  - now apply (below_deeper a b).
  - apply (below_deeper a b); [assumption | now apply IH].
Qed.

Lemma collect_below k0 n x :
  In x (collect k0 n) <-> (x = n \/ below n x) /\ nodeKind x = k0.
Proof.
  revert x. induction n as [key k props cs IH] using Node_induction.
  intros x. rewrite collect_unfold, in_app_iff, in_flat_map. split.
  - intros [H|(c & Hc & H)].
    + destruct (kind_eqb k k0) eqn:E; [|destruct H].
      destruct H as [<-|[]]. apply kind_eqb_eq in E. split; [now left | exact E].
    + rewrite Forall_forall in IH. apply (IH c Hc) in H.
      destruct H as [[->|Hb] Hk]; (split; [right | assumption]).
      * now apply below_child.
      * now apply (below_deeper _ c).
  - intros [[->|Hb] Hk].
    + left. simpl in Hk. apply kind_eqb_eq in Hk. rewrite Hk. now left.
    + right. rewrite Forall_forall in IH.
      destruct Hb as [c Hc | c y Hc Hy]; simpl in Hc.
      * exists c. split; [assumption|]. apply (IH c Hc). split; [now left | assumption].
      * exists c. split; [assumption|]. apply (IH c Hc). split; [now right | assumption].
Qed.

Lemma collect_children k0 root x :
  In x (flat_map (collect k0) (children root)) <-> below root x /\ nodeKind x = k0.
Proof.
  rewrite in_flat_map. split.
  - intros (c & Hc & H). apply collect_below in H.
    destruct H as [[->|Hb] Hk]; (split; [|assumption]).
    + now apply below_child.
    + now apply (below_deeper _ c).
  - intros [Hb Hk].
    destruct Hb as [c Hc | c y Hc Hy].
    + exists c. split; [assumption|]. apply collect_below. split; [now left | assumption].
    + exists c. split; [assumption|]. apply collect_below. split; [now right | assumption].
Qed.

Lemma findApp_find str project :
  findApp str project
  = find (fun app => String.eqb (nodeKey app) str) (apps project).
Proof.
  unfold findApp, apps. apply traverse_find_first.
  apply Forall_forall. intros n _. apply visit_find_first.
Qed.

(** X10.  [apps] holds exactly the app nodes below the project, and
    [findApp(str)] is the first of them, in the order of [apps], whose name
    is [str] (null when none has that name); so for every app of [apps],
    [findApp] of its name finds an app of that name, which is another app
    when an earlier app has the same name. *)
Theorem findApp_first (str : string) (project : Node) :
  (forall x, In x (apps project) <-> below project x /\ nodeKind x = KApp) /\
  findApp str project
  = find (fun app => String.eqb (nodeKey app) str) (apps project) /\
  (forall app, In app (apps project) ->
     exists first, findApp (nodeKey app) project = Some first /\
                   nodeKey first = nodeKey app /\ In first (apps project)).
Proof.
  split; [intros x; apply collect_children|]. split; [apply findApp_find|].
  intros app Hin. rewrite findApp_find.
  destruct (find _ (apps project)) as [first|] eqn:F.
  - apply find_some in F. destruct F as [Hf Hk]. apply String.eqb_eq in Hk.
    now exists first.
  - pose proof (find_none _ _ F app Hin) as Hk. simpl in Hk.
    now rewrite String.eqb_refl in Hk.
Qed.

Lemma findFramework_found str root :
  match findFramework str root with
  | Some x => below root x /\ nodeKind x = KFramework /\ nodeKey x = str
  | None => forall x, below root x -> nodeKind x = KFramework ->
                      nodeKey x <> str
  end.
Proof.
  unfold findFramework.
  rewrite (traverse_find_first KFramework str (children root)).
  2:{ apply Forall_forall. intros n _. apply visit_find_first. }
  destruct (find _ _) as [x|] eqn:F.
  - apply find_some in F. destruct F as [Hin Hk].
    apply collect_children in Hin. destruct Hin as [Hb Hkind].
    apply String.eqb_eq in Hk. now repeat split.
  - intros x Hb Hk. apply String.eqb_neq.
    apply (find_none _ _ F). apply collect_children. now split.
Qed.

(** X11.  [findFramework(str, root)] returns a framework named [str] that
    lies below [root] (never [root] itself), and null only when no
    framework below [root] has that name. *)
Theorem findFramework_spec (str : string) (root : Node) :
  match findFramework str root with
  | Some x => below root x /\ nodeKind x = KFramework /\ nodeKey x = str
  | None => forall x, below root x -> nodeKind x = KFramework ->
                      nodeKey x <> str
  end.
Proof. apply findFramework_found. Qed.

Lemma Expanded_below root names result :
  Expanded root names result ->
  forall x, In x result -> below root x /\ nodeKind x = KFramework.
Proof.
  induction 1 as [root | root name names rest F _ IH
                 | root name names framework deps rest F _ IHd _ IHr];
    intros x Hx.
  - destruct Hx.
  - now apply IH.
  - pose proof (findFramework_found name root) as S. rewrite F in S.
    destruct S as (Hb & Hk & _).
    rewrite !in_app_iff in Hx. destruct Hx as [Hx|[[<-|[]]|Hx]].
    + destruct (IHd x Hx) as [Hbx Hkx]. split; [|assumption].
      now apply (below_trans root framework).
    + now split.
    + now apply IHr.
Qed.

Lemma Expanded_functional root names r1 :
  Expanded root names r1 -> forall r2, Expanded root names r2 -> r1 = r2.
Proof.
  induction 1 as [root | root name names rest F _ IH
                 | root name names framework deps rest F _ IHd _ IHr];
    intros r2 H2; inversion H2; subst; try congruence.
  - now apply IH.
  - match goal with
    | H : findFramework name root = Some ?f |- _ =>
        rewrite F in H; injection H as <-
    end.
    f_equal; [now apply IHd|]. f_equal. now apply IHr.
Qed.

Lemma Expanded_app root l1 r1 :
  Expanded root l1 r1 -> forall l2 r2, Expanded root l2 r2 ->
  Expanded root (l1 ++ l2) (r1 ++ r2).
Proof.
  induction 1 as [root | root name names rest F _ IH
                 | root name names framework deps rest F Hd _ _ IHr];
    intros l2 r2 H2; simpl.
  - assumption.
  - apply Expanded_unresolved; [assumption | now apply IH].
  - rewrite <- !app_assoc. simpl.
    apply (Expanded_resolved root name (names ++ l2) framework deps (rest ++ r2));
      [assumption | assumption | now apply IHr].
Qed.

Lemma orderedFrameworks_expanded project target extra (log : list string) :
  exists result,
    orderedFrameworks (height project + extra) (Some project) target log
      = (inr result, log) /\
    Expanded project (frameworks (nodeProps target)) result.
Proof.
  unfold orderedFrameworks.
  destruct (processFrameworks_spec (height project + extra) project
              (Nat.le_add_r _ _) (frameworks (nodeProps target)) [] log)
    as [result [E X]].
  exists result. split; assumption.
Qed.

(** X12.  Every node that [orderedFrameworks] returns is a framework that
    lies below the project of the target. *)
Theorem orderedFrameworks_members (project target : Node) (extra : nat)
        (log : list string) :
  exists result,
    orderedFrameworks (height project + extra) (Some project) target log
      = (inr result, log) /\
    forall x, In x result -> below project x /\ nodeKind x = KFramework.
Proof.
  destruct (orderedFrameworks_expanded project target extra log)
    as (result & E & X).
  exists result. split; [assumption|]. exact (Expanded_below _ _ _ X).
Qed.

(** X13.  [orderedFrameworks] removes no duplicate: the list for a target
    that declares the names of one target followed by the names of another
    is the list of the first followed by the list of the second, so a
    framework that is reached twice is listed twice. *)
Theorem orderedFrameworks_app (project t1 t2 t : Node) (extra : nat)
        (log : list string) :
  frameworks (nodeProps t)
    = frameworks (nodeProps t1) ++ frameworks (nodeProps t2) ->
  exists r1 r2,
    orderedFrameworks (height project + extra) (Some project) t1 log
      = (inr r1, log) /\
    orderedFrameworks (height project + extra) (Some project) t2 log
      = (inr r2, log) /\
    orderedFrameworks (height project + extra) (Some project) t log
      = (inr (r1 ++ r2), log).
Proof.
  intros Hf.
  destruct (orderedFrameworks_expanded project t1 extra log) as (r1 & E1 & X1).
  destruct (orderedFrameworks_expanded project t2 extra log) as (r2 & E2 & X2).
  destruct (orderedFrameworks_expanded project t extra log) as (r & E & X).
  exists r1, r2. split; [assumption|]. split; [assumption|].
  rewrite E. f_equal. f_equal. rewrite Hf in X.
  apply (Expanded_functional project _ r X). now apply Expanded_app.
Qed.

Lemma orderedFrameworks_app_witness :
  orderedFrameworks 3 (Some Examples.nested_project)
                    (Nd "app" KApp (Examples.target ["outer"; "outer"]) [])
                    ([] : list string)
  = (inr [Examples.inner_fw; Examples.other_fw; Examples.outer_fw;
          Examples.inner_fw; Examples.other_fw; Examples.outer_fw], []).
Proof.
  destruct (orderedFrameworks_app Examples.nested_project
              (Nd "app" KApp (Examples.target ["outer"]) [])
              (Nd "app" KApp (Examples.target ["outer"]) [])
              (Nd "app" KApp (Examples.target ["outer"; "outer"]) [])
              0 [] eq_refl) as (r1 & r2 & E1 & E2 & E).
  vm_compute in E1. injection E1 as <-.
  vm_compute in E2. injection E2 as <-.
  exact E.
Defined.

End Finding.

(** ** What a build leaves behind *)

Section BuildSteps.

(** A relation between the state before and after a step that every
    primitive step of a build keeps, for writes and new directories at
    paths that [files] and [directories] allow. *)
Variable R : BuildState -> BuildState -> Prop.
Variables files directories : string -> Prop.
Hypothesis R_refl : forall s, R s s.
Hypothesis R_trans : forall a b c, R a b -> R b c -> R a c.
Hypothesis R_log : forall line s, R s (write_line line s).
Hypothesis R_write :
  forall p text s, files p -> R s (snd (writeFileSync p text s)).
Hypothesis R_mkdir :
  forall p fs' s, directories p -> mkdirSync p (disk s) = inr fs' ->
                  R s (mkBuildState (console s) fs' (isBuilding s)).

Lemma bind_steps {A B} (m : M BuildState A) (k : A -> M BuildState B) s :
  R s (snd (m s)) -> (forall a s', R s' (snd (k a s'))) ->
  R s (snd (bind m k s)).
Proof.
  intros Hm Hk. unfold bind. destruct (m s) as [[e|a] s'] eqn:E; simpl in *.
  - assumption.
  - apply (R_trans _ s'); [assumption | apply Hk].
Qed.

Lemma forEach_steps {A T} (l : list A) (body : T -> A -> M BuildState T) :
  (forall t a s, In a l -> R s (snd (body t a s))) ->
  forall t s, R s (snd (forEach l body t s)).
Proof.
  induction l as [|a r IH]; intros Hb t s; simpl; [apply R_refl|].
  apply bind_steps; [apply Hb; now left|].
  intros t' s'. apply IH. intros t0 a0 s0 Hin. apply Hb. now right.
Qed.

Lemma console_log_steps line s :
  R s (snd (console_log line s)).
Proof. apply R_log. Qed.

Lemma readFileSync_steps p s : R s (snd (readFileSync p s)).
Proof.
  unfold readFileSync. destruct (lookup _ p); apply R_refl.
Qed.

Lemma ensureDirectory_steps what p s :
  directories p -> R s (snd (ensureDirectory what p s)).
Proof.
  intros Hp. unfold ensureDirectory.
  destruct (existsSync p (disk s)); [apply R_refl|].
  destruct (mkdirSync p (disk s)) as [cause|fs'] eqn:E.
  - apply bind_steps; [apply R_log|]. intros _ s1.
    apply bind_steps; [apply R_log|]. intros _ s2.
    apply bind_steps; [apply R_log|]. intros _ s3. apply R_refl.
  - destruct (existsSync p fs'); simpl; now apply (R_mkdir p).
Qed.

Variable project : Project.
Hypothesis tools_build : directories (Path.join (toolsPath project) "../build").
Hypothesis app_directory :
  forall app, In app (apps (tree project)) ->
    directories (Path.join (Path.join (toolsPath project) "../build")
                           (nodeKey app)).
Hypothesis app_index :
  forall app, In app (apps (tree project)) ->
    files (Path.join (Path.join (Path.join (toolsPath project) "../build")
                                (nodeKey app)) "index.html").
Hypothesis app_script :
  forall app, In app (apps (tree project)) ->
    files (Path.join (Path.join (Path.join (toolsPath project) "../build")
                                (nodeKey app)) "application.js").

Lemma findApp_In name app :
  findApp name (tree project) = Some app -> In app (apps (tree project)).
Proof.
  intros H. rewrite findApp_find in H. now apply find_some in H.
Qed.

Lemma buildApp_steps name s : R s (snd (buildApp project name s)).
Proof.
  unfold buildApp. destruct (findApp name (tree project)) as [app|] eqn:F.
  2:{ apply R_log. }
  apply findApp_In in F.
  apply bind_steps; [now apply ensureDirectory_steps|]. intros ok s1.
  destruct ok; cbn [negb]; [|apply R_refl].
  apply bind_steps; [apply ensureDirectory_steps; now apply app_directory|].
  intros ok s2. destruct ok; cbn [negb]; [|apply R_refl].
  apply bind_steps; [apply R_write; now apply app_index|]. intros _ s3.
  apply bind_steps.
  - apply forEach_steps. intros javascript p s4 _.
    apply bind_steps; [apply R_refl|]. intros present s5.
    destruct present; [|apply R_refl].
    apply bind_steps; [apply readFileSync_steps|]. intros text s6. apply R_refl.
  - intros javascript s4. apply R_write. now apply app_script.
Qed.

Lemma buildApps_steps s :
  R s (snd (forEach (apps (tree project))
              (fun (_ : unit) app =>
                 console_log (nodeKey app ++ " ...")%string ;;;
                 buildApp project (nodeKey app)) tt s)).
Proof.
  apply forEach_steps. intros t app s0 _.
  apply bind_steps; [apply R_log|]. intros _ s1. apply buildApp_steps.
Qed.

End BuildSteps.

Section BuildOutcome.

Lemma mem_app v l1 l2 : Graph.mem v (l1 ++ l2) = Graph.mem v l1 || Graph.mem v l2.
Proof. unfold Graph.mem. apply existsb_app. Qed.

Lemma grows_refl project s : grows project s s.
Proof.
  split; [auto|]. split; [exists []; now rewrite app_nil_r|].
  split; [now left | now left].
Qed.

Lemma grows_trans project a b c :
  grows project a b -> grows project b c -> grows project a c.
Proof.
  intros (E1 & [l1 C1] & F1 & D1) (E2 & [l2 C2] & F2 & D2).
  split; [auto|]. split; [|split].
  - exists (l1 ++ l2). now rewrite C2, C1, app_assoc.
  - intros p text H. destruct (F2 p text H) as [H'|H']; [now apply F1 | now right].
  - intros d H. destruct (D2 d H) as [H'|H']; [now apply D1 | now right].
Qed.

Lemma grows_log project line s : grows project s (write_line line s).
Proof.
  split; [auto|]. split; [now exists [line]|]. split; [now left | now left].
Qed.

Lemma grows_write project p text s :
  outputFile project p -> grows project s (snd (writeFileSync p text s)).
Proof.
  intros Hp. unfold writeFileSync.
  destruct (Graph.mem (Path.dirname p) (dirs (disk s))); [|apply grows_refl].
  simpl. split; [|split; [|split]].
  - intros q. unfold existsSync. simpl.
    destruct (Graph.mem q (dirs (disk s))); [reflexivity|]. simpl.
    destruct (String.eqb p q); [reflexivity | auto].
  - exists []. now rewrite app_nil_r.
  - simpl. intros q t [E|H]; [|now left]. injection E as <- <-. now right.
  - now left.
Qed.

Lemma grows_mkdir project p fs' s :
  outputDirectory project p -> mkdirSync p (disk s) = inr fs' ->
  grows project s (mkBuildState (console s) fs' (isBuilding s)).
Proof.
  intros Hp. unfold mkdirSync.
  destruct (lookup (refused (disk s)) p); [discriminate|].
  intros E. injection E as <-. split; [|split; [|split]]; simpl.
  - intros q. unfold existsSync. simpl. rewrite mem_app.
    destruct (Graph.mem q (dirs (disk s))); [reflexivity|]. simpl.
    intros H. rewrite H. apply orb_true_r.
  - exists []. now rewrite app_nil_r.
  - now left.
  - intros d. rewrite in_app_iff. intros [H|[<-|[]]]; [now left | now right].
Qed.

Lemma build_grows project s : grows project s (snd (build project s)).
Proof.
  unfold build.
  apply (bind_steps (grows project) (grows_trans project)).
  { unfold setBuilding. simpl. split; [auto|].
    split; [exists []; now rewrite app_nil_r|]. split; [now left | now left]. }
  intros _ s0.
  apply (bind_steps (grows project) (grows_trans project)).
  { apply (buildApps_steps (grows project) (outputFile project)
             (outputDirectory project) (grows_refl project)
             (grows_trans project) (grows_log project) (grows_write project)
             (grows_mkdir project) project).
    - now left.
    - intros app H. right. right. now exists app.
    - intros app H. right. exists app. split; [assumption | now left].
    - intros app H. right. exists app. split; [assumption | now right]. }
  intros _ s1. cbv zeta.
  apply (bind_steps (grows project) (grows_trans project));
    [apply grows_log|]. intros _ s2.
  apply (bind_steps (grows project) (grows_trans project)).
  { apply (ensureDirectory_steps (grows project) (outputDirectory project)
             (grows_refl project) (grows_trans project) (grows_log project)
             (grows_mkdir project)).
    right. now left. }
  intros ok s3. destruct ok; cbn [negb]; [|apply grows_refl].
  apply (bind_steps (grows project) (grows_trans project));
    [apply grows_log|]. intros _ s4.
  apply (bind_steps (grows project) (grows_trans project));
    [apply grows_write; now left|]. intros _ s5.
  apply (bind_steps (grows project) (grows_trans project)).
  { unfold setBuilding. simpl. split; [auto|].
    split; [exists []; now rewrite app_nil_r|]. split; [now left | now left]. }
  intros _ s6. apply grows_log.
Qed.

(** X14.  A build removes nothing: every path that exists before
    [build] exists after it, whether it returns or throws, and the lines
    already on the console stay, followed by the lines of the build. *)
Theorem build_keeps_paths (project : Project) (s : BuildState) :
  (forall p, existsSync p (disk s) = true ->
             existsSync p (disk (snd (build project s))) = true) /\
  exists l, console (snd (build project s)) = console s ++ l.
Proof.
  destruct (build_grows project s) as (E & C & _). now split.
Qed.

(** X15.  A build writes at its output paths only: a file that is new or
    has new text after [build] is the index page of the project in the
    directory build of the project, or the index page or the script of an
    app of [apps] in the directory of that app under the directory build
    beside the build tools; and the only directories it creates are those
    two and the directories of the apps. *)
Theorem build_writes_outputs (project : Project) (s : BuildState) :
  (forall p text, In (p, text) (regular (disk (snd (build project s)))) ->
     In (p, text) (regular (disk s)) \/
     p = Path.join (Path.join (projectPath project) "build") "index.html" \/
     exists app, In app (apps (tree project)) /\
       (p = Path.join (Path.join (Path.join (toolsPath project) "../build")
                                 (nodeKey app)) "index.html" \/
        p = Path.join (Path.join (Path.join (toolsPath project) "../build")
                                 (nodeKey app)) "application.js")) /\
  (forall d, In d (dirs (disk (snd (build project s)))) ->
     In d (dirs (disk s)) \/
     d = Path.join (toolsPath project) "../build" \/
     d = Path.join (projectPath project) "build" \/
     exists app, In app (apps (tree project)) /\
       d = Path.join (Path.join (toolsPath project) "../build") (nodeKey app)).
Proof.
  destruct (build_grows project s) as (_ & _ & F & D). split.
  - intros p text H. destruct (F p text H) as [H'|H']; [now left | now right].
  - intros d H. destruct (D d H) as [H'|H']; [now left | now right].
Qed.

Lemma buildApps_isBuilding project s :
  isBuilding
    (snd (forEach (apps (tree project))
            (fun (_ : unit) app =>
               console_log (nodeKey app ++ " ...")%string ;;;
               buildApp project (nodeKey app)) tt s))
  = isBuilding s.
Proof.
  apply (buildApps_steps (fun s s' => isBuilding s' = isBuilding s)
           (fun _ => True) (fun _ => True)); try (intros; exact I).
  - reflexivity.
  - intros a b c H1 H2. cbv beta in *. congruence.
  - reflexivity.
  - intros p text s0 _. unfold writeFileSync.
    now destruct (Graph.mem (Path.dirname p) (dirs (disk s0))).
  - reflexivity.
Qed.

Lemma ensureDirectory_outcome what p s :
  match ensureDirectory what p s with
  | (inr true, s') =>
      isBuilding s' = isBuilding s /\ console s' = console s /\
      Graph.mem p (dirs (disk s')) = true \/
      s' = s /\ existsSync p (disk s) = true
  | (inr false, s') =>
      isBuilding s' = isBuilding s /\
      exists cause,
        console s' = console s ++
          [("failed to create " ++ what ++ " directory at " ++ p)%string;
           cause; "aborting build"]
  | (inl e, s') => isBuilding s' = isBuilding s
  end.
Proof.
  unfold ensureDirectory. destruct (existsSync p (disk s)) eqn:E.
  - right. now split.
  - unfold mkdirSync. destruct (lookup (refused (disk s)) p) as [cause|].
    + unfold bind, console_log, ret, write_line, Console_build. simpl.
      split; [reflexivity|]. exists cause. now rewrite <- !app_assoc.
    + destruct (existsSync p (mkFS (dirs (disk s) ++ [p]) (regular (disk s))
                                   (refused (disk s)))) eqn:E';
        simpl; [|reflexivity].
      left. split; [reflexivity|]. split; [reflexivity|].
      rewrite mem_app. simpl. rewrite String.eqb_refl. simpl. apply orb_true_r.
Qed.

Lemma build_unfold project s :
  build project s =
  let buildPath := Path.join (projectPath project) "build" in
  match forEach (apps (tree project))
          (fun (_ : unit) app =>
             console_log (nodeKey app ++ " ...")%string ;;;
             buildApp project (nodeKey app)) tt
          (mkBuildState (console s) (disk s) true) with
  | (inl e, s1) => (inl e, s1)
  | (inr _, s1) =>
      match ensureDirectory "build" buildPath
              (write_line ("Building apps in  " ++ buildPath)%string s1) with
      | (inl e, s3) => (inl e, s3)
      | (inr false, s3) => (inr tt, s3)
      | (inr true, s3) =>
          match writeFileSync (Path.join buildPath "index.html")
                  (indexHTML project true)
                  (write_line "Writing index.html ..." s3) with
          | (inl e, s5) => (inl e, s5)
          | (inr _, s5) =>
              (inr tt,
               write_line "Done."
                 (mkBuildState (console s5) (disk s5) false))
          end
      end
  end.
Proof.
  unfold build, bind, setBuilding, console_log. cbv zeta.
  destruct (forEach _ _ tt _) as [[e|u] s1]; [reflexivity|].
  destruct (ensureDirectory _ _ _) as [[e|[|]] s3]; reflexivity.
Qed.

(** X16.  [build] clears the flag [isBuilding] only when it reaches its
    end: it returns with the flag cleared, the index page of the project
    written and the line Done. logged last; or it returns with the flag
    still set after logging that the directory build of the project could
    not be created; or it throws with the flag still set. *)
Theorem build_outcome (project : Project) (s : BuildState) :
  let buildPath := Path.join (projectPath project) "build" in
  let r := build project s in
  (fst r = inr tt /\ isBuilding (snd r) = false /\
   (exists l, console (snd r) = l ++ ["Writing index.html ..."; "Done."]) /\
   lookup (regular (disk (snd r))) (Path.join buildPath "index.html")
   = Some (indexHTML project true))
  \/
  (fst r = inr tt /\ isBuilding (snd r) = true /\
   exists l cause,
     console (snd r)
     = l ++ [("failed to create build directory at " ++ buildPath)%string;
             cause; "aborting build"])
  \/
  (exists e, fst r = inl e /\ isBuilding (snd r) = true).
Proof.
  intros buildPath r. subst r. rewrite build_unfold. cbv zeta. fold buildPath.
  pose proof (buildApps_isBuilding project
                (mkBuildState (console s) (disk s) true)) as B. revert B.
  destruct (forEach (apps (tree project)) _ tt _) as [[e|[]] s1];
    simpl; intros B.
  { right. right. exists e. now split. }
  pose proof (ensureDirectory_outcome "build" buildPath
                (write_line ("Building apps in  " ++ buildPath)%string s1)) as D.
  revert D.
  destruct (ensureDirectory "build" buildPath _) as [[e|[|]] s3]; intros D.
  - right. right. exists e. split; [reflexivity|]. simpl. simpl in D. congruence.
  - assert (isBuilding s3 = true) as B3.
    { destruct D as [(H & _)|[-> _]]; simpl in *; congruence. }
    unfold writeFileSync.
    destruct (Graph.mem (Path.dirname (Path.join buildPath "index.html")) _).
    + left. unfold write_line, Console_build. simpl.
      split; [reflexivity|]. split; [reflexivity|]. split.
      * exists (console s3). now rewrite <- app_assoc.
      * now rewrite String.eqb_refl.
    + right. right. exists IOError. now split.
  - right. left. simpl.
    destruct D as [H [cause C]]. split; [reflexivity|].
    split; [simpl in H; congruence|].
    now exists (console s1 ++ [("Building apps in  " ++ buildPath)%string]), cause.
Qed.

End BuildOutcome.

(** ** The identifiers of a script *)

Section Identifiers.

Lemma chars_app a b :
  list_ascii_of_string (a ++ b)%string
  = list_ascii_of_string a ++ list_ascii_of_string b.
Proof. induction a as [|c a IH]; simpl; [reflexivity | now rewrite IH]. Qed.

Lemma split_none sep x :
  ~ In sep (list_ascii_of_string x) -> JS.split sep x = [x].
Proof.
  induction x as [|c x IH]; intros H; simpl; [reflexivity|].
  assert (c <> sep) as Hc by (intros ->; apply H; now left).
  apply Ascii.eqb_neq in Hc. rewrite Hc. rewrite IH; [reflexivity|].
  intros Hd. apply H. now right.
Qed.

Lemma split_app sep x y :
  ~ In sep (list_ascii_of_string x) ->
  JS.split sep (x ++ String sep y)%string = x :: JS.split sep y.
Proof.
  induction x as [|c x IH]; intros H; simpl.
  - now rewrite Ascii.eqb_refl.
  - assert (c <> sep) as Hc by (intros ->; apply H; now left).
    apply Ascii.eqb_neq in Hc. rewrite Hc. rewrite IH; [reflexivity|].
    intros Hd. apply H. now right.
Qed.

Lemma split_In sep : forall s x,
  In x (JS.split sep s) -> ~ In sep (list_ascii_of_string x).
Proof.
  induction s as [|c s IH]; intros x H; simpl in H.
  - destruct H as [<-|[]]. intros [].
  - destruct (Ascii.eqb_spec c sep) as [->|Hne].
    + destruct H as [<-|H]; [intros [] | now apply IH].
    + destruct (JS.split sep s) as [|h r] eqn:E.
      * destruct H as [<-|[]]. simpl. intros [?|[]]. congruence.
      * destruct H as [<-|H].
        -- simpl. intros [?|Hin]; [congruence|].
           apply (IH h); [now left | assumption].
        -- apply IH. now right.
Qed.

Lemma split_chars sep : forall s x c,
  In x (JS.split sep s) -> In c (list_ascii_of_string x) ->
  In c (list_ascii_of_string s).
Proof.
  induction s as [|c0 s IH]; intros x c H Hc; simpl in H.
  - destruct H as [<-|[]]. destruct Hc.
  - destruct (Ascii.eqb c0 sep).
    + destruct H as [<-|H]; [destruct Hc|]. right. now apply (IH x).
    + destruct (JS.split sep s) as [|h r] eqn:E.
      * destruct H as [<-|[]]. destruct Hc as [<-|[]]. now left.
      * destruct H as [<-|H].
        -- destruct Hc as [<-|Hc]; [now left|]. right. apply (IH h); [now left | assumption].
        -- right. apply (IH x); [now right | assumption].
Qed.

Lemma no_line_terminator_spec p :
  no_line_terminator p = true <->
  forall c, In c (list_ascii_of_string p) -> JS.is_line_terminator c = false.
Proof.
  induction p as [|a p IH]; simpl.
  - split; [intros _ c [] | reflexivity].
  - rewrite andb_true_iff, negb_true_iff, IH. split.
    + intros [Ha Hp] c [<-|Hc]; [assumption | now apply Hp].
    + intros H. split; [apply H; now left | intros c Hc; apply H; now right].
Qed.

Lemma Captures_chars st p c :
  Captures st p -> In c (list_ascii_of_string p) ->
  In c (list_ascii_of_string st).
Proof.
  intros [pre post q _ _ ->] Hc.
  rewrite chars_app, in_app_iff. right.
  rewrite chars_app, in_app_iff. right. simpl. right.
  rewrite chars_app, in_app_iff. now left.
Qed.

Lemma scan_length text : length (scan text) <= length (statements text).
Proof.
  unfold scan. induction (statements text) as [|st r IH]; simpl; [lia|].
  rewrite length_app. destruct (Regex.exec st); simpl; lia.
Qed.

Lemma scan_free text id : In id (scan text) -> free_of_separators id.
Proof.
  unfold scan, statements. rewrite in_flat_map. intros (st & Hst & Hid).
  destruct (Regex.exec st) as [p|] eqn:E; [|destruct Hid].
  destruct Hid as [<-|[]]. apply exec_sound in E.
  apply in_flat_map in Hst. destruct Hst as (line & Hline & Hst).
  intros c Hc. split.
  - intros ->. apply (split_In _ _ _ Hst).
    now apply (Captures_chars st p).
  - destruct E as [pre post q _ Hn _].
    now apply (proj1 (no_line_terminator_spec p) Hn).
Qed.

(** X17.  [BT.File.scRequireDependencies] returns at most one identifier
    for each statement of the contents (a line, or a part of a line between
    semicolons), and no identifier holds a semicolon or a line
    terminator: a call whose argument holds one is not recognised with
    that argument. *)
Theorem File_scRequireDependencies_identifiers (f : File) (text : string)
        (ids : list string) :
  contents f = Some text ->
  File_scRequireDependencies f = inr ids ->
  length ids <= length (statements text) /\
  forall id c, In id ids -> In c (list_ascii_of_string id) ->
               c <> ";"%char /\ JS.is_line_terminator c = false.
Proof.
  unfold File_scRequireDependencies. intros -> H. injection H as <-. split.
  - apply scan_length.
  - intros id c Hid. now apply (scan_free text id).
Qed.

Lemma File_scRequireDependencies_identifiers_witness :
  length ["core"] <= length (statements "sc_require('core');").
Proof.
  exact (proj1 (File_scRequireDependencies_identifiers Examples.a_js
                  "sc_require('core');" ["core"] eq_refl eq_refl)).
Defined.

Lemma capture_exact q : forall p,
  no_line_terminator p = true ->
  Regex.capture q (p ++ String q ")")%string = Some p.
Proof.
  induction p as [|c p IH]; intros Hn.
  - simpl ((_ ++ _)%string). rewrite capture_unfold.
    assert (Regex.capture q ")" = None) as ->.
    { rewrite capture_unfold. simpl.
      rewrite andb_false_r. reflexivity. }
    cbn [option_map]. rewrite Ascii.eqb_refl. simpl.
    now destruct (JS.is_line_terminator q).
  - simpl in Hn. apply andb_true_iff in Hn. destruct Hn as [Hc Hn].
    apply negb_true_iff in Hc.
    simpl ((_ ++ _)%string). rewrite capture_unfold, Hc, (IH Hn). reflexivity.
Qed.

Lemma exec_require_line id :
  no_line_terminator id = true ->
  Regex.exec ("sc_require('" ++ id ++ "')")%string = Some id.
Proof.
  intros Hn. rewrite exec_unfold.
  assert (Regex.match_here ("sc_require('" ++ id ++ "')")%string = Some id) as ->.
  { apply match_here_spec. exists "'"%char, (id ++ "')")%string.
    split; [reflexivity|]. split; [reflexivity|]. now apply capture_exact. }
  reflexivity.
Qed.

Lemma scan_require_line id :
  free_of_separators id ->
  flat_map (fun statement =>
              match Regex.exec statement with
              | Some path => [path]
              | None => []
              end) (JS.split ";"%char (require_line id)) = [id].
Proof.
  intros Hf. unfold require_line.
  replace ("sc_require('" ++ id ++ "');")%string
    with (("sc_require('" ++ id ++ "')") ++ String ";"%char EmptyString)%string.
  2:{ simpl. f_equal. f_equal. f_equal. f_equal. f_equal. f_equal.
      f_equal. f_equal. f_equal. f_equal. f_equal. f_equal.
      now rewrite append_assoc. }
  rewrite split_app.
  - simpl JS.split. cbn [flat_map]. rewrite exec_require_line.
    + reflexivity.
    + apply no_line_terminator_spec. intros c Hc. now apply Hf.
  - rewrite chars_app. rewrite in_app_iff. intros [H|H].
    + simpl in H. repeat (destruct H as [H|H]; [discriminate|]). destruct H.
    + rewrite chars_app, in_app_iff in H. destruct H as [H|H].
      * now apply Hf in H.
      * simpl in H. repeat (destruct H as [H|H]; [discriminate|]). destruct H.
Qed.

Lemma require_line_one_line id :
  free_of_separators id ->
  ~ In "010"%char (list_ascii_of_string (require_line id)).
Proof.
  intros Hf. unfold require_line. rewrite chars_app, in_app_iff. intros [H|H].
  - simpl in H. repeat (destruct H as [H|H]; [discriminate|]). destruct H.
  - rewrite chars_app, in_app_iff in H. destruct H as [H|H].
    + apply Hf in H. destruct H as [_ H]. discriminate.
    + simpl in H. repeat (destruct H as [H|H]; [discriminate|]). destruct H.
Qed.

Lemma split_join_lines lines :
  lines <> [] ->
  Forall (fun l => ~ In "010"%char (list_ascii_of_string l)) lines ->
  JS.split "010"%char (JS.join nl lines) = lines.
Proof.
  induction lines as [|x r IH]; intros Hne HF; [congruence|].
  inversion HF as [|? ? Hx Hr]; subst.
  destruct r as [|y r'].
  - simpl. now apply split_none.
  - change (JS.join nl (x :: y :: r'))
      with (x ++ String "010"%char (JS.join nl (y :: r')))%string.
    rewrite split_app by assumption.
    f_equal. apply IH; [discriminate | assumption].
Qed.

Lemma scan_statements ids :
  Forall free_of_separators ids ->
  flat_map (fun statement =>
              match Regex.exec statement with
              | Some path => [path]
              | None => []
              end)
           (flat_map (JS.split ";"%char) (map require_line ids)) = ids.
Proof.
  induction 1 as [|id r Hid _ IH]; [reflexivity|].
  cbn [map flat_map]. rewrite flat_map_app, IH, (scan_require_line id Hid).
  reflexivity.
Qed.

Lemma scan_require_lines ids :
  Forall free_of_separators ids -> scan (require_lines ids) = ids.
Proof.
  intros HF. unfold scan, statements, require_lines.
  destruct ids as [|id0 ids0]; [reflexivity|].
  rewrite split_join_lines.
  - now apply scan_statements.
  - discriminate.
  - apply Forall_map. apply Forall_forall. intros id Hid.
    apply require_line_one_line. now apply (proj1 (Forall_forall _ _) HF).
Qed.

(** X18.  A script that consists of the statements sc_require('id'), one a
    line and each with its semicolon, declares exactly the identifiers
    written, in their order, whatever they hold besides semicolons and line
    terminators (quotes and parentheses included: the argument is matched
    greedily up to the last quote and parenthesis of the statement). *)
Theorem File_scRequireDependencies_lines (f : File) (ids : list string) :
  contents f = Some (require_lines ids) ->
  Forall free_of_separators ids ->
  File_scRequireDependencies f = inr ids.
Proof.
  unfold File_scRequireDependencies. intros -> HF.
  now rewrite scan_require_lines.
Qed.

Lemma File_scRequireDependencies_lines_witness :
  File_scRequireDependencies
    (mkFile "/p/fw/x.js" "/p/fw" "/p"
            (require_lines ["a"; "b') + sc_require('c"]))
  = inr ["a"; "b') + sc_require('c"].
Proof.
  apply File_scRequireDependencies_lines; [vm_compute; reflexivity|].
  constructor; [|constructor; [|constructor]]; intros c Hc; simpl in Hc;
    repeat (destruct Hc as [<-|Hc]; [split; [discriminate | reflexivity]|]);
    destruct Hc.
Defined.

End Identifiers.

(** ** The file that a requirement names *)

Section Siblings.

Lemma length_append a b :
  String.length (a ++ b)%string = String.length a + String.length b.
Proof. induction a as [|c a IH]; simpl; [reflexivity | now rewrite IH]. Qed.

Lemma slice_to_length a b :
  JS.slice_to (String.length a) (a ++ b)%string = a.
Proof.
  induction a as [|c a IH]; simpl; [now destruct b | now rewrite IH].
Qed.

Lemma drop_last_suffix a ext :
  JS.drop_last (String.length ext) (a ++ ext)%string = a.
Proof.
  unfold JS.drop_last. rewrite length_append.
  replace (String.length a + String.length ext - String.length ext)
    with (String.length a) by lia.
  apply slice_to_length.
Qed.

Lemma split_nonempty sep s : JS.split sep s <> [].
Proof.
  destruct s as [|c s]; simpl; [discriminate|].
  destruct (Ascii.eqb c sep); [discriminate|].
  destruct (JS.split sep s); discriminate.
Qed.

Lemma split_append sep a x :
  JS.split sep (a ++ String sep x)%string = JS.split sep a ++ JS.split sep x.
Proof.
  induction a as [|c a IH]; simpl.
  - now rewrite Ascii.eqb_refl.
  - destruct (Ascii.eqb c sep); [now rewrite IH|].
    rewrite IH. pose proof (split_nonempty sep a) as Hne.
    destruct (JS.split sep a) as [|h r]; [congruence | reflexivity].
Qed.

Lemma last_app_r {A} (l l' : list A) d : l' <> [] -> last (l ++ l') d = last l' d.
Proof.
  intros Hne. induction l as [|a l IH]; [reflexivity|].
  simpl. destruct (l ++ l') eqn:E; [|exact IH].
  apply app_eq_nil in E. destruct E. congruence.
Qed.

Lemma no_slash_app x y : no_slash x -> no_slash y -> no_slash (x ++ y)%string.
Proof.
  intros Hx Hy c Hc. unfold no_slash in *.
  assert (forall a b, list_ascii_of_string (a ++ b)%string
                      = list_ascii_of_string a ++ list_ascii_of_string b) as E.
  { intros a b. induction a as [|c0 a IH]; simpl; [reflexivity | now rewrite IH]. }
  rewrite E, in_app_iff in Hc. destruct Hc; auto.
Qed.

(** The last segment of a path that ends with plain segments and a
    suffix. *)
Lemma last_segment_join segs ext :
  segs <> [] -> Forall no_slash segs -> no_slash ext ->
  last (JS.split Path.slash (JS.join "/" segs ++ ext)%string) EmptyString
  = (last segs EmptyString ++ ext)%string.
Proof.
  induction segs as [|x r IH]; intros Hne HF He; [congruence|].
  inversion HF as [|? ? Hx Hr]; subst.
  destruct r as [|y r'].
  - simpl JS.join. rewrite split_no_slash by now apply no_slash_app.
    reflexivity.
  - rewrite join_cons.
    replace ((x ++ String Path.slash (JS.join "/" (y :: r'))) ++ ext)%string
      with (x ++ String Path.slash (JS.join "/" (y :: r') ++ ext))%string.
    2:{ rewrite append_assoc. reflexivity. }
    rewrite split_app_slash by assumption.
    change (x :: ?l) with ([x] ++ l).
    rewrite (last_app_r [x]) by apply split_nonempty.
    rewrite IH by (assumption || discriminate). reflexivity.
Qed.

Lemma last_segment_under a segs ext :
  segs <> [] -> Forall no_slash segs -> no_slash ext ->
  Path.last_segment (a ++ "/" ++ JS.join "/" segs ++ ext)%string
  = (last segs EmptyString ++ ext)%string.
Proof.
  intros Hne HF He. unfold Path.last_segment.
  change (a ++ "/" ++ JS.join "/" segs ++ ext)%string
    with (a ++ String Path.slash (JS.join "/" segs ++ ext))%string.
  rewrite split_append, last_app_r by apply split_nonempty.
  now apply last_segment_join.
Qed.

Lemma ext_scan_js name : forall first acc,
  first = false \/ name <> EmptyString ->
  Path.ext_scan first acc (name ++ ".js")%string = ".js".
Proof.
  induction name as [|c t IH]; intros first acc H.
  - destruct H as [->|H]; [reflexivity | congruence].
  - simpl. destruct (Ascii.eqb c "." && negb first); apply IH; now left.
Qed.

Lemma ext_scan_coffee name : forall first acc,
  first = false \/ name <> EmptyString ->
  Path.ext_scan first acc (name ++ ".coffee")%string = ".coffee".
Proof.
  induction name as [|c t IH]; intros first acc H.
  - destruct H as [->|H]; [reflexivity | congruence].
  - simpl. destruct (Ascii.eqb c "." && negb first); apply IH; now left.
Qed.

Lemma not_dots name ext :
  name <> EmptyString -> 2 <= String.length ext ->
  String.eqb (name ++ ext) ".." = false.
Proof.
  intros Hn He. apply String.eqb_neq. intros E.
  apply (f_equal String.length) in E. rewrite length_append in E. simpl in E.
  destruct name; [congruence|]. simpl in E. lia.
Qed.

Lemma last_plain segs :
  segs <> [] -> Forall plain_segment segs ->
  last segs EmptyString <> EmptyString.
Proof.
  intros Hne HF.
  destruct (exists_last Hne) as (init & x & ->).
  rewrite last_last. apply Forall_app in HF. destruct HF as [_ HF].
  inversion HF as [|? ? (Hx & _) _]; subst. exact Hx.
Qed.

(** The extension of a script under a directory. *)
Lemma extname_under a segs :
  segs <> [] -> Forall plain_segment segs ->
  Path.extname (a ++ "/" ++ JS.join "/" segs ++ ".js")%string = ".js" /\
  Path.extname (a ++ "/" ++ JS.join "/" segs ++ ".coffee")%string = ".coffee".
Proof.
  intros Hne HF. pose proof (last_plain segs Hne HF) as Hl.
  assert (forall ext, (ext = ".js" \/ ext = ".coffee")%string -> no_slash ext) as Hs.
  { intros ext [->| ->] c Hc; simpl in Hc;
      repeat (destruct Hc as [<-|Hc]; [discriminate|]); destruct Hc. }
  unfold Path.extname. split.
  - rewrite last_segment_under;
      [|assumption | now apply plain_no_slash | apply Hs; now left].
    rewrite not_dots by (assumption || (simpl; lia)).
    apply ext_scan_js. now right.
  - rewrite last_segment_under;
      [|assumption | now apply plain_no_slash | apply Hs; now right].
    rewrite not_dots by (assumption || (simpl; lia)).
    apply ext_scan_coffee. now right.
Qed.

(** X19.  In the package at [pT/pkg], the identifier that
    [scRequireDependencies] gives for sc_require('id') is the key under
    which [orderFiles] stores the file [pT/pkg/id.js] or
    [pT/pkg/id.coffee] of the package: the requirement names that file
    ([pT] normalised, [pkg] and [id] relative paths of plain segments). *)
Theorem requirement_names_file (pT pkg id text : string) :
  Path.normalize pT = pT -> plain pkg -> plain id ->
  let sT := (pT ++ "/" ++ pkg)%string in
  Path.join (requirePath sT pT) id = (pkg ++ "/" ++ id)%string /\
  dependencyPath (mkFile (sT ++ "/" ++ id ++ ".js") sT pT text)
  = (pkg ++ "/" ++ id)%string /\
  dependencyPath (mkFile (sT ++ "/" ++ id ++ ".coffee") sT pT text)
  = (pkg ++ "/" ++ id)%string.
Proof.
  intros Hn Hpkg Hid sT.
  assert (requirePath sT pT = pkg) as Hr.
  { unfold requirePath, sT.
    replace (String.length pT + 1) with (String.length (pT ++ "/")%string)
      by (rewrite length_append; reflexivity).
    rewrite <- append_assoc. apply slice_from_length. }
  split; [rewrite Hr; now apply join_plain|].
  destruct Hid as (segs & Hne & HF & ->).
  destruct (extname_under sT segs Hne HF) as [Ejs Ecoffee].
  assert (forall ext,
            JS.slice_from (String.length (Path.normalize pT) + 1)
                          (sT ++ "/" ++ JS.join "/" segs ++ ext)%string
            = (pkg ++ "/" ++ JS.join "/" segs ++ ext)%string) as Hrel.
  { intros ext. rewrite Hn. unfold sT.
    replace (String.length pT + 1) with (String.length (pT ++ "/")%string)
      by (rewrite length_append; reflexivity).
    rewrite !append_assoc. rewrite <- (append_assoc pT "/").
    apply slice_from_length. }
  split.
  - unfold dependencyPath, isJavaScript, PackageFile_relativePath.
    cbn [sourcePath parentSourceTree]. rewrite Ejs, Hrel, String.eqb_refl.
    replace (pkg ++ "/" ++ JS.join "/" segs ++ ".js")%string
      with ((pkg ++ "/" ++ JS.join "/" segs) ++ ".js")%string
      by now rewrite !append_assoc.
    apply (drop_last_suffix _ ".js").
  - unfold dependencyPath, isJavaScript, isCoffeeScript,
      PackageFile_relativePath.
    cbn [sourcePath parentSourceTree]. rewrite Ecoffee, Hrel.
    replace (String.eqb ".coffee" ".js") with false by reflexivity.
    rewrite String.eqb_refl.
    replace (pkg ++ "/" ++ JS.join "/" segs ++ ".coffee")%string
      with ((pkg ++ "/" ++ JS.join "/" segs) ++ ".coffee")%string
      by now rewrite !append_assoc.
    apply (drop_last_suffix _ ".coffee").
Qed.

Lemma plain_segment_word x :
  x <> EmptyString -> x <> "."%string -> x <> ".."%string ->
  forallb (fun c => negb (Ascii.eqb c Path.slash)) (list_ascii_of_string x)
  = true ->
  plain_segment x.
Proof.
  intros H1 H2 H3 H. repeat (split; [assumption|]).
  intros c Hc. rewrite forallb_forall in H. specialize (H c Hc).
  apply negb_true_iff in H. now apply Ascii.eqb_neq.
Qed.

Lemma requirement_names_file_witness :
  Path.join (requirePath "/p/fw/packages/foo" "/p/fw") "a" = "packages/foo/a"%string /\
  dependencyPath Examples.a_js = "packages/foo/a"%string /\
  dependencyPath (mkFile "/p/fw/packages/foo/a.coffee" "/p/fw/packages/foo"
                         "/p/fw" "sc_require('core');")
  = "packages/foo/a"%string.
Proof.
  apply (requirement_names_file "/p/fw" "packages/foo" "a" "sc_require('core');").
  - vm_compute. reflexivity.
  - exists ["packages"; "foo"]%string. split; [discriminate|].
    split; [|reflexivity].
    repeat constructor; apply plain_segment_word;
      try discriminate; reflexivity.
  - exists ["a"]%string. split; [discriminate|]. split; [|reflexivity].
    repeat constructor; apply plain_segment_word;
      try discriminate; reflexivity.
Defined.

End Siblings.

(** ** Core packages, circular dependencies and what is logged *)

Section PackagerResults.

Lemma orderFiles_incl sT pT files log result log' :
  orderFiles sT pT files log = (inr result, log') -> incl result files.
Proof.
  intros H.
  destruct (orderFiles_returns _ _ _ _ _ _ H)
    as (g & map & sorted & _ & _ & Hmap & _ & -> & _).
  intros f Hf. apply collected_In in Hf. destruct Hf as (v & _ & L).
  rewrite Hmap in L. now apply map_key_file in L.
Qed.

Lemma orderedCorePackageFiles_loop packages : forall acc log result log',
  forEach packages
    (fun packageFiles p =>
       if negb (String.eqb (type (info p)) "core") then ret packageFiles
       else fs <- orderedJavaScriptFiles p ;; ret (packageFiles ++ fs))
    acc log = (inr result, log') ->
  forall f, In f result ->
    In f acc \/
    exists p, In p packages /\ type (info p) = "core"%string /\
              In f (files (info p)).
Proof.
  induction packages as [|p r IH]; intros acc log result log' H f Hf.
  - simpl in H. injection H as <- _. now left.
  - cbn [forEach] in H. unfold bind at 1 in H.
    destruct (String.eqb_spec (type (info p)) "core") as [Hc|Hc]; cbn [negb] in H.
    + unfold bind at 1 in H. unfold orderedJavaScriptFiles in H.
      destruct (orderFiles (pkgSourceTree (info p)) (pkgParentSourceTree (info p))
                           (files (info p)) log) as [[e|fs] log1] eqn:E;
        [discriminate|].
      unfold ret at 1 in H.
      destruct (IH _ _ _ _ H f Hf) as [Hin|(q & Hq & Hcq & Hfq)].
      * apply in_app_iff in Hin. destruct Hin as [Hin|Hin]; [now left|].
        right. exists p. split; [now left|]. split; [assumption|].
        now apply (orderFiles_incl _ _ _ _ _ _ E).
      * right. exists q. split; [now right | now split].
    + unfold ret at 1 in H.
      destruct (IH _ _ _ _ H f Hf) as [Hin|(q & Hq & Hcq & Hfq)]; [now left|].
      right. exists q. split; [now right | now split].
Qed.



Lemma reach_snoc g a b c :
  Graph.reach g a b -> In (b, c) (Graph.edges g) -> Graph.reach g a c.
Proof.
  intros R E. induction R as [u v E' | u v w E' _ IH].
  - apply (Graph.reach_step _ u v); [assumption | now apply Graph.reach_edge].
  - apply (Graph.reach_step _ u v); [assumption | now apply IH].
Qed.

Lemma dependsOn_reach store g :
  (forall i j, dependsOn store i j ->
     In (uuidAt store j, uuidAt store i) (Graph.edges g)) ->
  forall i j, dependsOnTransitively store i j ->
              Graph.reach g (uuidAt store j) (uuidAt store i).
Proof.
  intros He i j H. induction H as [i j D | i j k D _ IH].
  - apply Graph.reach_edge. now apply He.
  - apply (reach_snoc g _ (uuidAt store j)); [assumption | now apply He].
Qed.

Lemma resolve_returns store log :
  exists store' g map log',
    resolve store log = (inr (store', g, map), log') /\
    Graph.wf g /\
    (forall i j, dependsOn store i j ->
       In (uuidAt store j, uuidAt store i) (Graph.edges g)).
Proof.
  destruct (resolve_spec store log) as (s' & g & m & l' & E & _).
  exists s', g, m, l'. split; [assumption|].
  unfold resolve in E.
  destruct (resolve_graph store (length store) 0 (store, Graph.empty, []) log
              (s', g, m) l') as (_ & W & _ & _ & Ed); simpl; try assumption.
  - lia.
  - apply promoted_refl.
  - apply wf_empty.
  - reflexivity.
  - intros i Hi. lia.
  - intros i j Hi. lia.
  - simpl in W, Ed. split; [assumption|]. intros i j D.
    apply Ed; [|assumption]. now apply (dependsOn_bound store i j).
Qed.

End PackagerResults.

(** ** What [orderedPackages] logs *)

Section PackagerLog.

Lemma basenameAt_promoted store store' i :
  promoted store store' -> basenameAt store' i = basenameAt store i.
Proof.
  intros P. unfold basenameAt. destruct (nth_error store i) as [p|] eqn:E.
  - destruct (promoted_nth _ _ _ _ P E) as [p' [-> Hs]].
    now apply same_but_type_basename.
  - now rewrite (promoted_nth_None _ _ _ P E).
Qed.

Lemma same_but_type_parent p p' :
  same_but_type p p' ->
  pkgParentSourceTree (info p') = pkgParentSourceTree (info p).
Proof. intros [->| ->]; reflexivity. Qed.

(** One dependency on the log. *)
Lemma resolveDependency_log i name parent store g d log store' g' log' :
  resolveDependency i name parent (store, g) d log = (inr (store', g'), log') ->
  (exists lines, log' = log ++ lines) /\
  (findPackage store d = None ->
   In (missing_diagnostic d (basenameAt store i) parent) log') /\
  (forall j, typeAt store' j = "core"%string ->
     typeAt store j = "core"%string \/
     In (promotion_diagnostic (basenameAt store j)) log').
Proof.
  unfold resolveDependency.
  destruct (findPackage store d) as [j|] eqn:F.
  - destruct (String.eqb (typeAt store i) "core"
              && negb (String.eqb (typeAt store j) "core")) eqn:C.
    + unfold bind, console_log, ret, write_line, Console_log. simpl.
      intros H. injection H as <- _ <-.
      split; [eauto|]. split; [discriminate|].
      intros k T. destruct (Nat.eq_dec k j) as [->|Hne].
      * right. rewrite in_app_iff. right. now left.
      * left. now rewrite typeAt_update_other in T.
    + unfold bind, ret. simpl. intros H. injection H as <- _ <-.
      split; [exists []; now rewrite app_nil_r|]. split; [discriminate|].
      intros k T. now left.
  - unfold bind, console_log, ret, write_line, Console_log. simpl.
    intros H. injection H as <- _ <-.
    split; [eauto|]. split.
    + intros _. rewrite in_app_iff. right. now left.
    + intros k T. now left.
Qed.

Lemma resolveDependencies_log i name parent deps :
  forall store g log store' g' log',
  forEach deps (resolveDependency i name parent) (store, g) log
    = (inr (store', g'), log') ->
  (exists lines, log' = log ++ lines) /\
  (forall d, In d deps -> findPackage store d = None ->
     In (missing_diagnostic d (basenameAt store i) parent) log') /\
  (forall j, typeAt store' j = "core"%string ->
     typeAt store j = "core"%string \/
     In (promotion_diagnostic (basenameAt store j)) log').
Proof.
  induction deps as [|d r IH]; intros store g log store' g' log' H.
  - simpl in H. injection H as <- _ <-.
    split; [exists []; now rewrite app_nil_r|].
    split; [intros ? [] | intros j T; now left].
  - cbn [forEach] in H. unfold bind at 1 in H.
    destruct (resolveDependency_spec i name parent store g d log)
      as (s1 & g1 & l1 & E1 & P1 & _).
    rewrite E1 in H.
    destruct (resolveDependency_log _ _ _ _ _ _ _ _ _ _ E1)
      as ([n1 L1] & M1 & T1).
    destruct (IH _ _ _ _ _ _ H) as ([n2 L2] & M2 & T2).
    assert (forall x, In x l1 -> In x log') as Hmono.
    { intros x Hx. rewrite L2, in_app_iff. now left. }
    split; [exists (n1 ++ n2); rewrite L2, L1; now rewrite app_assoc|].
    split.
    + intros d' [<-|Hin] F; [apply Hmono; now apply M1|].
      rewrite <- (basenameAt_promoted store s1 i P1). apply M2; [assumption|].
      now rewrite (promoted_findPackage store s1 d' P1).
    + intros j T. destruct (T2 j T) as [T'|Hl].
      * destruct (T1 j T') as [T0|Hl]; [now left | right; now apply Hmono].
      * right. now rewrite <- (basenameAt_promoted store s1 j P1).
Qed.

Lemma resolvePackage_log store g map i log store' g' map' log' q :
  resolvePackage (store, g, map) i log = (inr (store', g', map'), log') ->
  nth_error store i = Some q ->
  (exists lines, log' = log ++ lines) /\
  (forall d, In d (declared q) -> findPackage store d = None ->
     In (missing_diagnostic d (basename (info q))
           (Path.basename (pkgParentSourceTree (info q)))) log') /\
  (forall j, typeAt store' j = "core"%string ->
     typeAt store j = "core"%string \/
     In (promotion_diagnostic (basenameAt store j)) log').
Proof.
  unfold resolvePackage. intros H E. rewrite E in H. unfold bind in H.
  destruct (forEach _ _ (store, Graph.addVertex (nodeName q) g) log)
    as [[e|[s1 g1]] l1] eqn:F; [discriminate|].
  unfold ret in H. injection H as <- _ _ <-.
  destruct (resolveDependencies_log _ _ _ _ _ _ _ _ _ _ F) as (L & M & T).
  split; [assumption|]. split; [|assumption].
  intros d Hd Fd. specialize (M d Hd Fd).
  unfold basenameAt in M. now rewrite E in M.
Qed.

(** The log when the first loop of [orderedPackages] has handled the
    positions below [k]. *)
Lemma resolve_log store0 m : forall k st log0 log st' log',
  k + m <= length store0 ->
  promoted store0 (fst (fst st)) ->
  (forall x, In x log0 -> In x log) ->
  (forall i q d, i < k -> nth_error store0 i = Some q -> In d (declared q) ->
     findPackage store0 d = None ->
     In (missing_diagnostic d (basename (info q))
           (Path.basename (pkgParentSourceTree (info q)))) log) ->
  (forall j, typeAt (fst (fst st)) j = "core"%string ->
     typeAt store0 j = "core"%string \/
     In (promotion_diagnostic (basenameAt store0 j)) log) ->
  forEach (seq k m) resolvePackage st log = (inr st', log') ->
  (forall x, In x log0 -> In x log') /\
  (forall i q d, i < k + m -> nth_error store0 i = Some q ->
     In d (declared q) -> findPackage store0 d = None ->
     In (missing_diagnostic d (basename (info q))
           (Path.basename (pkgParentSourceTree (info q)))) log') /\
  (forall j, typeAt (fst (fst st')) j = "core"%string ->
     typeAt store0 j = "core"%string \/
     In (promotion_diagnostic (basenameAt store0 j)) log').
Proof.
  induction m as [|m IH]; intros k st log0 log st' log' Hk P H0 M T H.
  - simpl in H. injection H as <- <-. rewrite Nat.add_0_r. auto.
  - destruct st as [[store g] map]. cbn [fst snd] in P, T.
    cbn [seq forEach] in H. unfold bind at 1 in H.
    destruct (resolvePackage_spec store g map k log)
      as (s1 & g1 & m1 & l1 & E1 & P1 & _).
    rewrite E1 in H.
    assert (length store = length store0) as Hlen.
    { symmetry. exact (Forall2_length P). }
    destruct (nth_error store0 k) as [q0|] eqn:E0.
    2:{ apply nth_error_None in E0. lia. }
    destruct (promoted_nth _ _ _ _ P E0) as [q [Eq Hs]].
    destruct (resolvePackage_log _ _ _ _ _ _ _ _ _ q E1 Eq)
      as ([n1 L1] & M1 & T1).
    assert (forall x, In x log -> In x l1) as Hmono.
    { intros x Hx. rewrite L1, in_app_iff. now left. }
    replace (k + S m) with (S k + m) by lia.
    apply (IH (S k) (s1, g1, m1) log0 l1 st' log'); cbn [fst snd].
    + lia.
    + now apply (promoted_trans _ store).
    + auto.
    + intros i qi d Hi Ei Hd Fd. destruct (Nat.eq_dec i k) as [->|Hne].
      * rewrite E0 in Ei. injection Ei as <-.
        rewrite <- (same_but_type_basename q0 q Hs).
        rewrite <- (same_but_type_parent q0 q Hs).
        apply M1.
        -- now rewrite (same_but_type_declared q0 q Hs).
        -- now rewrite (promoted_findPackage store0 store d P).
      * apply Hmono. apply (M i qi d); [lia | assumption..].
    + intros j Tj. destruct (T1 j Tj) as [T'|Hl].
      * destruct (T j T') as [?|?]; [now left | right; now apply Hmono].
      * right. now rewrite <- (basenameAt_promoted store0 store j P).
    + assumption.
Qed.

(** What is on the log after [orderedPackages], whether it returns or
    throws. *)
Lemma orderedPackages_log store log :
  (forall x, In x log -> In x (snd (orderedPackages store log))) /\
  (forall i q d, nth_error store i = Some q -> In d (declared q) ->
     findPackage store d = None ->
     In (missing_diagnostic d (basename (info q))
           (Path.basename (pkgParentSourceTree (info q))))
        (snd (orderedPackages store log))) /\
  (forall j, typeAt (storeAfter store log) j = "core"%string ->
     typeAt store j = "core"%string \/
     In (promotion_diagnostic (basenameAt store j))
        (snd (orderedPackages store log))).
Proof.
  rewrite orderedPackages_unfold.
  destruct (resolve_spec store log) as (s' & g & m & l' & E & A & _).
  rewrite A, E.
  assert (snd (match Graph.topologicalSort g with
               | inl e => (inl e, l')
               | inr sorted => (inr (s', collectPackages s' m sorted), l')
               end) = l') as -> by now destruct (Graph.topologicalSort g).
  unfold resolve in E.
  destruct (resolve_log store (length store) 0 (store, Graph.empty, []) log log
              (s', g, m) l') as (H0 & M & T); cbn [fst snd]; try assumption.
  - lia.
  - apply promoted_refl.
  - auto.
  - intros i q d Hi. lia.
  - intros j Tj. now left.
  - cbn [fst snd] in T. split; [assumption|]. split; [|assumption].
    intros i q d Ei. apply (M i q d); [|assumption].
    simpl. apply nth_error_Some. congruence.
Qed.

(** X25.  Every promotion is reported: for a package that is not core
    before [orderedPackages] and is core after its loop, the log holds the
    line that says that the dependency of that basename was forced to
    core. *)
Theorem orderedPackages_logs_promotion (store : Store) (log : list string)
        (j : nat) :
  typeAt store j <> "core"%string ->
  typeAt (storeAfter store log) j = "core"%string ->
  In (promotion_diagnostic (basenameAt store j))
     (snd (orderedPackages store log)).
Proof.
  intros Hn Hc. destruct (orderedPackages_log store log) as (_ & _ & T).
  destruct (T j Hc) as [H|H]; [contradiction | exact H].
Qed.

Lemma orderedPackages_logs_promotion_witness :
  In "core package depends on non-core package, forcing non-core (b) dependency to core"%string
     (snd (orderedPackages
             [mkPackage "u1" (Examples.dir "a" "core" (Some ["b"]%string));
              mkPackage "u2" (Examples.dir "b" "lazy" None)] [])).
Proof.
  apply (orderedPackages_logs_promotion
           [mkPackage "u1" (Examples.dir "a" "core" (Some ["b"]%string));
            mkPackage "u2" (Examples.dir "b" "lazy" None)] [] 1).
  - discriminate.
  - reflexivity.
Defined.

End PackagerLog.

(** ** The files of targets and packages *)

Section Walks.

Lemma walk_unfold v self key k props cs :
  walk v self (Nd key k props cs)
  = match v k with
    | Skip => []
    | Descend => flat_map (walk v false) cs
    | DescendIfSelf => if self then flat_map (walk v false) cs else []
    | Take => [Nd key k props cs]
    | TakeAndDescend => Nd key k props cs :: flat_map (walk v false) cs
    end.
Proof. reflexivity. Qed.

Lemma walk_In v self n x :
  In x (walk v self n) <->
  (x = n /\ takes v (nodeKind n) = true) \/
  (descends v self (nodeKind n) = true /\
   exists c, In c (children n) /\ In x (walk v false c)).
Proof.
  destruct n as [key k props cs]. rewrite walk_unfold.
  unfold takes, descends. simpl nodeKind. simpl children.
  destruct (v k); simpl; rewrite ?in_flat_map.
  - split; [intros [] | intros [[_ H]|[H _]]; discriminate].
  - split; [intros H; right; now split | intros [[_ H]|[_ H]]; [discriminate | exact H]].
  - destruct self; simpl; rewrite ?in_flat_map.
    + split; [intros H; right; now split | intros [[_ H]|[_ H]]; [discriminate | exact H]].
    + split; [intros [] | intros [[_ H]|[H _]]; discriminate].
  - split; [intros [<-|[]]; left; now split
           | intros [[-> _]|[H _]]; [now left | discriminate]].
  - split.
    + intros [<-|H]; [left; now split | right; now split].
    + intros [[-> _]|[_ H]]; [now left | now right].
Qed.

(** What a traversal that did not start at [n] collects at and below
    [n]. *)
Lemma walk_inside v n : forall x,
  In x (walk v false n) <->
  (x = n /\ takes v (nodeKind n) = true) \/
  (descends v false (nodeKind n) = true /\ takes v (nodeKind x) = true /\
   inside (fun k => negb (descends v false k)) n x).
Proof.
  induction n as [key k props cs IH] using Node_induction. intros x.
  rewrite walk_In. simpl children. rewrite Forall_forall in IH. split.
  - intros [H|(D & c & Hc & Hx)]; [now left|]. right. split; [assumption|].
    apply (IH c Hc) in Hx. destruct Hx as [[-> T]|(Dc & T & I)].
    + split; [assumption | now apply inside_child].
    + split; [assumption|]. apply (inside_deeper _ _ c); [assumption | | assumption].
      now rewrite Dc.
  - intros [H|(D & T & I)]; [now left|]. right. split; [assumption|].
    destruct I as [c Hc | c y Hc Oc Iy]; simpl in Hc.
    + exists c. split; [assumption|]. apply (IH c Hc). left. now split.
    + exists c. split; [assumption|]. apply (IH c Hc). right.
      apply negb_false_iff in Oc. now repeat split.
Qed.

(** What a traversal collects from the node it starts at. *)
Lemma walk_self v n x :
  In x (walk v true n) <->
  (x = n /\ takes v (nodeKind n) = true) \/
  (descends v true (nodeKind n) = true /\ takes v (nodeKind x) = true /\
   inside (fun k => negb (descends v false k)) n x).
Proof.
  rewrite walk_In. split.
  - intros [H|(D & c & Hc & Hx)]; [now left|]. right. split; [assumption|].
    apply walk_inside in Hx. destruct Hx as [[-> T]|(Dc & T & I)].
    + split; [assumption | now apply inside_child].
    + split; [assumption|]. apply (inside_deeper _ _ c); [assumption | | assumption].
      now rewrite Dc.
  - intros [H|(D & T & I)]; [now left|]. right. split; [assumption|].
    destruct I as [c Hc | c y Hc Oc Iy].
    + exists c. split; [assumption|]. apply walk_inside. left. now split.
    + exists c. split; [assumption|]. apply walk_inside. right.
      apply negb_false_iff in Oc. now repeat split.
Qed.

Lemma inside_ext o1 o2 root x :
  (forall k, o1 k = o2 k) -> inside o1 root x -> inside o2 root x.
Proof.
  intros E I. induction I as [root c Hc | root c x Hc Oc _ IH].
  - now apply inside_child.
  - apply (inside_deeper _ _ c); [assumption | now rewrite <- E | assumption].
Qed.

Lemma takes_file v x :
  (forall k, takes v k = kind_eqb k KFile) ->
  takes v (nodeKind x) = true <-> nodeKind x = KFile.
Proof. intros E. rewrite E. apply kind_eqb_eq. Qed.

(** X26.  The files of a framework or a localization ([BT.Target.files])
    and of an app ([BT.App.files]) are exactly the file nodes that lie below
    it with no embedded framework, app, target, packager or package in
    between: the files of embedded targets and of packages are not among
    them.  [BT.Target.files] of a node that is visited as a plain target,
    an app, a packager or a package is empty. *)
Theorem Target_files_spec (target : Node) :
  ((nodeKind target = KFramework \/ nodeKind target = KLocalization) ->
   forall x, In x (Target_files target) <->
             nodeKind x = KFile /\ inside embedded target x) /\
  (nodeKind target = KApp ->
   forall x, In x (App_files target) <->
             nodeKind x = KFile /\ inside embedded target x) /\
  (embedded (nodeKind target) = true -> nodeKind target <> KFramework ->
   Target_files target = []).
Proof.
  split; [|split].
  - intros Hk x. unfold Target_files. rewrite walk_self.
    rewrite (takes_file Target_files_visitor x) by (intros []; reflexivity).
    assert (takes Target_files_visitor (nodeKind target) = false) as ->
      by (destruct Hk as [-> | ->]; reflexivity).
    assert (descends Target_files_visitor true (nodeKind target) = true) as ->
      by (destruct Hk as [-> | ->]; reflexivity).
    split.
    + intros [[_ H]|(_ & T & I)]; [discriminate|]. split; [assumption|].
      apply (inside_ext _ embedded) in I; [assumption | intros []; reflexivity].
    + intros [T I]. right. split; [reflexivity|]. split; [assumption|].
      apply (inside_ext embedded); [intros []; reflexivity | assumption].
  - intros Hk x. unfold App_files. rewrite walk_self.
    rewrite (takes_file App_files_visitor x) by (intros []; reflexivity).
    rewrite Hk. change (takes App_files_visitor KApp) with false.
    change (descends App_files_visitor true KApp) with true.
    split.
    + intros [[_ H]|(_ & T & I)]; [discriminate|]. split; [assumption|].
      apply (inside_ext _ embedded) in I; [assumption | intros []; reflexivity].
    + intros [T I]. right. split; [reflexivity|]. split; [assumption|].
      apply (inside_ext embedded); [intros []; reflexivity | assumption].
  - intros He Hn. unfold Target_files. destruct target as [key k props cs].
    rewrite walk_unfold. simpl in He, Hn. destruct k; try discriminate;
      try reflexivity. congruence.
Qed.

Lemma Target_files_spec_witness :
  In Examples.lib_file (Target_files Examples.framework_tree).
Proof.
  apply (proj1 (Target_files_spec Examples.framework_tree) (or_introl eq_refl)).
  split; [reflexivity|].
  apply (inside_deeper _ _ (Nd "lib" KDirectory (Examples.target [])
                               [Examples.lib_file])).
  - now left.
  - reflexivity.
  - apply inside_child. now left.
Defined.

(** X27.  The files of a package ([BT.Package.files]) are exactly the file
    nodes that lie below it with no embedded target, packager, package or
    file in between; the packages of a packager ([BT.Packager.packages])
    are exactly the package nodes that lie below it with no package in
    between: a package inside a package is not among them. *)
Theorem Package_files_spec (n : Node) :
  (nodeKind n = KPackage ->
   forall x, In x (Package_files n) <->
             nodeKind x = KFile /\
             inside (fun k => embedded k || kind_eqb k KFile) n x) /\
  (nodeKind n = KPackager ->
   forall x, In x (Packager_packages n) <->
             nodeKind x = KPackage /\
             inside (fun k => kind_eqb k KPackage) n x).
Proof.
  split.
  - intros Hk x. unfold Package_files. rewrite walk_self.
    rewrite (takes_file Package_files_visitor x) by (intros []; reflexivity).
    rewrite Hk. change (takes Package_files_visitor KPackage) with false.
    change (descends Package_files_visitor true KPackage) with true.
    split.
    + intros [[_ H]|(_ & T & I)]; [discriminate|]. split; [assumption|].
      apply (inside_ext _ (fun k => embedded k || kind_eqb k KFile)) in I;
        [assumption | intros []; reflexivity].
    + intros [T I]. right. split; [reflexivity|]. split; [assumption|].
      apply (inside_ext (fun k => embedded k || kind_eqb k KFile));
        [intros []; reflexivity | assumption].
  - intros Hk x. unfold Packager_packages. rewrite walk_self.
    assert (takes Packager_packages_visitor (nodeKind x) = true
            <-> nodeKind x = KPackage) as ->.
    { rewrite <- kind_eqb_eq. now destruct (nodeKind x). }
    rewrite Hk. change (takes Packager_packages_visitor KPackager) with false.
    change (descends Packager_packages_visitor true KPackager) with true.
    split.
    + intros [[_ H]|(_ & T & I)]; [discriminate|]. split; [assumption|].
      apply (inside_ext _ (fun k => kind_eqb k KPackage)) in I;
        [assumption | intros []; reflexivity].
    + intros [T I]. right. split; [reflexivity|]. split; [assumption|].
      apply (inside_ext (fun k => kind_eqb k KPackage));
        [intros []; reflexivity | assumption].
Qed.

Lemma Package_files_spec_witness :
  In Examples.package_file (Package_files Examples.package_node) /\
  In Examples.package_node (Packager_packages Examples.packager_node).
Proof.
  split.
  - apply (proj1 (Package_files_spec Examples.package_node) eq_refl).
    split; [reflexivity|]. apply inside_child. now left.
  - apply (proj2 (Package_files_spec Examples.packager_node) eq_refl).
    split; [reflexivity|]. apply inside_child. now left.
Defined.

End Walks.

(** ** Package dependencies without a cycle *)

Section PackagerAcyclic.

(** One dependency: the edge added. *)
Lemma resolveDependency_edges i name parent store g d log store' g' log' :
  resolveDependency i name parent (store, g) d log = (inr (store', g'), log') ->
  forall e, In e (Graph.edges g') ->
    In e (Graph.edges g) \/
    (snd e = name /\
     (fst e = "undefined"%string \/
      exists j, findPackage store d = Some j /\ fst e = uuidAt store j)).
Proof.
  intros H.
  assert (exists u, g' = Graph.addEdge u name g /\
                    (u = "undefined"%string \/
                     exists j, findPackage store d = Some j /\ u = uuidAt store j))
    as (u & -> & Hu).
  { unfold resolveDependency in H.
    destruct (findPackage store d) as [j|] eqn:F.
    - destruct (String.eqb (typeAt store i) "core"
                && negb (String.eqb (typeAt store j) "core")).
      + unfold bind, console_log, ret in H. simpl in H.
        injection H as _ <- _. eexists. split; [reflexivity|].
        right. exists j. split; [reflexivity|].
        apply uuidAt_promoted, promoted_update.
      + unfold bind, ret in H. simpl in H. injection H as _ <- _.
        eexists. split; [reflexivity|]. right. now exists j.
    - unfold bind, console_log, ret in H. simpl in H. injection H as _ <- _.
      eexists. split; [reflexivity|]. now left. }
  intros e He. rewrite addEdge_edges, in_app_iff in He.
  destruct He as [He|[<-|[]]]; [now left|]. right. now split.
Qed.

Lemma resolveDependencies_edges i name parent deps :
  forall store g log store' g' log',
  forEach deps (resolveDependency i name parent) (store, g) log
    = (inr (store', g'), log') ->
  forall e, In e (Graph.edges g') ->
    In e (Graph.edges g) \/
    (snd e = name /\
     (fst e = "undefined"%string \/
      exists d j, In d deps /\ findPackage store d = Some j /\
                  fst e = uuidAt store j)).
Proof.
  induction deps as [|d r IH]; intros store g log store' g' log' H e He.
  - simpl in H. injection H as _ <- _. now left.
  - cbn [forEach] in H. unfold bind at 1 in H.
    destruct (resolveDependency_spec i name parent store g d log)
      as (s1 & g1 & l1 & E1 & P1 & _).
    rewrite E1 in H.
    destruct (IH _ _ _ _ _ _ H e He) as [He1|(Hs & [Hu|(d' & j & Hd' & F & Hf)])].
    + destruct (resolveDependency_edges _ _ _ _ _ _ _ _ _ _ E1 e He1)
        as [He0|(Hs & [Hu|(j & F & Hf)])].
      * now left.
      * right. split; [assumption | now left].
      * right. split; [assumption|]. right. exists d, j.
        split; [now left | now split].
    + right. split; [assumption | now left].
    + right. split; [assumption|]. right. exists d', j. split; [now right|].
      rewrite (promoted_findPackage store s1 d' P1) in F.
      rewrite (uuidAt_promoted store s1 j P1) in Hf. now split.
Qed.

Lemma resolvePackage_edges store g map i log store' g' map' log' :
  resolvePackage (store, g, map) i log = (inr (store', g', map'), log') ->
  forall e, In e (Graph.edges g') ->
    In e (Graph.edges g) \/
    (snd e = uuidAt store i /\ i < length store /\
     (fst e = "undefined"%string \/
      exists j, dependsOn store i j /\ fst e = uuidAt store j)).
Proof.
  unfold resolvePackage. intros H.
  destruct (nth_error store i) as [package|] eqn:E.
  2:{ unfold ret in H. injection H as _ <- _ _. intros e He. now left. }
  unfold bind in H.
  destruct (forEach _ _ (store, Graph.addVertex (nodeName package) g) log)
    as [[e|[s1 g1]] l1] eqn:F; [discriminate|].
  unfold ret in H. injection H as _ <- _ _. simpl.
  intros e He.
  destruct (resolveDependencies_edges _ _ _ _ _ _ _ _ _ _ F e He)
    as [He0|(Hs & Hu)].
  - left. now rewrite addVertex_edges in He0.
  - right. rewrite (uuidAt_nth store i package E). split; [exact Hs|].
    split; [apply nth_error_Some; congruence|].
    destruct Hu as [Hu|(d & j & Hd & Fd & Hf)]; [now left|].
    right. exists j. split; [|assumption]. now exists package, d.
Qed.

(** Every edge of the graph of [orderedPackages] enters the vertex of a
    package, from the vertex of a package it declares or from the vertex
    [undefined]. *)
Lemma resolve_edges store0 m : forall k st log st' log',
  promoted store0 (fst (fst st)) ->
  (forall e, In e (Graph.edges (snd (fst st))) ->
     exists i, snd e = uuidAt store0 i /\ i < length store0 /\
       (fst e = "undefined"%string \/
        exists j, dependsOn store0 i j /\ fst e = uuidAt store0 j)) ->
  forEach (seq k m) resolvePackage st log = (inr st', log') ->
  forall e, In e (Graph.edges (snd (fst st'))) ->
    exists i, snd e = uuidAt store0 i /\ i < length store0 /\
      (fst e = "undefined"%string \/
       exists j, dependsOn store0 i j /\ fst e = uuidAt store0 j).
Proof.
  induction m as [|m IH]; intros k st log st' log' P Hst H.
  - simpl in H. injection H as <- _. exact Hst.
  - destruct st as [[store g] map]. cbn [fst snd] in P, Hst.
    cbn [seq forEach] in H. unfold bind at 1 in H.
    destruct (resolvePackage_spec store g map k log)
      as (s1 & g1 & m1 & l1 & E1 & P1 & _).
    rewrite E1 in H.
    apply (IH (S k) (s1, g1, m1) l1 st' log'); cbn [fst snd].
    + now apply (promoted_trans _ store).
    + intros e He.
      destruct (resolvePackage_edges _ _ _ _ _ _ _ _ _ E1 e He)
        as [He0|(Hs & Hk & Hu)]; [now apply Hst|].
      exists k. rewrite <- (uuidAt_promoted store0 store k P).
      split; [assumption|]. split; [rewrite (Forall2_length P); exact Hk|].
      destruct Hu as [Hu|(j & D & Hf)]; [now left|]. right. exists j.
      rewrite <- (uuidAt_promoted store0 store j P). split; [|assumption].
      destruct D as (q & d & Hq & Hd & Fd).
      destruct (nth_error store0 k) as [q0|] eqn:E0.
      * destruct (promoted_nth _ _ _ _ P E0) as [q' [Hq' Hs']].
        rewrite Hq in Hq'. injection Hq' as <-.
        exists q0, d. split; [exact E0|]. split.
        -- now rewrite <- (same_but_type_declared q0 q).
        -- now rewrite <- (promoted_findPackage store0 store).
      * rewrite (promoted_nth_None _ _ _ P E0) in Hq. discriminate.
    + assumption.
Qed.

Lemma uuidAt_inj store i j :
  NoDup (map uuid store) -> i < length store -> j < length store ->
  uuidAt store i = uuidAt store j -> i = j.
Proof.
  intros Hnd Hi Hj E.
  apply (proj1 (NoDup_nth_error (map uuid store)) Hnd i j).
  - now rewrite length_map.
  - rewrite !nth_error_map. unfold uuidAt in E.
    destruct (nth_error store i) as [p|] eqn:Ei.
    2:{ apply nth_error_None in Ei. lia. }
    destruct (nth_error store j) as [q|] eqn:Ej.
    2:{ apply nth_error_None in Ej. lia. }
    simpl. now rewrite E.
Qed.

Lemma uuidAt_In store i : i < length store -> In (uuidAt store i) (map uuid store).
Proof.
  intros Hi. unfold uuidAt. destruct (nth_error store i) as [p|] eqn:E.
  - apply in_map. now apply nth_error_In in E.
  - apply nth_error_None in E. lia.
Qed.

Lemma dependsOnTransitively_snoc store i j k :
  dependsOnTransitively store i j -> dependsOn store j k ->
  dependsOnTransitively store i k.
Proof.
  intros H D. induction H as [i j D0 | i j l D0 _ IH].
  - apply (dependsOn_chain _ i j k); [assumption | now apply dependsOn_direct].
  - apply (dependsOn_chain _ i j k); [assumption | now apply IH].
Qed.

(** A walk of the graph that ends at the vertex of a package is a chain of
    declared dependencies, unless it starts at the vertex [undefined]. *)
Lemma reach_dependsOn store g :
  NoDup (map uuid store) -> ~ In "undefined"%string (map uuid store) ->
  (forall e, In e (Graph.edges g) ->
     exists i, snd e = uuidAt store i /\ i < length store /\
       (fst e = "undefined"%string \/
        exists j, dependsOn store i j /\ fst e = uuidAt store j)) ->
  forall a b, Graph.reach g a b ->
  forall ib, ib < length store -> b = uuidAt store ib ->
    a = "undefined"%string \/
    exists ia, ia < length store /\ a = uuidAt store ia /\
               dependsOnTransitively store ib ia.
Proof.
  intros Hnd Hu He a b R.
  assert (forall i j, dependsOn store i j -> j < length store) as Hbound.
  { intros i j (q & d & _ & _ & F). now apply (findPackage_bound store d). }
  induction R as [u v E | u v w E _ IH]; intros ib Hib Hb.
  - destruct (He _ E) as (i & Hs & Hi & Hf). simpl in Hs, Hf.
    destruct Hf as [Hf|(j & D & Hf)]; [now left|]. right.
    assert (i = ib) as -> by (apply (uuidAt_inj store); congruence).
    exists j. split; [now apply (Hbound ib)|]. split; [assumption|].
    now apply dependsOn_direct.
  - destruct (IH ib Hib Hb) as [Hv|(iv & Hiv & Hv & T)].
    + exfalso. destruct (He _ E) as (i & Hs & Hi & _). simpl in Hs.
      apply Hu. rewrite <- Hv, Hs. now apply uuidAt_In.
    + destruct (He _ E) as (i & Hs & Hi & Hf). simpl in Hs, Hf.
      destruct Hf as [Hf|(j & D & Hf)]; [now left|]. right.
      assert (i = iv) as -> by (apply (uuidAt_inj store); congruence).
      exists j. split; [now apply (Hbound iv)|]. split; [assumption|].
      now apply (dependsOnTransitively_snoc store ib iv j).
Qed.

End PackagerAcyclic.

(** ** The script that a requirement names in a target *)

Section TargetRequirements.

(** X29.  In a target, the identifier of sc_require('id') is taken as it
    is written, and it is the key under which [orderedJavaScriptFiles]
    stores the script [id.js] or [id.coffee] at that path below the source
    tree of the target: requirements are relative to the root of the
    source tree, wherever the requiring script lies (the source tree
    normalised, [id] a relative path of plain segments). *)
Theorem Target_requirement_names_file (sT other id text : string) :
  Path.normalize sT = sT -> plain id ->
  Target_dependencyPath (mkFile (sT ++ "/" ++ id ++ ".js") sT other text) = id /\
  Target_dependencyPath (mkFile (sT ++ "/" ++ id ++ ".coffee") sT other text)
  = id.
Proof.
  intros Hn (segs & Hne & HF & ->).
  destruct (extname_under sT segs Hne HF) as [Ejs Ecoffee].
  assert (forall ext,
            JS.slice_from (String.length (Path.normalize sT) + 1)
                          (sT ++ "/" ++ JS.join "/" segs ++ ext)%string
            = (JS.join "/" segs ++ ext)%string) as Hrel.
  { intros ext. rewrite Hn.
    replace (String.length sT + 1) with (String.length (sT ++ "/")%string)
      by (rewrite length_append; reflexivity).
    rewrite <- (append_assoc sT "/"). apply slice_from_length. }
  split.
  - unfold Target_dependencyPath, isJavaScript, File_relativePath.
    cbn [sourcePath sourceTree]. rewrite Ejs, Hrel, String.eqb_refl.
    apply (drop_last_suffix _ ".js").
  - unfold Target_dependencyPath, isJavaScript, isCoffeeScript,
      File_relativePath.
    cbn [sourcePath sourceTree]. rewrite Ecoffee, Hrel.
    replace (String.eqb ".coffee" ".js") with false by reflexivity.
    rewrite String.eqb_refl.
    apply (drop_last_suffix _ ".coffee").
Qed.

Lemma Target_requirement_names_file_witness :
  Target_dependencyPath
    (mkFile "/p/fw/views/pane.js" "/p/fw" EmptyString "sc_require('util');")
  = "views/pane"%string /\
  Target_dependencyPath
    (mkFile "/p/fw/views/pane.coffee" "/p/fw" EmptyString "sc_require('util');")
  = "views/pane"%string.
Proof.
  apply (Target_requirement_names_file "/p/fw" EmptyString "views/pane"
           "sc_require('util');").
  - vm_compute. reflexivity.
  - exists ["views"; "pane"]%string. split; [discriminate|].
    split; [|reflexivity].
    repeat constructor; apply plain_segment_word;
      try discriminate; reflexivity.
Defined.

End TargetRequirements.

(** ** Sorts of the graph class *)

Section Sorts.

Lemma proper_edge g u v :
  In (u, v) (Graph.edges (proper g)) <-> In (u, v) (Graph.edges g) /\ u <> v.
Proof.
  unfold proper. simpl. rewrite filter_In. simpl.
  rewrite negb_true_iff, String.eqb_neq. tauto.
Qed.

Lemma proper_wf g : Graph.wf g -> Graph.wf (proper g).
Proof.
  intros W u v H. apply proper_edge in H. now apply (W u v).
Qed.

(** The sort modelled from the spec returns sound orders. *)
Lemma topologicalSort_sort_sound : sort_sound Graph.topologicalSort.
Proof.
  intros g l W H. destruct (topologicalSort_sound g l W H) as (A & B & C).
  split; [assumption|]. split; [assumption|]. intros u v E _. now apply C.
Qed.

Lemma sortProper_sound : sort_sound sortProper.
Proof.
  intros g l W H. unfold sortProper in H.
  destruct (topologicalSort_sound (proper g) l (proper_wf g W) H)
    as (A & B & C).
  split; [exact A|]. split; [exact B|].
  intros u v E Hne. apply C. now apply proper_edge.
Qed.

Lemma sortProper_complete : sort_complete sortProper.
Proof.
  intros g _ Hac. now apply topologicalSort_complete.
Qed.

(** An order that a sound sort returns goes up along every walk over edges
    between different vertices. *)
Lemma sound_reach_before sort g l :
  sort_sound sort -> Graph.wf g -> sort g = inr l ->
  forall u v, Graph.reach (proper g) u v -> Graph.pos l u < Graph.pos l v.
Proof.
  intros Hs W E. destruct (Hs g l W E) as (_ & _ & Hb).
  apply reach_before. intros u v H. apply proper_edge in H.
  now apply Hb.
Qed.

Lemma sound_acyclic sort g l :
  sort_sound sort -> Graph.wf g -> sort g = inr l ->
  ~ Graph.cyclic (proper g).
Proof.
  intros Hs W E [v Hv].
  pose proof (sound_reach_before sort g l Hs W E v v Hv). lia.
Qed.

(** A walk between different vertices stays one without the loops. *)
Lemma reach_proper g u v :
  Graph.reach g u v -> u <> v -> Graph.reach (proper g) u v.
Proof.
  intros R. induction R as [u v He | u v w He R IH]; intros Hne.
  - apply Graph.reach_edge. now apply proper_edge.
  - destruct (string_dec u v) as [->|Huv]; [now apply IH|].
    destruct (string_dec v w) as [->|Hvw].
    + apply Graph.reach_edge. now apply proper_edge.
    + apply (Graph.reach_step _ u v w); [now apply proper_edge | now apply IH].
Qed.

Lemma pos_nth l v : In v l -> nth_error l (Graph.pos l v) = Some v.
Proof.
  induction l as [|w r IH]; intros H; [destruct H|].
  simpl. destruct (String.eqb w v) eqn:E.
  - apply String.eqb_eq in E. now subst.
  - apply String.eqb_neq in E. destruct H as [H|H]; [contradiction|].
    simpl. now apply IH.
Qed.

Lemma pos_lt l v : In v l -> Graph.pos l v < length l.
Proof.
  intros H. apply nth_error_Some. rewrite (pos_nth l v H). discriminate.
Qed.

(** Three vertices in a chain have one order only. *)
Lemma sorted_three (c a b : string) (l : list string) :
  (forall v, In v l <-> In v [c; a; b]) -> NoDup l -> NoDup [c; a; b] ->
  Graph.before l c a -> Graph.before l a b -> l = [c; a; b].
Proof.
  intros Hin Hnd Hnd3 (Hc & Ha & Hca) (_ & Hb & Hab).
  assert (length l = 3) as Hlen.
  { change 3 with (length [c; a; b]). apply Permutation_length.
    now apply NoDup_Permutation. }
  pose proof (pos_lt l b Hb) as Hlt.
  pose proof (pos_nth l c Hc) as Nc.
  pose proof (pos_nth l a Ha) as Na.
  pose proof (pos_nth l b Hb) as Nb.
  assert (Graph.pos l c = 0) as Ec by lia.
  assert (Graph.pos l a = 1) as Ea by lia.
  assert (Graph.pos l b = 2) as Eb by lia.
  rewrite Ec in Nc. rewrite Ea in Na. rewrite Eb in Nb.
  destruct l as [|x [|y [|z [|? ?]]]]; try discriminate.
  simpl in Nc, Na, Nb. congruence.
Qed.

End Sorts.

(** ** The files of a package, over any sort of the graph class *)

Section PackageFilesOrdered.

Lemma Package_orderFiles_unfold sort sT pT files log :
  Package_orderFiles sort sT pT files log =
  let corePath := Path.join (requirePath sT pT) "core" in
  match fileGraph corePath files with
  | inl e => (inl e, log)
  | inr (g, map) =>
      match sort g with
      | inl e => (inl e, log)
      | inr sorted => forEach sorted (Package_collectFile sT corePath map) [] log
      end
  end.
Proof.
  unfold Package_orderFiles, fileGraph. cbv zeta. unfold bind at 1.
  rewrite forEach_lift.
  destruct (foldM _ files _) as [e|[g map]]; simpl; [reflexivity|].
  unfold bind. destruct (sort g); reflexivity.
Qed.

Lemma Package_collectFile_loop sT core map sorted : forall acc log,
  forEach sorted (Package_collectFile sT core map) acc log =
  (inr (acc ++ pushed map sorted),
   log ++ List.map (file_diagnostic sT)
            (filter (fun v => negb (String.eqb v core)) (missing map sorted))).
Proof.
  induction sorted as [|v r IH]; intros acc log; simpl.
  - now rewrite !app_nil_r.
  - unfold bind, Package_collectFile.
    destruct (Object_get map v) as [dep|]; simpl.
    + rewrite IH. now rewrite <- app_assoc.
    + destruct (String.eqb v core); simpl.
      * now rewrite IH.
      * unfold console_log, write_line, Console_log. simpl.
        rewrite IH. now rewrite <- app_assoc.
Qed.

Lemma inherited_spec key : inherited key = true <-> In key Object_prototype.
Proof.
  unfold inherited. rewrite existsb_exists. split.
  - intros (x & Hx & E). apply String.eqb_eq in E. now subst.
  - intros H. exists key. split; [assumption | apply String.eqb_refl].
Qed.

Lemma pushed_In map sorted x :
  In x (pushed map sorted) <->
  exists v, In v sorted /\ Object_get map v = Some x.
Proof.
  unfold pushed. rewrite in_flat_map. split.
  - intros (v & Hv & H). exists v. split; [assumption|].
    destruct (Object_get map v) as [y|]; [|destruct H].
    destruct H as [->|[]]. reflexivity.
  - intros (v & Hv & E). exists v. split; [assumption|]. rewrite E. now left.
Qed.

Lemma missing_In map sorted v :
  In v (missing map sorted) <-> In v sorted /\ Object_get map v = None.
Proof.
  unfold missing. rewrite filter_In.
  destruct (Object_get map v); split; intros [H1 H2];
    (split; [assumption|]); congruence.
Qed.

Lemma Object_get_file (map : list (string * File)) v f :
  Object_get map v = Some (inl f) <-> lookup map v = Some f.
Proof.
  unfold Object_get. destruct (lookup map v) as [a|].
  - split; intros H; injection H as ->; reflexivity.
  - destruct (inherited v); split; discriminate.
Qed.

Lemma Object_get_member (map : list (string * File)) v k :
  Object_get map v = Some (inr k) <->
  lookup map v = None /\ inherited v = true /\ k = v.
Proof.
  unfold Object_get. destruct (lookup map v) as [a|].
  - split; [discriminate | intros [H _]; discriminate].
  - destruct (inherited v).
    + split; [intros H; injection H as <-; auto | intros (_ & _ & ->); reflexivity].
    + split; [discriminate | intros (_ & H & _); discriminate].
Qed.

Lemma Object_get_None (map : list (string * File)) v :
  Object_get map v = None <-> lookup map v = None /\ inherited v = false.
Proof.
  unfold Object_get. destruct (lookup map v) as [a|].
  - split; [discriminate | intros [H _]; discriminate].
  - destruct (inherited v); split; try discriminate; auto.
    intros [_ H]. discriminate.
Qed.

Lemma complaints_In sT core map sorted line :
  In line (List.map (file_diagnostic sT)
             (filter (fun v => negb (String.eqb v core)) (missing map sorted)))
  <-> exists v, line = file_diagnostic sT v /\ In v sorted /\
                lookup map v = None /\ inherited v = false /\ v <> core.
Proof.
  rewrite in_map_iff. split.
  - intros (v & <- & H). apply filter_In in H. destruct H as [H Hc].
    apply missing_In in H. destruct H as [Hv H]. apply Object_get_None in H.
    apply negb_true_iff, String.eqb_neq in Hc.
    exists v. tauto.
  - intros (v & -> & Hv & L & I & Hc). exists v. split; [reflexivity|].
    apply filter_In. split.
    + apply missing_In. split; [assumption|]. now apply Object_get_None.
    + now apply negb_true_iff, String.eqb_neq.
Qed.

(** What [orderFiles] has done when it returns. *)
Lemma Package_orderFiles_returns sort sT pT files log result log' :
  Package_orderFiles sort sT pT files log = (inr result, log') ->
  exists g map sorted,
    fileGraph (Path.join (requirePath sT pT) "core") files = inr (g, map) /\
    Graph.wf g /\
    map = rev (List.map (fun f => (dependencyPath f, f)) files) /\
    sort g = inr sorted /\
    result = pushed map sorted /\
    log' = log ++ List.map (file_diagnostic sT)
                    (filter (fun v => negb (String.eqb v
                                 (Path.join (requirePath sT pT) "core")))
                            (missing map sorted)).
Proof.
  rewrite Package_orderFiles_unfold. cbv zeta.
  destruct (fileGraph _ files) as [e|[g map]] eqn:HG; [discriminate|].
  destruct (sort g) as [e|sorted] eqn:Hs; [discriminate|].
  rewrite Package_collectFile_loop. intros H. injection H as <- <-.
  exists g, map, sorted.
  pose proof (foldM_addFile _ _ _ _ _ _ HG wf_empty) as (Hwf & Hmap & _).
  rewrite app_nil_r in Hmap. simpl. auto 10.
Qed.



Lemma file_map_lookup files f :
  NoDup (List.map dependencyPath files) -> In f files ->
  lookup (rev (List.map (fun f => (dependencyPath f, f)) files))
         (dependencyPath f) = Some f.
Proof.
  intros Hnd Hf. apply lookup_In.
  - rewrite map_rev, map_map. simpl. now apply NoDup_rev.
  - rewrite <- in_rev. apply in_map_iff. now exists f.
Qed.

Lemma file_map_None files v :
  (forall f, In f files -> dependencyPath f <> v) ->
  lookup (rev (List.map (fun f => (dependencyPath f, f)) files)) v = None.
Proof.
  intros H. apply lookup_None. rewrite map_rev, map_map. simpl.
  rewrite <- in_rev, in_map_iff. intros (f & E & Hf). exact (H f Hf E).
Qed.

Lemma file_map_None_inv files v :
  lookup (rev (List.map (fun f => (dependencyPath f, f)) files)) v = None ->
  forall f, In f files -> dependencyPath f <> v.
Proof.
  intros L f Hf E.
  destruct (lookup_key (rev (List.map (fun f => (dependencyPath f, f)) files)) v)
    as [x Lx]; [|congruence].
  rewrite map_rev, map_map, <- in_rev. simpl. apply in_map_iff. now exists f.
Qed.




(** X3.  When [orderFiles] throws, it has logged nothing.  It throws a
    type error when one of the files is neither JavaScript nor CoffeeScript
    (its contents are null), and it throws what the sort throws when the
    sort fails on the graph built from the files. *)
Theorem Package_orderFiles_throws (sort : Graph.t -> exn + list string)
        (sT pT : string) (files : list File) (log : list string) :
  ((exists f, In f files /\ isJavaScript f = false /\ isCoffeeScript f = false)
   -> Package_orderFiles sort sT pT files log = (inl TypeError, log)) /\
  (forall g map e,
     fileGraph (Path.join (requirePath sT pT) "core") files = inr (g, map) ->
     sort g = inl e ->
     Package_orderFiles sort sT pT files log = (inl e, log)) /\
  (forall e log',
     Package_orderFiles sort sT pT files log = (inl e, log') -> log' = log).
Proof.
  rewrite Package_orderFiles_unfold. cbv zeta.
  destruct (fileGraph _ files) as [e|[g map]] eqn:HG.
  - unfold fileGraph in HG.
    destruct (foldM_addFile_throws _ _ _ _ HG) as [-> _].
    split; [reflexivity|]. split; [discriminate|].
    intros e log' H. now injection H as _ <-.
  - split; [|split].
    + intros (f & Hf & C). apply contents_None in C.
      exfalso. exact (foldM_addFile_returns _ _ _ _ _ HG f Hf C).
    + intros g0 map0 e E Hs. injection E as <- <-. now rewrite Hs.
    + intros e log'. destruct (sort g) as [e0|sorted].
      * intros H. now injection H as _ <-.
      * rewrite Package_collectFile_loop. discriminate.
Qed.

Lemma pushed_NoDup map (key : File + string -> string) sorted :
  (forall v x, Object_get map v = Some x -> key x = v) ->
  NoDup sorted -> NoDup (pushed map sorted).
Proof.
  intros Hkey Hnd. induction Hnd as [|v r Hv Hr IH]; [constructor|].
  unfold pushed. simpl. fold (pushed map r).
  destruct (Object_get map v) as [x|] eqn:Ex; [|exact IH].
  simpl. constructor; [|exact IH].
  intros Hx. apply pushed_In in Hx. destruct Hx as (w & Hw & Ew).
  apply Hkey in Ex, Ew. congruence.
Qed.

(** X4.  When [orderFiles] returns over a sort that returns every vertex
    once, the list holds no value twice and one file for every dependency
    path that an input file has.  Each value is a file of the input, or a
    member that every object inherits, found under a name that is the core
    path or a path that a file declares as a dependency, and that no file
    has.  The lines already logged stay, and every line added is the
    diagnostic for a path that some file declares as a dependency, that no
    file has, that names no inherited member and that is not the core
    path. *)
Theorem Package_orderFiles_result (sort : Graph.t -> exn + list string)
        (sT pT : string) (files : list File) (log : list string)
        (result : list (File + string)) (log' : list string) :
  sort_sound sort ->
  ~ In "__proto__"%string (List.map dependencyPath files) ->
  Package_orderFiles sort sT pT files log = (inr result, log') ->
  let corePath := Path.join (requirePath sT pT) "core" in
  let declares d :=
    exists f deps, In f files /\
                   PackageFile_scRequireDependencies f = inr deps /\ In d deps in
  NoDup result /\
  (forall f, In (inl f) result -> In f files) /\
  (forall k, In (inr k) result ->
     In k Object_prototype /\ (k = corePath \/ declares k) /\
     forall f, In f files -> dependencyPath f <> k) /\
  (forall f, In f files ->
     exists f', In (inl f') result /\ dependencyPath f' = dependencyPath f) /\
  exists lines,
    log' = log ++ lines /\
    forall line, In line lines ->
      exists d,
        line = file_diagnostic sT d /\ declares d /\ d <> corePath /\
        ~ In d Object_prototype /\
        forall f, In f files -> dependencyPath f <> d.
Proof.
  intros Hs _ H corePath declares.
  destruct (Package_orderFiles_returns _ _ _ _ _ _ _ H)
    as (g & map & sorted & HG & Hwf & Hmap & Es & -> & ->).
  fold corePath in HG |- *.
  destruct (Hs g sorted Hwf Es) as (Hin & Hnd & _).
  destruct (foldM_addFile _ _ _ _ _ _ HG wf_empty) as (_ & _ & _ & Hfiles & _).
  destruct (foldM_addFile_graph _ _ _ _ _ _ HG) as [Hv _].
  assert (forall v, In v sorted -> lookup map v = None ->
                    v = corePath \/ declares v) as Hfree.
  { intros v Hvs L. apply Hin, Hv in Hvs.
    destruct Hvs as [[]|[->|[(f & Hf & E)|(f & deps & Hf & D & Hd)]]].
    - now left.
    - exfalso. rewrite Hmap in L. exact (file_map_None_inv files v L f Hf E).
    - right. now exists f, deps. }
  split; [|split; [|split; [|split]]].
  - apply (pushed_NoDup map
             (fun x => match x with inl f => dependencyPath f | inr k => k end));
      [|assumption].
    intros v [f|k] E.
    + apply Object_get_file in E. rewrite Hmap in E.
      now apply map_key_file in E.
    + apply Object_get_member in E. now destruct E as (_ & _ & ->).
  - intros f Hf. apply pushed_In in Hf. destruct Hf as (v & _ & E).
    apply Object_get_file in E. rewrite Hmap in E. now apply map_key_file in E.
  - intros k Hk. apply pushed_In in Hk. destruct Hk as (v & Hvs & E).
    apply Object_get_member in E. destruct E as (L & I & ->).
    split; [now apply inherited_spec|]. split; [now apply Hfree|].
    rewrite Hmap in L. now apply file_map_None_inv.
  - intros f Hf.
    destruct (lookup_key map (dependencyPath f)) as [f' L].
    { rewrite Hmap, map_rev, map_map, <- in_rev. simpl.
      apply in_map_iff. now exists f. }
    exists f'. split.
    + apply pushed_In. exists (dependencyPath f). split.
      * apply Hin. now apply Hfiles.
      * now apply Object_get_file.
    + rewrite Hmap in L. now apply map_key_file in L.
  - eexists. split; [reflexivity|]. intros line Hl.
    apply complaints_In in Hl. destruct Hl as (d & -> & Hd & L & I & Hne).
    exists d. split; [reflexivity|].
    destruct (Hfree d Hd L) as [->|Hdec]; [contradiction|].
    split; [assumption|]. split; [assumption|]. split.
    + rewrite <- inherited_spec. congruence.
    + rewrite Hmap in L. now apply file_map_None_inv.
Qed.

Lemma Package_orderFiles_result_witness :
  NoDup [@inl File string Examples.a_js; inl Examples.b_js].
Proof.
  destruct (Package_orderFiles_result sortProper
              Examples.packageTree Examples.parentTree
              [Examples.b_js; Examples.a_js] []
              [inl Examples.a_js; inl Examples.b_js] []) as [H _].
  - exact sortProper_sound.
  - vm_compute. intros [E|[E|[]]]; discriminate.
  - vm_compute. reflexivity.
  - exact H.
Defined.

(** X5.  When no two files have the same dependency path and [orderFiles]
    returns over a sort that returns every vertex once, the files of the
    returned list are a rearrangement of the input: every file, once. *)
Theorem Package_orderFiles_permutation (sort : Graph.t -> exn + list string)
        (sT pT : string) (files : list File) (log : list string)
        (result : list (File + string)) (log' : list string) :
  sort_sound sort ->
  NoDup (List.map dependencyPath files) ->
  ~ In "__proto__"%string (List.map dependencyPath files) ->
  Package_orderFiles sort sT pT files log = (inr result, log') ->
  Permutation files (files_of result).
Proof.
  intros Hs Hpaths _ H.
  destruct (Package_orderFiles_returns _ _ _ _ _ _ _ H)
    as (g & map & sorted & HG & Hwf & Hmap & Es & -> & _).
  destruct (Hs g sorted Hwf Es) as (Hin & Hnd & _).
  destruct (foldM_addFile _ _ _ _ _ _ HG wf_empty) as (_ & _ & _ & Hfiles & _).
  assert (files_of (pushed map sorted) = collected map sorted) as ->.
  { unfold files_of, pushed, collected. clear.
    induction sorted as [|v r IH]; simpl; [reflexivity|].
    rewrite flat_map_app, IH. f_equal. unfold Object_get.
    destruct (lookup map v); simpl; [reflexivity|].
    destruct (inherited v); reflexivity. }
  apply NoDup_Permutation.
  - now apply NoDup_map_inv in Hpaths.
  - apply (collected_NoDup map dependencyPath); [|assumption].
    intros v f L. rewrite Hmap in L. now apply map_key_file in L.
  - intros f. split.
    + intros Hf. apply collected_In. exists (dependencyPath f). split.
      * apply Hin. now apply Hfiles.
      * rewrite Hmap. now apply file_map_lookup.
    + intros Hf. apply collected_In in Hf. destruct Hf as (v & _ & L).
      rewrite Hmap in L. now apply map_key_file in L.
Qed.

Lemma Package_orderFiles_permutation_witness :
  Permutation [Examples.b_js; Examples.a_js]
              (files_of [inl Examples.a_js; inl Examples.b_js]).
Proof.
  apply (Package_orderFiles_permutation sortProper
           Examples.packageTree Examples.parentTree
           [Examples.b_js; Examples.a_js] []
           [inl Examples.a_js; inl Examples.b_js] []).
  - exact sortProper_sound.
  - exact paths_b_a.
  - vm_compute. intros [E|[E|[]]]; discriminate.
  - vm_compute. reflexivity.
Defined.

(** X30.  The map of [orderFiles] is a plain object.  When a file declares
    a dependency path that no file has and that is the name of a member
    that every object inherits (constructor, toString and the like), the
    lookup finds that member: when [orderFiles] returns, the member is in
    the returned list, and no diagnostic for the path is among the lines
    logged. *)
Theorem Package_orderFiles_inherited (sort : Graph.t -> exn + list string)
        (sT pT : string) (files : list File) (log : list string)
        (result : list (File + string)) (log' : list string)
        (f : File) (deps : list string) (d : string) :
  sort_sound sort ->
  ~ In "__proto__"%string (List.map dependencyPath files) ->
  Package_orderFiles sort sT pT files log = (inr result, log') ->
  In f files ->
  PackageFile_scRequireDependencies f = inr deps ->
  In d deps ->
  (forall f', In f' files -> dependencyPath f' <> d) ->
  In d Object_prototype ->
  In (inr d) result /\
  exists lines, log' = log ++ lines /\ ~ In (file_diagnostic sT d) lines.
Proof.
  intros Hs _ H Hf Hdeps Hd Hun Hi.
  destruct (Package_orderFiles_returns _ _ _ _ _ _ _ H)
    as (g & map & sorted & HG & Hwf & Hmap & Es & -> & ->).
  destruct (Hs g sorted Hwf Es) as (Hin & _ & _).
  destruct (foldM_addFile _ _ _ _ _ _ HG wf_empty) as (_ & _ & _ & _ & Hdv).
  apply inherited_spec in Hi.
  split.
  - apply pushed_In. exists d. split.
    + apply Hin. now apply (Hdv f deps).
    + apply Object_get_member. split; [|auto].
      rewrite Hmap. now apply file_map_None.
  - eexists. split; [reflexivity|].
    intros C. apply complaints_In in C.
    destruct C as (v & E & _ & _ & Hv & _).
    apply file_diagnostic_inj in E. subst v. congruence.
Qed.

Lemma Package_orderFiles_ctor :
  Package_orderFiles sortProper Examples.packageTree Examples.parentTree
                     [Examples.ctor_js] []
  = (inr [inr "constructor"%string; inl Examples.ctor_js], []).
Proof. vm_compute. reflexivity. Qed.

Lemma Package_orderFiles_inherited_witness :
  In (@inr File string "constructor"%string)
     [inr "constructor"%string; inl Examples.ctor_js].
Proof.
  apply (Package_orderFiles_inherited sortProper
           Examples.packageTree Examples.parentTree [Examples.ctor_js] []
           [inr "constructor"%string; inl Examples.ctor_js] []
           Examples.ctor_js ["constructor"%string] "constructor"%string).
  - exact sortProper_sound.
  - vm_compute. intros [E|[]]. discriminate.
  - exact Package_orderFiles_ctor.
  - now left.
  - reflexivity.
  - now left.
  - intros f' [<-|[]]. vm_compute. discriminate.
  - simpl. tauto.
Defined.

End PackageFilesOrdered.

(** ** The scripts of a target *)

Section TargetScripts.

Lemma Target_collectFile_loop name map sorted : forall acc log,
  forEach sorted (Target_collectFile name map) acc log =
  (inr (acc ++ pushed map sorted),
   log ++ List.map (framework_diagnostic name) (missing map sorted)).
Proof.
  induction sorted as [|v r IH]; intros acc log; simpl.
  - now rewrite !app_nil_r.
  - unfold bind, Target_collectFile.
    destruct (Object_get map v) as [dep|]; simpl.
    + rewrite IH. now rewrite <- app_assoc.
    + unfold console_log, write_line, Console_log. simpl.
      rewrite IH. now rewrite <- app_assoc.
Qed.

(** What the first loop has built after any number of files. *)
Lemma foldM_Target_addFile files : forall g map g' map',
  foldM Target_addFile files (g, map) = inr (g', map') ->
  Graph.wf g ->
  Graph.wf g' /\
  map' = rev (List.map (fun f => (Target_dependencyPath f, f)) files) ++ map /\
  (forall w, In w (Graph.vertices g) -> In w (Graph.vertices g')) /\
  (forall e, In e (Graph.edges g) -> In e (Graph.edges g')) /\
  (files <> [] -> In "core"%string (Graph.vertices g')) /\
  (forall f, In f files ->
     In ("core"%string, Target_dependencyPath f) (Graph.edges g')).
Proof.
  induction files as [|f r IH]; intros g map g' map' H Hwf; simpl in H.
  - injection H as <- <-.
    split; [assumption|]. split; [reflexivity|]. split; [auto|].
    split; [auto|]. split; [congruence | intros ? []].
  - unfold Target_addFile in H at 1.
    destruct (File_scRequireDependencies f) as [e|deps] eqn:D; [discriminate|].
    apply IH in H.
    2:{ apply wf_addEdge, fold_addEdge_wf, wf_addVertex, Hwf. }
    destruct H as (Hwf' & Hmap & Hmono & Hedges & _ & Hcore).
    split; [assumption|]. split; [|split; [|split; [|split]]].
    + rewrite Hmap. simpl. now rewrite <- app_assoc.
    + intros w Hw. apply Hmono. rewrite addEdge_vertices. right. right.
      apply fold_addEdge_vertices. left. rewrite addVertex_vertices. now right.
    + intros e He. apply Hedges. rewrite addEdge_edges, in_app_iff. left.
      apply fold_addEdge_edges. now rewrite addVertex_edges.
    + intros _. apply Hmono. rewrite addEdge_vertices. now left.
    + intros f0 [<-|Hin]; [|now apply Hcore].
      apply Hedges. rewrite addEdge_edges, in_app_iff. right. now left.
Qed.

Lemma Target_orderedJavaScriptFiles_unfold sort name files packager log :
  Target_orderedJavaScriptFiles sort name files packager log =
  match foldM Target_addFile (filter Target_accepts files) (Graph.empty, []) with
  | inl e => (inl e, log)
  | inr (g, map) =>
      match sort g with
      | inl e => (inl e, log)
      | inr sorted =>
          match Target_orderedCorePackageFiles sort packager
                  (log ++ List.map (framework_diagnostic name)
                                   (missing map sorted)) with
          | (inl e, log') => (inl e, log')
          | (inr packageFiles, log') =>
              (inr (pushed map sorted ++ packageFiles), log')
          end
      end
  end.
Proof.
  unfold Target_orderedJavaScriptFiles. cbv zeta. unfold bind at 1.
  rewrite forEach_lift.
  destruct (foldM _ _ _) as [e|[g map]]; simpl; [reflexivity|].
  unfold bind at 1. destruct (sort g); simpl; [reflexivity|].
  unfold bind at 1. rewrite Target_collectFile_loop. simpl.
  unfold bind.
  destruct (Target_orderedCorePackageFiles sort packager _) as [[e|pf] l'];
    reflexivity.
Qed.

(** [orderFiles] only adds lines to the log. *)
Lemma Package_orderFiles_log sort sT pT files log :
  exists lines, snd (Package_orderFiles sort sT pT files log) = log ++ lines.
Proof.
  rewrite Package_orderFiles_unfold. cbv zeta.
  destruct (fileGraph _ files) as [e|[g map]];
    [exists []; simpl; now rewrite app_nil_r|].
  destruct (sort g) as [e|sorted];
    [exists []; simpl; now rewrite app_nil_r|].
  rewrite Package_collectFile_loop. simpl. eauto.
Qed.

Lemma Target_orderedCorePackageFiles_loop sort packages : forall acc log,
  exists lines,
    snd (forEach packages
           (fun packageFiles p =>
              if negb (String.eqb (type (info p)) "core") then ret packageFiles
              else fs <- Package_orderedJavaScriptFiles sort p ;;
                   ret (packageFiles ++ fs))
           acc log) = log ++ lines.
Proof.
  induction packages as [|p r IH]; intros acc log.
  - exists []. simpl. now rewrite app_nil_r.
  - cbn [forEach]. unfold bind at 1.
    destruct (negb (String.eqb (type (info p)) "core")).
    + unfold ret at 1. apply IH.
    + unfold bind at 1. unfold Package_orderedJavaScriptFiles.
      destruct (Package_orderFiles_log sort (pkgSourceTree (info p))
                  (pkgParentSourceTree (info p)) (files (info p)) log)
        as [l1 E1].
      destruct (Package_orderFiles sort _ _ _ log) as [[e|fs] log1];
        simpl in E1; subst log1.
      * now exists l1.
      * destruct (IH (acc ++ fs) (log ++ l1)) as [l2 E2].
        exists (l1 ++ l2). rewrite app_assoc, <- E2. reflexivity.
Qed.

Lemma Target_orderedCorePackageFiles_log sort packager log :
  exists lines,
    snd (Target_orderedCorePackageFiles sort packager log) = log ++ lines.
Proof.
  destruct packager as [packages|]; simpl.
  - apply Target_orderedCorePackageFiles_loop.
  - exists []. now rewrite app_nil_r.
Qed.

(** What [orderedJavaScriptFiles] of a target has done when it returns. *)
Lemma Target_orderedJavaScriptFiles_returns sort name files packager log
      result log' :
  Target_orderedJavaScriptFiles sort name files packager log
    = (inr result, log') ->
  exists g map sorted packageFiles lines,
    foldM Target_addFile (filter Target_accepts files) (Graph.empty, [])
      = inr (g, map) /\
    sort g = inr sorted /\
    Target_orderedCorePackageFiles sort packager
      (log ++ List.map (framework_diagnostic name) (missing map sorted))
    = (inr packageFiles, log') /\
    result = pushed map sorted ++ packageFiles /\
    log' = (log ++ List.map (framework_diagnostic name) (missing map sorted))
           ++ lines.
Proof.
  rewrite Target_orderedJavaScriptFiles_unfold.
  destruct (foldM _ _ _) as [e|[g map]] eqn:HG; [discriminate|].
  destruct (sort g) as [e|sorted] eqn:Hs; [discriminate|].
  destruct (Target_orderedCorePackageFiles_log sort packager
              (log ++ List.map (framework_diagnostic name)
                               (missing map sorted))) as [lines El].
  destruct (Target_orderedCorePackageFiles sort packager _)
    as [[e|pf] l'] eqn:Ep; [discriminate|].
  intros H. injection H as <- <-. simpl in El.
  exists g, map, sorted, pf, lines.
  repeat (split; [first [reflexivity | assumption]|]). exact El.
Qed.

(** X20.  The list that [orderedJavaScriptFiles] of a target returns, over
    a sort that returns every vertex once, is what the target itself gives
    followed by the files of its core packages.  Of the first part no value
    is there twice, and each is a file of the target that passed the filter
    (it is JavaScript or CoffeeScript, and its path below the source tree
    neither starts with test or node nor contains test_suite), or else a
    member that every object inherits, found under a name that no script of
    the target has as its path. *)
Theorem Target_orderedJavaScriptFiles_own (sort : Graph.t -> exn + list string)
        (name : string) (files : list File)
        (packager : option (list Package)) (log : list string)
        (result : list (File + string)) (log' : list string) :
  sort_sound sort ->
  ~ In "__proto__"%string
       (List.map Target_dependencyPath (filter Target_accepts files)) ->
  Target_orderedJavaScriptFiles sort name files packager log
    = (inr result, log') ->
  exists own packageFiles log1,
    result = own ++ packageFiles /\
    Target_orderedCorePackageFiles sort packager log1
      = (inr packageFiles, log') /\
    NoDup own /\
    (forall f, In (inl f) own ->
       In f files /\
       (isJavaScript f = true \/ isCoffeeScript f = true) /\
       JS.slice_to 4 (File_relativePath f) <> "test"%string /\
       JS.slice_to 4 (File_relativePath f) <> "node"%string /\
       includes "test_suite" (File_relativePath f) = false) /\
    (forall k, In (inr k) own ->
       In k Object_prototype /\
       forall f, In f files -> Target_accepts f = true ->
                 Target_dependencyPath f <> k).
Proof.
  intros Hsound _ H.
  destruct (Target_orderedJavaScriptFiles_returns _ _ _ _ _ _ _ H)
    as (g & map & sorted & pf & lines & HG & Hs & Hp & -> & _).
  destruct (foldM_Target_addFile _ _ _ _ _ HG wf_empty) as (Hwf & Hmap & _).
  rewrite app_nil_r in Hmap.
  destruct (Hsound g sorted Hwf Hs) as (_ & Hnd & _).
  assert (forall v f, lookup map v = Some f ->
            Target_dependencyPath f = v /\ In f (filter Target_accepts files))
    as Hkey.
  { intros v f L. apply lookup_Some_In in L.
    rewrite Hmap, <- in_rev, in_map_iff in L.
    destruct L as (f0 & E & Hf0). injection E as <- <-. now split. }
  do 3 eexists. split; [reflexivity|]. split; [exact Hp|].
  split; [|split].
  - apply (pushed_NoDup map
             (fun x => match x with
                       | inl f => Target_dependencyPath f
                       | inr k => k
                       end)); [|assumption].
    intros v [f|k] E.
    + apply Object_get_file in E. now apply Hkey in E.
    + apply Object_get_member in E. now destruct E as (_ & _ & ->).
  - intros f Hf. apply pushed_In in Hf. destruct Hf as (v & _ & L).
    apply Object_get_file in L.
    apply Hkey in L. destruct L as [_ Hin].
    apply filter_In in Hin. destruct Hin as [Hin Ha]. split; [assumption|].
    unfold Target_accepts in Ha. cbv zeta in Ha.
    destruct (String.eqb_spec (JS.slice_to 4 (File_relativePath f)) "test");
      [discriminate|].
    destruct (String.eqb_spec (JS.slice_to 4 (File_relativePath f)) "node");
      [discriminate|].
    destruct (includes "test_suite" (File_relativePath f)); [discriminate|].
    apply orb_true_iff in Ha. repeat split; assumption.
  - intros k Hk. apply pushed_In in Hk. destruct Hk as (v & _ & E).
    apply Object_get_member in E. destruct E as (L & I & ->).
    split; [now apply inherited_spec|].
    intros f Hf Ha E.
    destruct (lookup_key map v) as [x Lx]; [|congruence].
    rewrite Hmap, map_rev, map_map, <- in_rev. simpl.
    apply in_map_iff. exists f. split; [assumption|].
    apply filter_In. now split.
Qed.

(** X21.  A target that has a script but none with the dependency path
    [core] never gets its list without a complaint about [core]: every
    script gets an edge from the vertex [core], and when
    [orderedJavaScriptFiles] returns, the line that the framework
    dependency [core] could not be found is on the log. *)
Theorem Target_orderedJavaScriptFiles_core (sort : Graph.t -> exn + list string)
        (name : string) (files : list File)
        (packager : option (list Package)) (log : list string)
        (result : list (File + string)) (log' : list string) (f : File) :
  sort_sound sort ->
  ~ In "__proto__"%string
       (List.map Target_dependencyPath (filter Target_accepts files)) ->
  Target_orderedJavaScriptFiles sort name files packager log
    = (inr result, log') ->
  In f files -> Target_accepts f = true ->
  (forall f', In f' files -> Target_accepts f' = true ->
              Target_dependencyPath f' <> "core"%string) ->
  In (framework_diagnostic name "core") log'.
Proof.
  intros Hsound _ H Hf Ha Hno.
  destruct (Target_orderedJavaScriptFiles_returns _ _ _ _ _ _ _ H)
    as (g & map & sorted & pf & lines & HG & Hs & _ & _ & ->).
  destruct (foldM_Target_addFile _ _ _ _ _ HG wf_empty)
    as (Hwf & Hmap & _ & _ & Hcore & Hedge).
  rewrite app_nil_r in Hmap.
  destruct (Hsound g sorted Hwf Hs) as (Hin & _ & _).
  rewrite !in_app_iff. left. right. apply in_map_iff.
  exists "core"%string. split; [reflexivity|].
  apply missing_In. split.
  - apply Hin. apply Hcore. intros E.
    assert (In f (filter Target_accepts files)) as Hin'
        by (apply filter_In; now split).
    rewrite E in Hin'. destruct Hin'.
  - apply Object_get_None. split; [|reflexivity].
    apply lookup_None.
    rewrite Hmap, map_rev, map_map, <- in_rev, in_map_iff. simpl.
    intros (f' & E & Hf'). apply filter_In in Hf'. destruct Hf' as [Hf' Ha'].
    exact (Hno f' Hf' Ha' E).
Qed.

Lemma Target_orderedJavaScriptFiles_fw :
  Target_orderedJavaScriptFiles sortProper "fw"
    [Examples.main_js; Examples.test_js; Examples.readme; Examples.util_js]
    None []
  = (inr [inl Examples.util_js; inl Examples.main_js],
     ["could not find fw framework dependency: core"%string]).
Proof. vm_compute. reflexivity. Qed.

Lemma Target_paths_fw :
  ~ In "__proto__"%string
       (List.map Target_dependencyPath
          (filter Target_accepts
             [Examples.main_js; Examples.test_js; Examples.readme;
              Examples.util_js])).
Proof. vm_compute. intros [E|[E|[]]]; discriminate. Qed.

Lemma Target_orderedJavaScriptFiles_own_witness :
  exists own packageFiles,
    [@inl File string Examples.util_js; inl Examples.main_js]
      = own ++ packageFiles /\
    ~ In (inl Examples.test_js) own /\ ~ In (inl Examples.readme) own.
Proof.
  destruct (Target_orderedJavaScriptFiles_own sortProper _ _ _ _ _ _
              sortProper_sound Target_paths_fw
              Target_orderedJavaScriptFiles_fw)
    as (own & packageFiles & log1 & E & _ & _ & Hown & _).
  exists own, packageFiles. split; [exact E|]. split.
  - intros Hin. destruct (Hown _ Hin) as (_ & _ & Ht & _).
    apply Ht. reflexivity.
  - intros Hin. destruct (Hown _ Hin) as (_ & [Hs|Hs] & _); discriminate.
Defined.

Lemma Target_orderedJavaScriptFiles_core_witness :
  In "could not find fw framework dependency: core"%string
     ["could not find fw framework dependency: core"%string].
Proof.
  apply (Target_orderedJavaScriptFiles_core sortProper _ _ _ _ _ _
           Examples.main_js sortProper_sound Target_paths_fw
           Target_orderedJavaScriptFiles_fw (or_introl eq_refl) eq_refl).
  intros f' [<-|[<-|[<-|[<-|[]]]]] Ha; vm_compute; discriminate.
Defined.

End TargetScripts.

(** ** The packager with its other properties *)

Section PackagerOrdered.

Lemma Packager_findPackage_plain reserved store key :
  Packager_findPackage reserved store key <> IsOther ->
  Packager_findPackage reserved store key
  = match findPackage store key with
    | Some j => IsPackage j
    | None => IsNothing
    end.
Proof.
  unfold Packager_findPackage, findPackage.
  destruct (find_index _ store); [reflexivity|].
  destruct (existsb _ _); [congruence|].
  now destruct (find_index _ store).
Qed.

Lemma promoted_Packager_findPackage reserved store store' key :
  promoted store store' ->
  Packager_findPackage reserved store' key
  = Packager_findPackage reserved store key.
Proof.
  intros H. unfold Packager_findPackage.
  rewrite <- (find_index_related (fun p => String.eqb (uuid p) key)
               (fun p => String.eqb (uuid p) key) same_but_type store store');
    [|intros a b Hab; now rewrite (same_but_type_uuid a b Hab) | assumption].
  rewrite <- (find_index_related (fun p => String.eqb (basename (info p)) key)
               (fun p => String.eqb (basename (info p)) key)
               same_but_type store store');
    [reflexivity
    |intros a b Hab; now rewrite (same_but_type_basename a b Hab) | assumption].
Qed.

Lemma Packager_resolveDependency_unfold reserved i name parent g d store log :
  Packager_resolveDependency reserved i name parent g d (store, log)
  = match Packager_findPackage reserved store d with
    | IsPackage j =>
        if String.eqb (typeAt store i) "core"
           && negb (String.eqb (typeAt store j) "core")
        then (inr (Graph.addEdge
                     (uuidAt (update j (setType "core") store) j) name g),
              (update j (setType "core") store,
               log ++ [promotion_diagnostic (basenameAt store j)]))
        else (inr (Graph.addEdge (uuidAt store j) name g), (store, log))
    | IsOther => (inl TypeError, (store, log))
    | IsNothing =>
        (inr (Graph.addEdge "undefined" name g),
         (store, log ++ [missing_diagnostic d (basenameAt store i) parent]))
    end.
Proof.
  unfold Packager_resolveDependency, bind, the_store. cbn [fst snd].
  destruct (Packager_findPackage reserved store d) as [j| |]; try reflexivity.
  destruct (String.eqb (typeAt store i) "core"
            && negb (String.eqb (typeAt store j) "core")); reflexivity.
Qed.

(** One dependency: the type error, or what the loop does without the
    other properties of the packager. *)
Lemma Packager_resolveDependency_cases reserved i name parent g d
      (store : Store) log :
  (Packager_findPackage reserved store d = IsOther /\
   Packager_resolveDependency reserved i name parent g d (store, log)
   = (inl TypeError, (store, log)))
  \/
  (Packager_findPackage reserved store d <> IsOther /\
   exists store' g' log',
     resolveDependency i name parent (store, g) d log
       = (inr (store', g'), log') /\
     Packager_resolveDependency reserved i name parent g d (store, log)
       = (inr g', (store', log'))).
Proof.
  rewrite Packager_resolveDependency_unfold.
  pose proof (Packager_findPackage_plain reserved store d) as P.
  destruct (Packager_findPackage reserved store d) as [j| |] eqn:F.
  - right. split; [discriminate|].
    specialize (P ltac:(discriminate)).
    assert (findPackage store d = Some j) as F'
        by (destruct (findPackage store d); congruence).
    unfold resolveDependency. rewrite F'.
    destruct (String.eqb (typeAt store i) "core"
              && negb (String.eqb (typeAt store j) "core"));
      do 3 eexists; split; reflexivity.
  - left. split; reflexivity.
  - right. split; [discriminate|].
    specialize (P ltac:(discriminate)).
    assert (findPackage store d = None) as F'
        by (destruct (findPackage store d); congruence).
    unfold resolveDependency. rewrite F'.
    do 3 eexists. split; reflexivity.
Qed.

Lemma Packager_resolveDependencies_cases reserved i name parent deps :
  forall g (store : Store) log,
  (exists d s', In d deps /\
     Packager_findPackage reserved store d = IsOther /\
     forEach deps (Packager_resolveDependency reserved i name parent) g
             (store, log) = (inl TypeError, s'))
  \/
  ((forall d, In d deps -> Packager_findPackage reserved store d <> IsOther) /\
   exists store' g' log',
     forEach deps (resolveDependency i name parent) (store, g) log
       = (inr (store', g'), log') /\
     forEach deps (Packager_resolveDependency reserved i name parent) g
             (store, log) = (inr g', (store', log'))).
Proof.
  induction deps as [|d r IH]; intros g store log.
  - right. split; [intros ? []|]. do 3 eexists. split; reflexivity.
  - cbn [forEach]. unfold bind.
    destruct (Packager_resolveDependency_cases reserved i name parent g d
                store log) as [[F E]|(F & s1 & g1 & l1 & E1 & E2)].
    + left. exists d. eexists. split; [now left|]. split; [exact F|].
      rewrite E. reflexivity.
    + rewrite E2.
      destruct (resolveDependency_spec i name parent store g d log)
        as (s1' & g1' & l1' & E1' & P1 & _).
      rewrite E1 in E1'. injection E1' as <- <- <-.
      destruct (IH g1 s1 l1) as [(d' & s' & Hd' & F' & E')|(Hall & R)].
      * left. exists d', s'. split; [now right|]. split; [|exact E'].
        now rewrite <- (promoted_Packager_findPackage reserved store s1 d' P1).
      * right. split.
        -- intros d' [<-|Hd']; [exact F|].
           rewrite <- (promoted_Packager_findPackage reserved store s1 d' P1).
           now apply Hall.
        -- destruct R as (s2 & g2 & l2 & R1 & R2).
           exists s2, g2, l2. split; [|exact R2].
           now rewrite E1.
Qed.

Lemma Packager_resolvePackage_unfold reserved st i store log :
  Packager_resolvePackage reserved st i (store, log)
  = match nth_error store i with
    | None => (inr st, (store, log))
    | Some package =>
        match forEach (declared package)
                (Packager_resolveDependency reserved i (nodeName package)
                   (Path.basename (pkgParentSourceTree (info package))))
                (Graph.addVertex (nodeName package) (fst st)) (store, log) with
        | (inl e, s') => (inl e, s')
        | (inr g, s') => (inr (g, (nodeName package, i) :: snd st), s')
        end
    end.
Proof.
  unfold Packager_resolvePackage, bind, the_store, declared. cbn [fst snd].
  destruct (nth_error store i) as [package|]; [|reflexivity].
  destruct (forEach _ _ _ _) as [[e|g] s']; reflexivity.
Qed.

Lemma resolvePackage_unfold store g map i log :
  resolvePackage (store, g, map) i log
  = match nth_error store i with
    | None => (inr (store, g, map), log)
    | Some package =>
        match forEach (declared package)
                (resolveDependency i (nodeName package)
                   (Path.basename (pkgParentSourceTree (info package))))
                (store, Graph.addVertex (nodeName package) g) log with
        | (inl e, log') => (inl e, log')
        | (inr sg, log') =>
            (inr (fst sg, snd sg, (nodeName package, i) :: map), log')
        end
    end.
Proof.
  unfold resolvePackage, bind, declared.
  destruct (nth_error store i) as [package|]; [|reflexivity].
  destruct (forEach _ _ _ _) as [[e|sg] log']; reflexivity.
Qed.

Lemma Packager_resolvePackage_cases reserved st i (store : Store) log :
  (exists q d s', nth_error store i = Some q /\ In d (declared q) /\
     Packager_findPackage reserved store d = IsOther /\
     Packager_resolvePackage reserved st i (store, log) = (inl TypeError, s'))
  \/
  ((forall q d, nth_error store i = Some q -> In d (declared q) ->
                Packager_findPackage reserved store d <> IsOther) /\
   exists store' g' map' log',
     resolvePackage (store, fst st, snd st) i log
       = (inr (store', g', map'), log') /\
     Packager_resolvePackage reserved st i (store, log)
       = (inr (g', map'), (store', log'))).
Proof.
  rewrite Packager_resolvePackage_unfold, resolvePackage_unfold.
  destruct (nth_error store i) as [package|] eqn:E.
  - destruct (Packager_resolveDependencies_cases reserved i (nodeName package)
                (Path.basename (pkgParentSourceTree (info package)))
                (declared package) (Graph.addVertex (nodeName package) (fst st))
                store log)
      as [(d & s' & Hd & F & R)|(Hall & s1 & g1 & l1 & R1 & R2)].
    + left. exists package, d, s'. split; [reflexivity|]. split; [exact Hd|].
      split; [exact F|]. now rewrite R.
    + right. split.
      * intros q d Hq. injection Hq as <-. apply Hall.
      * exists s1, g1, ((nodeName package, i) :: snd st), l1.
        rewrite R1, R2. split; reflexivity.
  - right. split; [discriminate|].
    exists store, (fst st), (snd st), log. destruct st. split; reflexivity.
Qed.

Lemma promoted_nth_inv store store' i p' :
  promoted store store' -> nth_error store' i = Some p' ->
  exists p, nth_error store i = Some p /\ same_but_type p p'.
Proof.
  intros P E. destruct (nth_error store i) as [p|] eqn:N.
  - destruct (promoted_nth _ _ _ _ P N) as (p0 & E0 & S).
    exists p. split; [reflexivity|]. congruence.
  - rewrite (promoted_nth_None _ _ _ P N) in E. discriminate.
Qed.

Lemma Packager_resolve_loop reserved l : forall st (store : Store) log,
  (exists i q d s', In i l /\ nth_error store i = Some q /\
     In d (declared q) /\
     Packager_findPackage reserved store d = IsOther /\
     forEach l (Packager_resolvePackage reserved) st (store, log)
     = (inl TypeError, s'))
  \/
  ((forall i q d, In i l -> nth_error store i = Some q -> In d (declared q) ->
                  Packager_findPackage reserved store d <> IsOther) /\
   exists store' g' map' log',
     forEach l resolvePackage (store, fst st, snd st) log
       = (inr (store', g', map'), log') /\
     forEach l (Packager_resolvePackage reserved) st (store, log)
       = (inr (g', map'), (store', log'))).
Proof.
  induction l as [|i r IH]; intros st store log.
  - right. split; [intros ? ? ? []|].
    exists store, (fst st), (snd st), log. destruct st. split; reflexivity.
  - cbn [forEach]. unfold bind.
    destruct (Packager_resolvePackage_cases reserved st i store log)
      as [(q & d & s' & Hq & Hd & F & E)|(Hall & s1 & g1 & m1 & l1 & E1 & E2)].
    + left. exists i, q, d, s'. split; [now left|]. rewrite E. auto.
    + rewrite E1, E2.
      destruct (resolvePackage_spec store (fst st) (snd st) i log)
        as (s1' & g1' & m1' & l1' & E1' & P1 & _).
      rewrite E1 in E1'. injection E1' as <- <- <- <-.
      destruct (IH (g1, m1) s1 l1)
        as [(k & q & d & s' & Hk & Hq & Hd & F & E)|(Hrest & R)].
      * left. destruct (promoted_nth_inv _ _ _ _ P1 Hq) as (q0 & Hq0 & S).
        exists k, q0, d, s'. split; [now right|]. split; [exact Hq0|].
        split; [now rewrite <- (same_but_type_declared q0 q S)|].
        split; [|exact E].
        now rewrite <- (promoted_Packager_findPackage reserved store s1 d P1).
      * right. split; [|exact R].
        intros k q d [<-|Hk] Hq Hd; [now apply (Hall q d)|].
        destruct (promoted_nth _ _ _ _ P1 Hq) as (q' & Hq' & S).
        rewrite <- (promoted_Packager_findPackage reserved store s1 d P1).
        apply (Hrest k q' d Hk Hq').
        now rewrite (same_but_type_declared q q' S).
Qed.

(** The first loop of [orderedPackages] of a packager with plain
    dependencies does what the loop does without the other properties. *)
Lemma Packager_resolve_plain reserved store log :
  plain_dependencies reserved store ->
  exists store' g map log',
    resolve store log = (inr (store', g, map), log') /\
    Packager_resolve reserved (store, log) = (inr (g, map), (store', log')).
Proof.
  intros Hp. unfold Packager_resolve, resolve.
  unfold bind, the_store. cbn [fst snd].
  destruct (Packager_resolve_loop reserved (seq 0 (length store))
              (Graph.empty, []) store log)
    as [(i & q & d & s' & _ & Hq & Hd & F & _)|(_ & R)].
  - exfalso. apply (Hp q d); [|assumption..].
    now apply (nth_error_In store i).
  - exact R.
Qed.

Lemma Packager_orderedPackages_plain sort reserved store log :
  plain_dependencies reserved store ->
  exists store' g map log',
    resolve store log = (inr (store', g, map), log') /\
    Packager_orderedPackages sort reserved (store, log)
    = match sort g with
      | inl e => (inl e, (store', log'))
      | inr sorted => (inr (collectPackages store' map sorted), (store', log'))
      end.
Proof.
  intros Hp.
  destruct (Packager_resolve_plain reserved store log Hp)
    as (s' & g & m & l' & E1 & E2).
  exists s', g, m, l'. split; [exact E1|].
  unfold Packager_orderedPackages. unfold bind at 1. rewrite E2. cbn [fst snd].
  unfold bind at 1. destruct (sort g); reflexivity.
Qed.

(** X1.  [findPackage] gives what [this.get(key)] gives when that is
    something: the package stored under the key, the first that has it as
    identifier, or else the value of the property of that name, which is no
    package.  Only when [this.get] gives nothing is the search by basename
    made, for the first package that has the key as basename, and it finds
    nothing when no package has. *)
Theorem Packager_findPackage_spec (reserved : list string) (store : Store)
        (key : string) :
  match Packager_findPackage reserved store key with
  | IsPackage j =>
      exists p, nth_error store j = Some p /\
        ((uuid p = key /\
          forall i q, i < j -> nth_error store i = Some q -> uuid q <> key)
         \/
         ((forall q, In q store -> uuid q <> key) /\
          ~ In key (Packager_properties ++ reserved) /\
          basename (info p) = key /\
          forall i q, i < j -> nth_error store i = Some q ->
                      basename (info q) <> key))
  | IsOther =>
      (forall q, In q store -> uuid q <> key) /\
      In key (Packager_properties ++ reserved)
  | IsNothing =>
      ~ In key (Packager_properties ++ reserved) /\
      forall q, In q store -> uuid q <> key /\ basename (info q) <> key
  end.
Proof.
  unfold Packager_findPackage.
  destruct (find_index (fun p => String.eqb (uuid p) key) store) as [j|] eqn:U.
  - destruct (find_index_Some _ _ _ U) as (p & Hp & Hk & Hb).
    exists p. split; [assumption|]. left. split; [now apply String.eqb_eq|].
    intros i q Hi Hq. apply String.eqb_neq. now apply (Hb i q).
  - pose proof (find_index_None _ _ U) as HU.
    assert (forall q, In q store -> uuid q <> key) as Hno.
    { intros q Hq. apply String.eqb_neq. now apply HU. }
    destruct (existsb (String.eqb key) (Packager_properties ++ reserved))
      eqn:R.
    + split; [exact Hno|]. apply existsb_exists in R.
      destruct R as (x & Hx & E). apply String.eqb_eq in E. now subst.
    + assert (~ In key (Packager_properties ++ reserved)) as Hr.
      { intros Hin.
        assert (existsb (String.eqb key) (Packager_properties ++ reserved)
                = true) as T.
        { apply existsb_exists. exists key. split; [assumption|].
          apply String.eqb_refl. }
        congruence. }
      destruct (find_index (fun p => String.eqb (basename (info p)) key) store)
        as [j|] eqn:B.
      * destruct (find_index_Some _ _ _ B) as (p & Hp & Hk & Hb).
        exists p. split; [assumption|]. right.
        split; [exact Hno|]. split; [exact Hr|].
        split; [now apply String.eqb_eq|].
        intros i q Hi Hq. apply String.eqb_neq. now apply (Hb i q).
      * pose proof (find_index_None _ _ B) as HB.
        split; [exact Hr|]. intros q Hq. split; [now apply Hno|].
        apply String.eqb_neq. now apply HB.
Qed.

Lemma plain_dependsOn reserved store i q d j :
  plain_dependencies reserved store ->
  nth_error store i = Some q -> In d (declared q) ->
  (Packager_findPackage reserved store d = IsPackage j <->
   findPackage store d = Some j) /\
  (Packager_findPackage reserved store d = IsNothing <->
   findPackage store d = None).
Proof.
  intros Hp Hq Hd.
  pose proof (Packager_findPackage_plain reserved store d
                (Hp q d (nth_error_In store i Hq) Hd)) as E.
  rewrite E. destruct (findPackage store d) as [k|]; split; split;
    intros H; congruence.
Qed.


Lemma pair_plain :
  plain_dependencies Examples.other_properties Examples.pair_store.
Proof.
  intros q d [<-|[<-|[]]] Hd; simpl in Hd; [|destruct Hd].
  destruct Hd as [<-|[]]. vm_compute. discriminate.
Qed.


(** C4.  With [b] (lazy, requires [c]) found by the scan before [a] (core,
    requires [b]), the loop of [orderedPackages] promotes [b] and leaves
    [c] lazy, although [c] is a dependency of the core package [b] now and
    of a dependency of [a]; the log has the one line for [b].  With the
    same packages found in the order [a], [b], [c] it promotes both.  (The
    names [b] and [c] resolve to the packages at the positions 0 and 2 of
    the first scan.) *)
Theorem Packager_chain_left_lazy (sort : Graph.t -> exn + list string) :
  snd (Packager_orderedPackages sort Examples.other_properties
         (Examples.chain_store, []))
  = ([mkPackage "u1" (Examples.dir "b" "core" (Some ["c"%string]));
      mkPackage "u2" (Examples.dir "a" "core" (Some ["b"%string]));
      mkPackage "u3" (Examples.dir "c" "lazy" None)],
     [promotion_diagnostic "b"]) /\
  snd (Packager_orderedPackages sort Examples.other_properties
         (Examples.ordered_chain_store, []))
  = ([mkPackage "u1" (Examples.dir "a" "core" (Some ["b"%string]));
      mkPackage "u2" (Examples.dir "b" "core" (Some ["c"%string]));
      mkPackage "u3" (Examples.dir "c" "core" None)],
     [promotion_diagnostic "b"; promotion_diagnostic "c"]) /\
  Packager_findPackage Examples.other_properties Examples.chain_store "b"
  = IsPackage 0 /\
  Packager_findPackage Examples.other_properties Examples.chain_store "c"
  = IsPackage 2.
Proof.
  split; [|split].
  - unfold Packager_orderedPackages. unfold bind at 1.
    destruct (Packager_resolve _ _) as [[e|[g m]] s'] eqn:E;
      vm_compute in E; [discriminate|].
    injection E as <- <- <-. cbn [fst snd]. unfold bind at 1.
    match goal with |- context [sort ?g0] => destruct (sort g0) end;
      reflexivity.
  - unfold Packager_orderedPackages. unfold bind at 1.
    destruct (Packager_resolve _ _) as [[e|[g m]] s'] eqn:E;
      vm_compute in E; [discriminate|].
    injection E as <- <- <-. cbn [fst snd]. unfold bind at 1.
    match goal with |- context [sort ?g0] => destruct (sort g0) end;
      reflexivity.
  - split; reflexivity.
Qed.

Lemma reach_trans g a b c :
  Graph.reach g a b -> Graph.reach g b c -> Graph.reach g a c.
Proof.
  intros R1 R2. induction R1 as [u v He | u v w He R IH].
  - now apply (Graph.reach_step g u v c).
  - apply (Graph.reach_step g u v c); [assumption | now apply IH].
Qed.

Lemma proper_reach g a b : Graph.reach (proper g) a b -> Graph.reach g a b.
Proof.
  intros R. induction R as [u v He | u v w He R IH].
  - apply Graph.reach_edge. now apply proper_edge in He.
  - apply (Graph.reach_step g u v w); [|assumption].
    now apply proper_edge in He.
Qed.

Lemma dependsOnTransitively_bound store i j :
  dependsOnTransitively store i j -> i < length store.
Proof.
  intros H. destruct H as [i j D | i j k D _]; now apply (dependsOn_bound store i j).
Qed.

(** X23.  Circular dependencies between packages make [orderedPackages]
    throw.  For a packager with distinct identifiers whose packages declare
    no dependency under the name of a property of the packager: when two
    different packages reach each other through declared dependencies,
    [orderedPackages] returns no list over any sort that returns only
    orders in which a dependency comes before the package that declares
    it. *)
Theorem Packager_orderedPackages_circular
        (sort : Graph.t -> exn + list string) (reserved : list string)
        (store : Store) (log : list string) (i j : nat) :
  sort_sound sort ->
  plain_dependencies reserved store ->
  NoDup (map uuid store) ->
  i <> j ->
  dependsOnTransitively store i j ->
  dependsOnTransitively store j i ->
  exists e, fst (Packager_orderedPackages sort reserved (store, log)) = inl e.
Proof.
  intros Hs Hp Hnd Hij Tij Tji.
  destruct (Packager_orderedPackages_plain sort reserved store log Hp)
    as (s' & g & m & l' & E & ->).
  destruct (resolve_returns store log) as (s0 & g0 & m0 & l0 & E0 & W & Ed).
  assert (g0 = g) as -> by congruence.
  destruct (sort g) as [e|sorted] eqn:Es; [now exists e|].
  exfalso. apply (sound_acyclic sort g sorted Hs W Es).
  assert (uuidAt store i <> uuidAt store j) as Hne.
  { intros Eu. apply Hij. apply (uuidAt_inj store); try assumption.
    - now apply (dependsOnTransitively_bound store i j).
    - now apply (dependsOnTransitively_bound store j i). }
  exists (uuidAt store i). apply (reach_trans _ _ (uuidAt store j)).
  - apply reach_proper; [|assumption].
    now apply (dependsOn_reach store g Ed j i).
  - apply reach_proper; [|congruence].
    now apply (dependsOn_reach store g Ed i j).
Qed.

Lemma circular_plain :
  plain_dependencies Examples.other_properties
    [mkPackage "u1" (Examples.dir "a" "lazy" (Some ["b"]%string));
     mkPackage "u2" (Examples.dir "b" "lazy" (Some ["a"]%string))].
Proof.
  intros q d [<-|[<-|[]]] [<-|[]]; vm_compute; discriminate.
Qed.

Lemma Packager_orderedPackages_circular_witness :
  exists e,
    fst (Packager_orderedPackages sortProper Examples.other_properties
           ([mkPackage "u1" (Examples.dir "a" "lazy" (Some ["b"]%string));
             mkPackage "u2" (Examples.dir "b" "lazy" (Some ["a"]%string))], []))
    = inl e.
Proof.
  apply (Packager_orderedPackages_circular sortProper _ _ _ 0 1).
  - exact sortProper_sound.
  - exact circular_plain.
  - simpl. constructor; [|constructor; [|constructor]]; simpl.
    + intros [E|[]]. discriminate.
    + tauto.
  - discriminate.
  - apply dependsOn_direct.
    exists (mkPackage "u1" (Examples.dir "a" "lazy" (Some ["b"]%string))), "b"%string.
    split; [reflexivity|]. split; [now left | reflexivity].
  - apply dependsOn_direct.
    exists (mkPackage "u2" (Examples.dir "b" "lazy" (Some ["a"]%string))), "a"%string.
    split; [reflexivity|]. split; [now left | reflexivity].
Defined.

(** X24.  Every declared dependency that [findPackage] does not resolve is
    reported.  For a packager whose packages declare no dependency under
    the name of a property of the packager: after [orderedPackages],
    whether the sort returns or throws, the log holds the line that names
    the dependency, the package that declares it and the directory of the
    packager. *)
Theorem Packager_orderedPackages_logs_missing
        (sort : Graph.t -> exn + list string) (reserved : list string)
        (store : Store) (log : list string)
        (i : nat) (q : Package) (d : string) :
  plain_dependencies reserved store ->
  nth_error store i = Some q -> In d (declared q) ->
  Packager_findPackage reserved store d = IsNothing ->
  In (missing_diagnostic d (basename (info q))
        (Path.basename (pkgParentSourceTree (info q))))
     (snd (snd (Packager_orderedPackages sort reserved (store, log)))).
Proof.
  intros Hp Hq Hd F.
  destruct (Packager_orderedPackages_plain sort reserved store log Hp)
    as (s' & g & m & l' & E & ->).
  destruct (orderedPackages_log store log) as (_ & M & _).
  specialize (M i q d Hq Hd).
  rewrite orderedPackages_unfold, E in M.
  assert (In (missing_diagnostic d (basename (info q))
                (Path.basename (pkgParentSourceTree (info q)))) l') as Hl.
  { assert (findPackage store d = None) as F'
        by now apply (plain_dependsOn reserved store i q d 0 Hp Hq Hd).
    specialize (M F'). destruct (Graph.topologicalSort g); exact M. }
  destruct (sort g); exact Hl.
Qed.

Lemma missing_plain :
  plain_dependencies Examples.other_properties
    [mkPackage "u1" (Examples.dir "a" "lazy" (Some ["zz"]%string))].
Proof.
  intros q d [<-|[]] [<-|[]]; vm_compute; discriminate.
Qed.

Lemma Packager_orderedPackages_logs_missing_witness :
  In "things are gonna get ugly, couldn't find dependency zz for package a in fw"%string
     (snd (snd (Packager_orderedPackages sortProper Examples.other_properties
                  ([mkPackage "u1" (Examples.dir "a" "lazy" (Some ["zz"]%string))],
                   [])))).
Proof.
  apply (Packager_orderedPackages_logs_missing sortProper
           Examples.other_properties
           [mkPackage "u1" (Examples.dir "a" "lazy" (Some ["zz"]%string))] [] 0
           (mkPackage "u1" (Examples.dir "a" "lazy" (Some ["zz"]%string)))
           "zz"%string).
  - exact missing_plain.
  - reflexivity.
  - now left.
  - reflexivity.
Defined.

(** X28.  For a packager with distinct identifiers, none of them the name
    undefined, whose packages declare no dependency under the name of a
    property of the packager: when no two different packages reach each
    other through declared dependencies, [orderedPackages] returns its
    list over every sort that fails on cycles only.  A dependency that is
    not found does not make it fail, nor does a package that declares
    itself. *)
Theorem Packager_orderedPackages_acyclic
        (sort : Graph.t -> exn + list string) (reserved : list string)
        (store : Store) (log : list string) :
  sort_complete sort ->
  plain_dependencies reserved store ->
  NoDup (map uuid store) -> ~ In "undefined"%string (map uuid store) ->
  (forall i j, i <> j -> dependsOnTransitively store i j ->
               ~ dependsOnTransitively store j i) ->
  exists result store' log',
    Packager_orderedPackages sort reserved (store, log)
    = (inr result, (store', log')).
Proof.
  intros Hc Hp Hnd Hu Hac.
  destruct (Packager_orderedPackages_plain sort reserved store log Hp)
    as (s' & g & m & l' & E & ->).
  destruct (resolve_returns store log) as (s0 & g0 & m0 & l0 & E0 & W & _).
  assert (g0 = g) as -> by congruence.
  assert (~ Graph.cyclic (proper g)) as Hg.
  { intros [v Hv]. unfold resolve in E.
    pose proof (resolve_edges store (length store) 0 (store, Graph.empty, [])
                  log (s', g, m) l' (promoted_refl store)) as He.
    cbn [fst snd] in He.
    specialize (He (fun e (H : In e []) => match H with end) E).
    assert (forall a b, Graph.reach g a b ->
              exists i, i < length store /\ b = uuidAt store i) as Hend.
    { intros a b R. induction R as [x y Exy | x y z _ _ IH]; [|exact IH].
      destruct (He _ Exy) as (i & Hs & Hi & _). now exists i. }
    assert (exists w, v <> w /\ Graph.reach g v w /\ Graph.reach g w v)
      as (w & Hvw & Rvw & Rwv).
    { inversion Hv as [x y Exy | x y z Exy R]; subst.
      - apply proper_edge in Exy. now destruct Exy.
      - apply proper_edge in Exy. destruct Exy as [Exy Hne].
        exists y. split; [assumption|]. split.
        + now apply Graph.reach_edge.
        + now apply proper_reach. }
    destruct (Hend _ _ Rvw) as (iw & Hiw & ->).
    destruct (Hend _ _ Rwv) as (iv & Hiv & ->).
    destruct (reach_dependsOn store g Hnd Hu He _ _ Rvw iw Hiw eq_refl)
      as [Hv'|(ia & Hia & Ea & Twv)].
    { apply Hu. rewrite <- Hv'. now apply uuidAt_In. }
    apply (uuidAt_inj store) in Ea; [|assumption..]. subst ia.
    destruct (reach_dependsOn store g Hnd Hu He _ _ Rwv iv Hiv eq_refl)
      as [Hw'|(ib & Hib & Eb & Tvw)].
    { apply Hu. rewrite <- Hw'. now apply uuidAt_In. }
    apply (uuidAt_inj store) in Eb; [|assumption..]. subst ib.
    apply (Hac iw iv); [congruence | assumption..]. }
  destruct (Hc g W Hg) as [sorted ->]. eauto.
Qed.

Lemma acyclic_plain :
  plain_dependencies Examples.other_properties
    [mkPackage "u1" (Examples.dir "a" "lazy" (Some ["b"; "zz"; "a"]%string));
     mkPackage "u2" (Examples.dir "b" "lazy" None)].
Proof.
  intros q d [<-|[<-|[]]] Hd; simpl in Hd; [|destruct Hd].
  destruct Hd as [<-|[<-|[<-|[]]]]; vm_compute; discriminate.
Qed.

Lemma Packager_orderedPackages_acyclic_witness :
  exists result store' log',
    Packager_orderedPackages sortProper Examples.other_properties
      ([mkPackage "u1" (Examples.dir "a" "lazy" (Some ["b"; "zz"; "a"]%string));
        mkPackage "u2" (Examples.dir "b" "lazy" None)], [])
    = (inr result, (store', log')).
Proof.
  apply Packager_orderedPackages_acyclic.
  - exact sortProper_complete.
  - exact acyclic_plain.
  - simpl. constructor; [|constructor; [|constructor]]; simpl.
    + intros [E|[]]. discriminate.
    + tauto.
  - simpl. intros [E|[E|[]]]; discriminate.
  - assert (forall i j,
              dependsOn
                [mkPackage "u1" (Examples.dir "a" "lazy" (Some ["b"; "zz"; "a"]%string));
                 mkPackage "u2" (Examples.dir "b" "lazy" None)] i j ->
              i = 0) as Hd.
    { intros i j (q & d & Hq & Hin & F). destruct i as [|[|i]]; simpl in Hq.
      - reflexivity.
      - injection Hq as <-. destruct Hin.
      - destruct i; discriminate. }
    intros i j Hij Tij Tji.
    apply dependsOnTransitively_bound in Tij as Bi.
    assert (i = 0) as -> by (destruct Tij as [? ? D|? ? ? D _]; now apply Hd in D).
    assert (j = 0) as -> by (destruct Tji as [? ? D|? ? ? D _]; now apply Hd in D).
    now apply Hij.
Defined.

End PackagerOrdered.
